(** * OPTAA and PAR data product algorithms

    A shallow embedding of [ion_functions/data/opt_functions.py]: the
    optical-density calculation [opt_pd_calc], the temperature and salinity
    correction [opt_tempsal_corr], the scattering correction
    [opt_scatter_corr] and the OCR-507 irradiance conversion
    [opt_ocr507_irradiance].

    The Python code computes on numpy arrays of binary64 numbers.  The
    functions are embedded once, over an interface [Scalar] of the arithmetic
    the code uses, and the interface is instantiated three times: with Rocq's
    primitive binary64 floats (the arithmetic the code really runs on), with
    the canonical rationals [Qc] (exact and executable) and with the reals [R]
    (exact, with the natural logarithm).  Python exceptions are the [Raise]
    results of an error monad. *)

From Stdlib Require Import String Bool Arith Lia List.
From Stdlib Require Import ZArith QArith Qcanon Floats Reals Lra.
From Stdlib Require Import DecimalString.
Import ListNotations.
Open Scope nat_scope.

Set Warnings "-inexact-float".
Set Implicit Arguments.

(** ** Scalars *)

(** The arithmetic used by the module: the four operations, the absolute
    value, the comparisons [<] and [<=], and the literals that occur in the
    source ([0] and [0.0], [1.] and [1.0], [0.25], [0.02], [715.]). *)
Class Scalar (F : Type) : Type := {
  lit_0 : F;
  lit_1 : F;
  lit_0_25 : F;
  lit_0_02 : F;
  lit_715 : F;
  fadd : F -> F -> F;
  fsub : F -> F -> F;
  fmul : F -> F -> F;
  fdiv : F -> F -> F;
  fabs : F -> F;
  flt : F -> F -> bool;
  fle : F -> F -> bool
}.

(** binary64, as numpy's float64. *)
#[export] Instance Scalar_float : Scalar float := {
  lit_0 := 0%float;
  lit_1 := 1%float;
  lit_0_25 := 0.25%float;
  lit_0_02 := 0.02%float;
  lit_715 := 715%float;
  fadd := PrimFloat.add;
  fsub := PrimFloat.sub;
  fmul := PrimFloat.mul;
  fdiv := PrimFloat.div;
  fabs := PrimFloat.abs;
  flt := PrimFloat.ltb;
  fle := PrimFloat.leb
}.

Definition Qcltb (x y : Qc) : bool :=
  match (x ?= y)%Qc with Lt => true | _ => false end.

Definition Qcleb (x y : Qc) : bool :=
  match (x ?= y)%Qc with Gt => false | _ => true end.

Definition Qcabs (x : Qc) : Qc := if Qcltb x 0%Qc then (- x)%Qc else x.

(** Exact rational arithmetic. *)
#[export] Instance Scalar_Qc : Scalar Qc := {
  lit_0 := 0%Qc;
  lit_1 := 1%Qc;
  lit_0_25 := Q2Qc (1 # 4);
  lit_0_02 := Q2Qc (2 # 100);
  lit_715 := Q2Qc 715;
  fadd := Qcplus;
  fsub := Qcminus;
  fmul := Qcmult;
  fdiv := Qcdiv;
  fabs := Qcabs;
  flt := Qcltb;
  fle := Qcleb
}.

Definition Rltb (x y : R) : bool := if Rlt_dec x y then true else false.

Definition Rleb (x y : R) : bool := if Rle_dec x y then true else false.

(** Exact real arithmetic. *)
#[export] Instance Scalar_R : Scalar R := {
  lit_0 := 0%R;
  lit_1 := 1%R;
  lit_0_25 := 0.25%R;
  lit_0_02 := 0.02%R;
  lit_715 := 715%R;
  fadd := Rplus;
  fsub := Rminus;
  fmul := Rmult;
  fdiv := Rdiv;
  fabs := Rabs;
  flt := Rltb;
  fle := Rleb
}.

(** The order facts the bracket search and [argmin] rely on.  They are
    proved below for [Qc] and [R]; binary64 breaks them at NaN. *)
Class OrderLaws (F : Type) `{Scalar F} : Prop := {
  flt_sub_lit_0 : forall x y : F, flt (fsub x y) lit_0 = flt x y;
  flt_asym : forall x y : F, flt x y = true -> flt y x = false;
  flt_fle_trans : forall x y z : F,
    flt x y = true -> fle y z = true -> flt x z = true;
  fle_total : forall x y : F, flt x y = false -> fle y x = true;
  flt_not_fle : forall x y : F, flt x y = true -> fle y x = false;
  fle_trans : forall x y z : F,
    fle x y = true -> fle y z = true -> fle x z = true
}.

Arguments OrderLaws F {_}.

(** The field facts of exact arithmetic, which binary64 does not have. *)
Class ExactLaws (F : Type) `{Scalar F} : Prop := {
  fmul_lit_0_l : forall x : F, fmul lit_0 x = lit_0;
  fsub_lit_0_r : forall x : F, fsub x lit_0 = x;
  fsub_diag : forall x : F, fsub x x = lit_0;
  fdiv_fmul : forall x d : F, d <> lit_0 -> fmul (fdiv x d) d = x;
  fle_lit_0_0_02 : fle (lit_0 : F) lit_0_02 = true
}.

Arguments ExactLaws F {_}.

(** The further literals of the source: those of [opt_internal_temp]
    ([5.], [65535.], [10000.], [4.516], the coefficients [a], [b], [c] and
    [273.15]) and of [opt_par_biospherical_wfp] ([1000.], [6.02] and the
    integer [10**13]). *)
Class Literals (F : Type) : Type := {
  lit_5 : F;
  lit_65535 : F;
  lit_10000 : F;
  lit_4_516 : F;
  lit_a : F;
  lit_b : F;
  lit_c : F;
  lit_273_15 : F;
  lit_1000 : F;
  lit_6_02 : F;
  lit_10_pow_13 : F
}.

#[export] Instance Literals_float : Literals float := {
  lit_5 := 5%float;
  lit_65535 := 65535%float;
  lit_10000 := 10000%float;
  lit_4_516 := 4.516%float;
  lit_a := 0.00093135%float;
  lit_b := 0.000221631%float;
  lit_c := 0.000000125741%float;
  lit_273_15 := 273.15%float;
  lit_1000 := 1000%float;
  lit_6_02 := 6.02%float;
  lit_10_pow_13 := 10000000000000%float
}.

#[export] Instance Literals_Qc : Literals Qc := {
  lit_5 := Q2Qc 5;
  lit_65535 := Q2Qc 65535;
  lit_10000 := Q2Qc 10000;
  lit_4_516 := Q2Qc (4516 # 1000);
  lit_a := Q2Qc (93135 # 100000000);
  lit_b := Q2Qc (221631 # 1000000000);
  lit_c := Q2Qc (125741 # 1000000000000);
  lit_273_15 := Q2Qc (27315 # 100);
  lit_1000 := Q2Qc 1000;
  lit_6_02 := Q2Qc (602 # 100);
  lit_10_pow_13 := Q2Qc 10000000000000
}.

#[export] Instance Literals_R : Literals R := {
  lit_5 := 5%R;
  lit_65535 := 65535%R;
  lit_10000 := 10000%R;
  lit_4_516 := 4.516%R;
  lit_a := 0.00093135%R;
  lit_b := 0.000221631%R;
  lit_c := 0.000000125741%R;
  lit_273_15 := 273.15%R;
  lit_1000 := 1000%R;
  lit_6_02 := 6.02%R;
  lit_10_pow_13 := 10000000000000%R
}.

(** [np.around(x, decimals=1)] on the reals: the multiple of [0.1] nearest
    to [x], the even one at a tie. *)
Definition R_around (x : R) : R :=
  let z := (x * 10)%R in
  let n := (up z - 1)%Z in
  let frac := (z - IZR n)%R in
  let m :=
    if Rlt_dec frac (1 / 2) then n
    else if Rlt_dec (1 / 2) frac then (n + 1)%Z
    else if Z.even n then n else (n + 1)%Z in
  (IZR m / 10)%R.

(** Further facts of exact arithmetic: a zero factor on the right, a zero
    summand on the left, the cancellation of a common factor in a quotient,
    and the sign of a quotient of positive numbers. *)
Class FieldLaws (F : Type) `{Scalar F} : Prop := {
  fmul_lit_0_r : forall x : F, fmul x lit_0 = lit_0;
  fadd_lit_0_l : forall x : F, fadd lit_0 x = x;
  fdiv_fmul_cancel : forall k s r : F,
    k <> lit_0 -> r <> lit_0 -> fdiv (fmul k s) (fmul k r) = fdiv s r;
  fdiv_pos : forall x d : F,
    flt lit_0 x = true -> flt lit_0 d = true -> flt lit_0 (fdiv x d) = true;
  flt_lit_0_0_02 : flt (lit_0 : F) lit_0_02 = true
}.

Arguments FieldLaws F {_}.

(** ** Python results *)

(** The exceptions the module raises, itself or through numpy. *)
Inductive exn : Type :=
| ValueError (args : list string)
| IndexError
| KeyError.

Inductive result (A : Type) : Type :=
| Ok (a : A)
| Raise (e : exn).

Arguments Ok {A} a.
Arguments Raise {A} e.

Definition bind {A B : Type} (m : result A) (k : A -> result B) : result B :=
  match m with
  | Ok a => k a
  | Raise e => Raise e
  end.

Notation "x <- m ;; k" := (bind m (fun x => k))
  (at level 61, m at next level, right associativity).

Definition is_ok {A : Type} (m : result A) : bool :=
  match m with Ok _ => true | Raise _ => false end.

Definition is_ValueError {A : Type} (m : result A) : bool :=
  match m with Raise (ValueError _) => true | _ => false end.

(** The double-quote character, for the message of [opt_tempsal_corr]. *)
Definition dquote : string := String (Ascii.ascii_of_nat 34) EmptyString.

(** [str(n)] for a length. *)
Definition py_str (n : nat) : string :=
  NilEmpty.string_of_uint (Nat.to_uint n).

(** [s in msg]. *)
Fixpoint occurs (s msg : string) : bool :=
  prefix s msg
  || match msg with
     | EmptyString => false
     | String _ msg' => occurs s msg'
     end.

(** A message names a length when the decimal numeral occurs in it. *)
Definition names (msg : string) (n : nat) : bool := occurs (py_str n) msg.

(** ** numpy arrays *)

(** One-dimensional arrays are lists.  A two-dimensional array carries its
    column count, so that the shape [(0, c)] exists. *)
Record ndarray2 (F : Type) : Type := mk_ndarray2 {
  ncols : nat;
  rows : list (list F)
}.

Definition wf2 {F : Type} (a : ndarray2 F) : Prop :=
  Forall (fun row => length row = ncols a) (rows a).

Definition shape {F : Type} (a : ndarray2 F) : nat * nat :=
  (length (rows a), ncols a).

Definition shape_eqb (s t : nat * nat) : bool :=
  (fst s =? fst t) && (snd s =? snd t).

(** [np.nonzero(mask)[0]]: the indices at which the mask holds. *)
Fixpoint nonzero_from (i : nat) (mask : list bool) : list nat :=
  match mask with
  | [] => []
  | b :: mask' =>
      if b then i :: nonzero_from (S i) mask' else nonzero_from (S i) mask'
  end.

Definition nonzero (mask : list bool) : list nat := nonzero_from 0 mask.

(** [a[i]] on a one-dimensional array, for [0 <= i]. *)
Definition getitem {A : Type} (a : list A) (i : nat) : result A :=
  match nth_error a i with
  | Some x => Ok x
  | None => Raise IndexError
  end.

(** [a[-1]]. *)
Definition getitem_last {A : Type} (a : list A) : result A :=
  match a with
  | [] => Raise IndexError
  | _ :: _ => getitem a (length a - 1)
  end.

(** [a[:, j]] on a two-dimensional array. *)
Definition column {F : Type} (dflt : F) (a : ndarray2 F) (j : nat)
  : result (list F) :=
  if j <? ncols a then Ok (map (fun row => nth j row dflt) (rows a))
  else Raise IndexError.

(** Elementwise combination of two arrays of one shape. *)
Fixpoint map2 {A B C : Type} (f : A -> B -> C) (xs : list A) (ys : list B)
  : list C :=
  match xs, ys with
  | x :: xs', y :: ys' => f x y :: map2 f xs' ys'
  | _, _ => []
  end.

(** ** The OPTAA functions *)

Section Functions.

Context {F : Type} `{Scalar F}.

(** [np.log], a function of the numpy library; no property of the module
    depends on its values. *)
Variable np_log : F -> F.

(** The static table [tscor] of [ion_functions.data.opt_functions_tscor], a
    dictionary from wavelength to the three correction coefficients; the
    table is data of another module and is taken as given. *)
Variable tscor : F -> option (F * F * F).

(** *** Optical density *)

Definition offsetErrorString (noffset nValues : nat) : string :=
  ("The number of calibration offset channels ("
   ++ py_str noffset
   ++ ") from the cal devfile must match the number of Signal and Reference channels ("
   ++ py_str nValues
   ++ ") from the rawdata.")%string.

Definition rErrorString (r nValues : nat) : string :=
  ("The number of rows in the internal temperature compensation calibration array ("
   ++ py_str r
   ++ ") must match the number of wavelength channels in the rawdata ("
   ++ py_str nValues
   ++ ").")%string.

Definition cErrorString (c tValues : nat) : string :=
  ("Number of columns in the internal temperature compensation calibration array ("
   ++ py_str c
   ++ ") must match the number of internal temp comp cal bin values = ("
   ++ py_str tValues
   ++ ").")%string.

(** [tbins-tintrn < 0] and [tintrn-tbins < 0]. *)
Definition below_mask (tbins : list F) (tintrn : F) : list bool :=
  map (fun b => flt (fsub b tintrn) lit_0) tbins.

Definition above_mask (tbins : list F) (tintrn : F) : list bool :=
  map (fun b => flt (fsub tintrn b) lit_0) tbins.

(** The indexes in the temperature bins of the values bracketing the
    internal temperature, and the two bracketing temperatures (lines 407 to
    412 of the source). *)
Definition bracket (tbins : list F) (tintrn : F)
  : result (nat * nat * F * F) :=
  ind1 <- getitem_last (nonzero (below_mask tbins tintrn)) ;;
  ind2 <- getitem (nonzero (above_mask tbins tintrn)) 0 ;;
  T0 <- getitem tbins ind1 ;;
  T1 <- getitem tbins ind2 ;;
  Ok (ind1, ind2, T0, T1).

(** The linear temperature correction and the uncorrected signal (lines 417
    and 422), on the arrays the checks have let through. *)
Definition linear_correction (tintrn T0 T1 : F) (dT0 dT1 : list F) : list F :=
  map2 (fun d0 d1 =>
          fadd d0 (fmul (fdiv (fsub tintrn T0) (fsub T1 T0)) (fsub d1 d0)))
       dT0 dT1.

Definition uncorrected_signal (ref sig offset deltaT : list F) : list F :=
  map2 fsub
       (map2 (fun o l => fsub o (fmul (fdiv lit_1 lit_0_25) l))
             offset (map np_log (map2 fdiv sig ref)))
       deltaT.

Definition opt_pd_calc (ref sig offset : list F) (tintrn : F)
    (tbins : list F) (tarray : ndarray2 F) : result (list F * list F) :=
  let lFlag := negb (length ref =? length sig) in
  if lFlag then
    Raise (ValueError ["Reference and Signal arrays must be the same length"%string])
  else
  let nValues := length sig in
  let lFlag := negb (length offset =? nValues) in
  if lFlag then
    Raise (ValueError [offsetErrorString (length offset) nValues])
  else
  let tValues := length tbins in
  let '(r, c) := shape tarray in
  if negb (r =? nValues) then
    Raise (ValueError [rErrorString r nValues])
  else
  if negb (c =? tValues) then
    Raise (ValueError [cErrorString c tValues])
  else
  b <- bracket tbins tintrn ;;
  let '(ind1, ind2, T0, T1) := b in
  dT0 <- column lit_0 tarray ind1 ;;
  dT1 <- column lit_0 tarray ind2 ;;
  let deltaT := linear_correction tintrn T0 T1 dT0 dT1 in
  let pd := uncorrected_signal ref sig offset deltaT in
  Ok (pd, deltaT).

(** *** Temperature and salinity correction *)

(** [np.array([tscor[ii] for ii in wlngth])]: a missing key raises
    [KeyError]. *)
Fixpoint lookup_tscor (wlngth : list F) : result (list (F * F * F)) :=
  match wlngth with
  | [] => Ok []
  | w :: wlngth' =>
      match tscor w with
      | None => Raise KeyError
      | Some row => rest <- lookup_tscor wlngth' ;; Ok (row :: rest)
      end
  end.

(** [np_tscor[:, k]].  The array built from an empty list is
    one-dimensional, of shape [(0,)], and indexing it with two indices raises
    [IndexError]. *)
Definition tscor_column (k : F * F * F -> F) (np_tscor : list (F * F * F))
  : result (list F) :=
  match np_tscor with
  | [] => Raise IndexError
  | _ :: _ => Ok (map k np_tscor)
  end.

Definition tscor_0 (row : F * F * F) : F := fst (fst row).
Definition tscor_1 (row : F * F * F) : F := snd (fst row).
Definition tscor_2 (row : F * F * F) : F := snd row.

(** [pd - dT * col_T - PS * col_S], elementwise. *)
Definition tempsal_formula (pd : list F) (dT PS : F) (col_T col_S : list F)
  : list F :=
  map2 fsub (map2 (fun p t => fsub p (fmul dT t)) pd col_T)
       (map (fun s => fmul PS s) col_S).

Definition channelErrorString : string :=
  ("Channel must be either " ++ dquote ++ "a" ++ dquote ++ " or "
   ++ dquote ++ "c" ++ dquote)%string.

Definition opt_tempsal_corr (channel : string) (pd wlngth : list F)
    (tcal T PS : F) : result (list F) :=
  let lFlag := negb (length pd =? length wlngth) in
  if lFlag then
    Raise (ValueError ["pd and wavelength arrays must be the same length"%string])
  else
  np_tscor <- lookup_tscor wlngth ;;
  let dT := fsub T tcal in
  if String.eqb channel "a" then
    col_T <- tscor_column tscor_0 np_tscor ;;
    col_S <- tscor_column tscor_2 np_tscor ;;
    Ok (tempsal_formula pd dT PS col_T col_S)
  else if String.eqb channel "c" then
    col_T <- tscor_column tscor_0 np_tscor ;;
    col_S <- tscor_column tscor_1 np_tscor ;;
    Ok (tempsal_formula pd dT PS col_T col_S)
  else
    Raise (ValueError [channelErrorString]).

(** *** Scattering correction *)

(** [a.argmin()]: the first index of the least element (of an array
    without NaN). *)
Fixpoint argmin_from (best : F) (ibest i : nat) (a : list F) : nat :=
  match a with
  | [] => ibest
  | x :: a' =>
      if flt x best then argmin_from x i (S i) a'
      else argmin_from best ibest (S i) a'
  end.

Definition argmin (a : list F) : result nat :=
  match a with
  | [] => Raise (ValueError ["attempt to get argmin of an empty sequence"%string])
  | x :: a' => Ok (argmin_from x 0 1 a')
  end.

(** [np.interp(x, xp, fp)] of the numpy library, for increasing [xp]: the
    piecewise linear interpolant through the points [(xp, fp)], constant
    [fp[0]] to the left of [xp[0]] and [fp[-1]] from [xp[-1]] on.  Between
    two nodes numpy computes [slope*(x - xp[j]) + fp[j]] with
    [slope = (fp[j+1] - fp[j])/(xp[j+1] - xp[j])]. *)
Fixpoint interp_search (x x0 y0 : F) (nodes : list (F * F)) : F :=
  match nodes with
  | [] => y0
  | (x1, y1) :: nodes' =>
      if flt x x1 then
        fadd (fmul (fdiv (fsub y1 y0) (fsub x1 x0)) (fsub x x0)) y0
      else interp_search x x1 y1 nodes'
  end.

Definition interp_at (x0 y0 : F) (nodes : list (F * F)) (x : F) : F :=
  if flt x x0 then y0 else interp_search x x0 y0 nodes.

Definition np_interp (x xp fp : list F) : result (list F) :=
  match xp, fp with
  | [], _ => Raise (ValueError ["array of sample points is empty"%string])
  | x0 :: xp', y0 :: fp' =>
      if length xp' =? length fp' then
        Ok (map (interp_at x0 y0 (combine xp' fp')) x)
      else Raise (ValueError ["fp and xp are not of the same length."%string])
  | _ :: _, [] =>
      Raise (ValueError ["fp and xp are not of the same length."%string])
  end.

Definition scat_ratio_of (aref cref : F) : F :=
  let ref_scatter_leakage_min := lit_0_02 in
  if fle aref lit_0 then lit_0
  else if fle (fsub cref aref) ref_scatter_leakage_min then lit_0
  else fdiv aref (fsub cref aref).

Definition opt_scatter_corr (apd_ts awlngth cpd_ts cwlngth : list F)
    (rwlngth : F) : result (list F) :=
  let lFlag := negb (length apd_ts =? length awlngth) in
  if lFlag then
    Raise (ValueError ["Absorption and absorption wavelength arrays must "%string;
                       "be the same length"%string])
  else
  let lFlag := negb (length cpd_ts =? length cwlngth) in
  if lFlag then
    Raise (ValueError ["Attenuation and attenuation wavelength arrays must "%string;
                       "be the same length"%string])
  else
  idx <- argmin (map (fun w => fabs (fsub w rwlngth)) awlngth) ;;
  aref <- getitem apd_ts idx ;;
  cintrp <- np_interp awlngth cwlngth cpd_ts ;;
  cref <- getitem cintrp idx ;;
  let scat_ratio := scat_ratio_of aref cref in
  let apd_ts_s :=
    map2 (fun a c => fsub a (fmul scat_ratio (fsub c a))) apd_ts cintrp in
  Ok apd_ts_s.

(** The call with the default [rwlngth=715.]. *)
Definition opt_scatter_corr_default (apd_ts awlngth cpd_ts cwlngth : list F)
  : result (list F) :=
  opt_scatter_corr apd_ts awlngth cpd_ts cwlngth lit_715.

(** *** OCR-507 irradiance *)

Definition map_2d (f : F -> F) (a : ndarray2 F) : ndarray2 F :=
  mk_ndarray2 (ncols a) (map (map f) (rows a)).

Definition map2_2d (f : F -> F -> F) (a b : ndarray2 F) : ndarray2 F :=
  mk_ndarray2 (ncols a) (map2 (map2 f) (rows a) (rows b)).

(** [a[i, j]], for indices in range. *)
Definition cell (a : ndarray2 F) (i j : nat) : F :=
  nth j (nth i (rows a) []) lit_0.

Definition opt_ocr507_irradiance
    (counts offset scale immersion_factor : ndarray2 F)
  : result (ndarray2 F) :=
  let counts := map_2d (fun x => fmul x lit_1) counts in
  let lFlag1 := negb (snd (shape counts) =? 7) in
  let lFlag2 :=
    negb (shape_eqb (shape counts) (shape offset)
          && shape_eqb (shape offset) (shape scale)
          && shape_eqb (shape scale) (shape immersion_factor)) in
  if lFlag1 || lFlag2 then
    Raise (ValueError ["counts, offset, scale, and immersion arrays must have the same shape and have 7 columns"%string])
  else
  let Ed :=
    map2_2d fmul (map2_2d fmul (map2_2d fsub counts offset) scale)
            immersion_factor in
  Ok Ed.

(** *** Internal temperature *)

(** [x**n] and [np.around(x, decimals=1)], functions of the numpy library. *)
Variable np_power : F -> nat -> F.
Variable np_around : F -> F.

Context `{Literals F}.

(** The resistance of the thermistor (lines 286 to 290). *)
Definition thermistor_resistance (traw : F) : F :=
  let volts := fdiv (fmul lit_5 traw) lit_65535 in
  fdiv (fmul lit_10000 volts) (fsub lit_4_516 volts).

Definition opt_internal_temp (traw : F) : F :=
  let res := thermistor_resistance traw in
  let a := lit_a in
  let b := lit_b in
  let c := lit_c in
  let log_res := np_log res in
  let degC :=
    fsub (fdiv lit_1
               (fadd (fadd a (fmul b log_res)) (fmul c (np_power log_res 3))))
         lit_273_15 in
  degC.

(** *** The wrappers *)

(** [out[ii, :] = row] on an array with [nwavelengths] columns: the row is
    stored when it has that length, broadcast when it has one entry, and
    refused otherwise. *)
Definition assign_row (nwavelengths : nat) (row : list F)
  : result (list F) :=
  if length row =? nwavelengths then Ok row
  else match row with
       | [x] => Ok (repeat x nwavelengths)
       | _ =>
           Raise (ValueError
                    [("could not broadcast input array from shape ("
                      ++ py_str (length row) ++ ",) into shape ("
                      ++ py_str nwavelengths ++ ",)")%string])
       end.

(** [for ii in range(npackets)], from packet [ii] on: the rows are computed
    and stored in order, and the first exception ends the loop. *)
Fixpoint packet_loop (body : nat -> result (list F)) (nwavelengths : nat)
    (ii n : nat) : result (list (list F)) :=
  match n with
  | 0 => Ok []
  | S n' =>
      row <- body ii ;;
      stored <- assign_row nwavelengths row ;;
      rest <- packet_loop body nwavelengths (S ii) n' ;;
      Ok (stored :: rest)
  end.

(** The body of the loop of [opt_beam_attenuation] (lines 112 to 121).  The
    arrays are those after the reshaping of lines 91 to 102: one row, or one
    entry, or one table per packet. *)
Definition beam_attenuation_packet (cref csig : ndarray2 F) (traw : list F)
    (cwl coff : ndarray2 F) (tcal : list F) (tbins : ndarray2 F)
    (tc_arr : list (ndarray2 F)) (T PS : list F) (ii : nat)
  : result (list F) :=
  traw_ii <- getitem traw ii ;;
  let tintrn := opt_internal_temp traw_ii in
  cref_ii <- getitem (rows cref) ii ;;
  csig_ii <- getitem (rows csig) ii ;;
  coff_ii <- getitem (rows coff) ii ;;
  tbins_ii <- getitem (rows tbins) ii ;;
  tc_arr_ii <- getitem tc_arr ii ;;
  r <- opt_pd_calc cref_ii csig_ii coff_ii tintrn tbins_ii tc_arr_ii ;;
  let '(cpd, _) := r in
  cwl_ii <- getitem (rows cwl) ii ;;
  tcal_ii <- getitem tcal ii ;;
  T_ii <- getitem T ii ;;
  PS_ii <- getitem PS ii ;;
  opt_tempsal_corr "c" cpd cwl_ii tcal_ii T_ii PS_ii.

Definition opt_beam_attenuation (cref csig : ndarray2 F) (traw : list F)
    (cwl coff : ndarray2 F) (tcal : list F) (tbins : ndarray2 F)
    (tc_arr : list (ndarray2 F)) (T PS : list F) : result (ndarray2 F) :=
  let cwl := map_2d np_around cwl in
  let npackets := fst (shape cwl) in
  let nwavelengths := snd (shape cwl) in
  cpd_ts <- packet_loop
              (beam_attenuation_packet cref csig traw cwl coff tcal tbins
                                       tc_arr T PS)
              nwavelengths 0 npackets ;;
  Ok (mk_ndarray2 nwavelengths cpd_ts).

(** The body of the loop of [opt_optical_absorption] (lines 230 to 242). *)
Definition optical_absorption_packet (aref asig : ndarray2 F)
    (traw : list F) (awl aoff : ndarray2 F) (tcal : list F)
    (tbins : ndarray2 F) (ta_arr : list (ndarray2 F))
    (cpd_ts cwl : ndarray2 F) (T PS : list F) (rwlngth : F) (ii : nat)
  : result (list F) :=
  traw_ii <- getitem traw ii ;;
  let tintrn := opt_internal_temp traw_ii in
  aref_ii <- getitem (rows aref) ii ;;
  asig_ii <- getitem (rows asig) ii ;;
  aoff_ii <- getitem (rows aoff) ii ;;
  tbins_ii <- getitem (rows tbins) ii ;;
  ta_arr_ii <- getitem ta_arr ii ;;
  r <- opt_pd_calc aref_ii asig_ii aoff_ii tintrn tbins_ii ta_arr_ii ;;
  let '(apd, _) := r in
  awl_ii <- getitem (rows awl) ii ;;
  tcal_ii <- getitem tcal ii ;;
  T_ii <- getitem T ii ;;
  PS_ii <- getitem PS ii ;;
  apd_ts <- opt_tempsal_corr "a" apd awl_ii tcal_ii T_ii PS_ii ;;
  cpd_ts_ii <- getitem (rows cpd_ts) ii ;;
  cwl_ii <- getitem (rows cwl) ii ;;
  opt_scatter_corr apd_ts awl_ii cpd_ts_ii cwl_ii rwlngth.

Definition opt_optical_absorption (aref asig : ndarray2 F) (traw : list F)
    (awl aoff : ndarray2 F) (tcal : list F) (tbins : ndarray2 F)
    (ta_arr : list (ndarray2 F)) (cpd_ts cwl : ndarray2 F) (T PS : list F)
    (rwlngth : F) : result (ndarray2 F) :=
  let awl := map_2d np_around awl in
  let npackets := fst (shape awl) in
  let nwavelengths := snd (shape awl) in
  apd_ts_s <- packet_loop
                (optical_absorption_packet aref asig traw awl aoff tcal
                                           tbins ta_arr cpd_ts cwl T PS
                                           rwlngth)
                nwavelengths 0 npackets ;;
  Ok (mk_ndarray2 nwavelengths apd_ts_s).

(** *** PAR from the Biospherical instruments, for one reading and a
    non-zero scale *)

Definition opt_par_biospherical_mobile (output dark_offset scale_wet : F)
  : list F :=
  [fdiv (fsub output dark_offset) scale_wet].

Definition opt_par_biospherical_wfp (output dark_offset scale_wet : F)
  : list F :=
  let output_volts := fdiv output lit_1000 in
  let dark_offset_volts := fdiv dark_offset lit_1000 in
  let scale_wet_converted :=
    fmul scale_wet (fmul lit_6_02 lit_10_pow_13) in
  [fdiv (fsub output_volts dark_offset_volts) scale_wet_converted].

(** *** Predicates of the statements *)

(** A grid in strictly ascending order. *)
Fixpoint strictly_ascending (l : list F) : bool :=
  match l with
  | x :: (y :: _) as l' => flt x y && strictly_ascending l'
  | _ => true
  end.

(** A grid in ascending order. *)
Fixpoint ascending (l : list F) : bool :=
  match l with
  | x :: (y :: _) as l' => fle x y && ascending l'
  | _ => true
  end.

(** The temperature lies strictly between two bins of the grid. *)
Definition inside_grid (tbins : list F) (tintrn : F) : Prop :=
  exists lo hi, In lo tbins /\ In hi tbins
                /\ flt lo tintrn = true /\ flt tintrn hi = true.

(** The temperature lies below every bin, or above every bin. *)
Definition outside_grid (tbins : list F) (tintrn : F) : Prop :=
  (forall b, In b tbins -> flt tintrn b = true)
  \/ (forall b, In b tbins -> flt b tintrn = true).

(** The four shape conditions of [opt_pd_calc], on a two-dimensional array
    all of whose rows have [ncols] entries. *)
Definition shape_contract (ref sig offset tbins : list F)
    (tarray : ndarray2 F) : Prop :=
  length ref = length sig
  /\ length offset = length sig
  /\ fst (shape tarray) = length sig
  /\ snd (shape tarray) = length tbins
  /\ wf2 tarray.

(** [tarray[:, j]], for [j] in range. *)
Definition column_of (tarray : ndarray2 F) (j : nat) : list F :=
  map (fun row => nth j row lit_0) (rows tarray).

End Functions.

(** ** The laws in exact arithmetic *)

Lemma Qcltb_iff (x y : Qc) : Qcltb x y = true <-> (x < y)%Qc.
Proof.
  unfold Qcltb, Qclt, Qccompare. rewrite Qlt_alt.
  destruct (this x ?= this y)%Q; split; intro E; congruence.
Qed.

Lemma Qcleb_iff (x y : Qc) : Qcleb x y = true <-> (x <= y)%Qc.
Proof.
  unfold Qcleb, Qcle, Qccompare. rewrite Qle_alt.
  destruct (this x ?= this y)%Q; split; intro E; congruence.
Qed.

Lemma Qcltb_false_iff (x y : Qc) : Qcltb x y = false <-> (y <= x)%Qc.
Proof.
  rewrite <- not_true_iff_false, Qcltb_iff. split.
  - apply Qcnot_lt_le.
  - apply Qcle_not_lt.
Qed.

Lemma Qcleb_false_iff (x y : Qc) : Qcleb x y = false <-> (y < x)%Qc.
Proof.
  rewrite <- not_true_iff_false, Qcleb_iff. split.
  - apply Qcnot_le_lt.
  - apply Qclt_not_le.
Qed.

Lemma Qclt_sub_0 (x y : Qc) : (x - y < 0 <-> x < y)%Qc.
Proof.
  rewrite (Qclt_minus_iff (x - y) 0), (Qclt_minus_iff x y).
  replace (0 + - (x - y))%Qc with (y + - x)%Qc by ring. tauto.
Qed.

#[export] Instance OrderLaws_Qc : OrderLaws Qc.
Proof.
  split; simpl.
  - intros x y. apply eq_true_iff_eq.
    rewrite !Qcltb_iff. apply Qclt_sub_0.
  - intros x y. rewrite Qcltb_iff, Qcltb_false_iff. apply Qclt_le_weak.
  - intros x y z. rewrite !Qcltb_iff, Qcleb_iff. apply Qclt_le_trans.
  - intros x y. rewrite Qcltb_false_iff, Qcleb_iff. tauto.
  - intros x y. rewrite Qcltb_iff, Qcleb_false_iff. tauto.
  - intros x y z. rewrite !Qcleb_iff. apply Qcle_trans.
Qed.

#[export] Instance ExactLaws_Qc : ExactLaws Qc.
Proof.
  split; simpl.
  - intro x. ring.
  - intro x. ring.
  - intro x. ring.
  - intros x d Hd. field. exact Hd.
  - reflexivity.
Qed.

Lemma Rltb_iff (x y : R) : Rltb x y = true <-> (x < y)%R.
Proof. unfold Rltb. destruct (Rlt_dec x y); split; intro E; congruence. Qed.

Lemma Rleb_iff (x y : R) : Rleb x y = true <-> (x <= y)%R.
Proof. unfold Rleb. destruct (Rle_dec x y); split; intro E; congruence. Qed.

Lemma Rltb_false_iff (x y : R) : Rltb x y = false <-> (y <= x)%R.
Proof. rewrite <- not_true_iff_false, Rltb_iff. lra. Qed.

Lemma Rleb_false_iff (x y : R) : Rleb x y = false <-> (y < x)%R.
Proof. rewrite <- not_true_iff_false, Rleb_iff. lra. Qed.

#[export] Instance OrderLaws_R : OrderLaws R.
Proof.
  split; simpl.
  - intros x y. apply eq_true_iff_eq. rewrite !Rltb_iff. lra.
  - intros x y. rewrite Rltb_iff, Rltb_false_iff. lra.
  - intros x y z. rewrite !Rltb_iff, Rleb_iff. lra.
  - intros x y. rewrite Rltb_false_iff, Rleb_iff. lra.
  - intros x y. rewrite Rltb_iff, Rleb_false_iff. lra.
  - intros x y z. rewrite !Rleb_iff. lra.
Qed.

#[export] Instance ExactLaws_R : ExactLaws R.
Proof.
  split; simpl.
  - intro x. ring.
  - intro x. ring.
  - intro x. ring.
  - intros x d Hd. field. exact Hd.
  - apply Rleb_iff. lra.
Qed.

(** ** The bracket search *)

Lemma getitem_last_cons (A : Type) (x : A) (l : list A) :
  getitem_last (x :: l)
  = match l with [] => Ok x | _ :: _ => getitem_last l end.
Proof.
  destruct l as [|y l]; [reflexivity|].
  unfold getitem_last, getitem. simpl. rewrite Nat.sub_0_r. reflexivity.
Qed.

Lemma nonzero_first_spec (mask : list bool) : forall k,
  match nonzero_from k mask with
  | [] => forall j, nth_error mask j <> Some true
  | i :: _ => k <= i /\ nth_error mask (i - k) = Some true
              /\ forall j, nth_error mask j = Some true -> i <= k + j
  end.
Proof.
  induction mask as [|b mask IH]; intro k; simpl.
  - intros [|j]; discriminate.
  - destruct b.
    + rewrite Nat.sub_diag. repeat split; [lia | intros; lia].
    + specialize (IH (S k)). destruct (nonzero_from (S k) mask) as [|i l].
      * intros [|j]; [discriminate | apply IH].
      * destruct IH as (Hk & Hi & Hmin). split; [lia|]. split.
        -- replace (i - k) with (S (i - S k)) by lia. exact Hi.
        -- intros [|j] Hj; [discriminate|]. specialize (Hmin j Hj). lia.
Qed.

Lemma nonzero_last_spec (mask : list bool) : forall k,
  match getitem_last (nonzero_from k mask) with
  | Raise e => e = IndexError /\ forall j, nth_error mask j <> Some true
  | Ok i => k <= i /\ nth_error mask (i - k) = Some true
            /\ forall j, nth_error mask j = Some true -> k + j <= i
  end.
Proof.
  induction mask as [|b mask IH]; intro k; simpl.
  - split; [reflexivity | intros [|j]; discriminate].
  - specialize (IH (S k)). destruct b.
    + rewrite getitem_last_cons.
      destruct (nonzero_from (S k) mask) as [|i l] eqn:E.
      * simpl in IH. destruct IH as [_ IH].
        rewrite Nat.sub_diag. repeat split; [lia|].
        intros [|j] Hj; [lia | elim (IH j Hj)].
      * destruct (getitem_last (i :: l)) as [m|e].
        -- destruct IH as (Hk & Hi & Hmax). split; [lia|]. split.
           ++ replace (m - k) with (S (m - S k)) by lia. exact Hi.
           ++ intros [|j] Hj; [lia|]. specialize (Hmax j Hj). lia.
        -- destruct IH as [_ IH].
           pose proof (nonzero_first_spec mask (S k)) as Hf.
           rewrite E in Hf. destruct Hf as (_ & Hf & _). elim (IH _ Hf).
    + destruct (getitem_last (nonzero_from (S k) mask)) as [m|e].
      * destruct IH as (Hk & Hi & Hmax). split; [lia|]. split.
        -- replace (m - k) with (S (m - S k)) by lia. exact Hi.
        -- intros [|j] Hj; [discriminate|]. specialize (Hmax j Hj). lia.
      * destruct IH as [He IH]. split; [exact He|].
        intros [|j]; [discriminate | apply IH].
Qed.

(** [np.nonzero(mask)[0][0]] is the first index of the mask, and exists as
    soon as the mask holds somewhere. *)
Lemma first_index_spec (mask : list bool) :
  match getitem (nonzero mask) 0 with
  | Raise e => e = IndexError /\ forall j, nth_error mask j <> Some true
  | Ok i => nth_error mask i = Some true
            /\ forall j, nth_error mask j = Some true -> i <= j
  end.
Proof.
  unfold nonzero, getitem. pose proof (nonzero_first_spec mask 0) as Hf.
  destruct (nonzero_from 0 mask) as [|i l]; simpl.
  - split; [reflexivity | exact Hf].
  - destruct Hf as (_ & Hi & Hmin). rewrite Nat.sub_0_r in Hi.
    split; [exact Hi | exact Hmin].
Qed.

(** [np.nonzero(mask)[0][-1]] is the last index of the mask. *)
Lemma last_index_spec (mask : list bool) :
  match getitem_last (nonzero mask) with
  | Raise e => e = IndexError /\ forall j, nth_error mask j <> Some true
  | Ok i => nth_error mask i = Some true
            /\ forall j, nth_error mask j = Some true -> j <= i
  end.
Proof.
  unfold nonzero. pose proof (nonzero_last_spec mask 0) as Hl.
  destruct (getitem_last (nonzero_from 0 mask)) as [i|e].
  - destruct Hl as (_ & Hi & Hmax). rewrite Nat.sub_0_r in Hi.
    split; [exact Hi | exact Hmax].
  - exact Hl.
Qed.

Lemma nth_error_mask (A : Type) (p : A -> bool) (l : list A) (j : nat) :
  nth_error (map p l) j = Some true
  <-> exists b, nth_error l j = Some b /\ p b = true.
Proof.
  rewrite nth_error_map. destruct (nth_error l j) as [b|]; simpl.
  - split.
    + intro E. exists b. split; [reflexivity | congruence].
    + intros (b' & E & Hp). congruence.
  - split; [discriminate | intros (b' & E & _); discriminate].
Qed.

Section BracketFacts.

Context {F : Type} `{Scalar F}.

(** What the two searches of [bracket] return, in the terms of the code:
    [ind1] is the last index with [tbins - tintrn < 0], [ind2] the first
    with [tintrn - tbins < 0], and an [IndexError] is raised exactly when one
    of the two masks is false throughout. *)
Lemma bracket_spec (tbins : list F) (tintrn : F) :
  match bracket tbins tintrn with
  | Ok (ind1, ind2, T0, T1) =>
      (nth_error tbins ind1 = Some T0
       /\ flt (fsub T0 tintrn) lit_0 = true
       /\ forall j b, nth_error tbins j = Some b ->
                      flt (fsub b tintrn) lit_0 = true -> j <= ind1)
      /\ (nth_error tbins ind2 = Some T1
          /\ flt (fsub tintrn T1) lit_0 = true
          /\ forall j b, nth_error tbins j = Some b ->
                         flt (fsub tintrn b) lit_0 = true -> ind2 <= j)
  | Raise e =>
      e = IndexError
      /\ ((forall b, In b tbins -> flt (fsub b tintrn) lit_0 = false)
          \/ (forall b, In b tbins -> flt (fsub tintrn b) lit_0 = false))
  end.
Proof.
  unfold bracket.
  pose proof (last_index_spec (below_mask tbins tintrn)) as Hl.
  pose proof (first_index_spec (above_mask tbins tintrn)) as Hf.
  unfold below_mask, above_mask in *.
  destruct (getitem_last _) as [ind1|e1]; simpl.
  - destruct (getitem _ 0) as [ind2|e2]; simpl.
    + destruct Hl as [Hl1 Hl2]. destruct Hf as [Hf1 Hf2].
      apply nth_error_mask in Hl1. destruct Hl1 as (T0 & E0 & H0).
      apply nth_error_mask in Hf1. destruct Hf1 as (T1 & E1 & H1).
      unfold getitem. rewrite E0, E1. simpl. split.
      * split; [exact E0|]. split; [exact H0|].
        intros j b Ej Hb. apply Hl2. apply nth_error_mask. eauto.
      * split; [exact E1|]. split; [exact H1|].
        intros j b Ej Hb. apply Hf2. apply nth_error_mask. eauto.
    + destruct Hf as [He Hf]. split; [exact He|]. right.
      intros b Hb. apply In_nth_error in Hb. destruct Hb as [j Ej].
      apply not_true_is_false. intro Hb. apply (Hf j).
      apply nth_error_mask. eauto.
  - destruct Hl as [He Hl]. split; [exact He|]. left.
    intros b Hb. apply In_nth_error in Hb. destruct Hb as [j Ej].
    apply not_true_is_false. intro Hb. apply (Hl j).
    apply nth_error_mask. eauto.
Qed.

Context `{!OrderLaws F}.

Lemma fle_refl (x : F) : fle x x = true.
Proof.
  apply fle_total. destruct (flt x x) eqn:E; [|reflexivity].
  rewrite (flt_asym _ _ E) in E. discriminate.
Qed.

Lemma ascending_head (x : F) (l : list F) :
  ascending (x :: l) = true -> forall b, In b l -> fle x b = true.
Proof.
  revert x. induction l as [|y l IH]; intros x Hs b Hb; [destruct Hb|].
  simpl in Hs. apply andb_true_iff in Hs. destruct Hs as [Hxy Hs].
  destruct Hb as [<-|Hb]; [exact Hxy|].
  apply fle_trans with y; [exact Hxy | apply IH; assumption].
Qed.

Lemma ascending_tail (x : F) (l : list F) :
  ascending (x :: l) = true -> ascending l = true.
Proof.
  destruct l as [|y l]; [reflexivity|]. simpl. intro Hs.
  apply andb_true_iff in Hs. apply Hs.
Qed.

Lemma ascending_nth_error (l : list F) : forall i j bi bj,
  ascending l = true -> i <= j ->
  nth_error l i = Some bi -> nth_error l j = Some bj -> fle bi bj = true.
Proof.
  induction l as [|x l IH]; intros i j bi bj Hs Hij Ei Ej.
  - destruct i; discriminate.
  - destruct i as [|i]; destruct j as [|j]; simpl in Ei, Ej.
    + assert (bi = bj) by congruence. subst. apply fle_refl.
    + injection Ei as <-. apply ascending_head with (l := l); [exact Hs|].
      eapply nth_error_In; eassumption.
    + lia.
    + apply (IH i j); [eapply ascending_tail; eassumption | lia | | ];
        assumption.
Qed.

(** In exact arithmetic a bracket exists exactly for temperatures inside
    the grid. *)
Lemma bracket_inside (tbins : list F) (tintrn : F) :
  inside_grid tbins tintrn ->
  exists ind1 ind2 T0 T1, bracket tbins tintrn = Ok (ind1, ind2, T0, T1).
Proof.
  intros (lo & hi & Hlo & Hhi & Hl & Hh).
  pose proof (bracket_spec tbins tintrn) as Hb.
  destruct (bracket tbins tintrn) as [[[[i1 i2] T0] T1]|e]; [eauto|].
  destruct Hb as [_ [Hb|Hb]].
  - specialize (Hb lo Hlo). rewrite flt_sub_lit_0 in Hb. congruence.
  - specialize (Hb hi Hhi). rewrite flt_sub_lit_0 in Hb. congruence.
Qed.

Lemma bracket_outside (tbins : list F) (tintrn : F) :
  outside_grid tbins tintrn -> bracket tbins tintrn = Raise IndexError.
Proof.
  intros Hout. pose proof (bracket_spec tbins tintrn) as Hb.
  destruct (bracket tbins tintrn) as [[[[i1 i2] T0] T1]|e].
  - exfalso. destruct Hb as [(E0 & H0 & _) (E1 & H1 & _)].
    rewrite flt_sub_lit_0 in H0, H1.
    apply nth_error_In in E0, E1. destruct Hout as [Hout|Hout].
    + specialize (Hout T0 E0). apply flt_asym in Hout. congruence.
    + specialize (Hout T1 E1). apply flt_asym in Hout. congruence.
  - destruct Hb as [-> _]. reflexivity.
Qed.

End BracketFacts.

Section BracketErrors.

Context {F : Type} `{Scalar F}.

Lemma bracket_raise_iff (tbins : list F) (tintrn : F) :
  bracket tbins tintrn = Raise IndexError
  <-> ((forall b, In b tbins -> flt (fsub b tintrn) lit_0 = false)
       \/ (forall b, In b tbins -> flt (fsub tintrn b) lit_0 = false)).
Proof.
  pose proof (bracket_spec tbins tintrn) as Hb.
  destruct (bracket tbins tintrn) as [[[[i1 i2] T0] T1]|e].
  - split; [discriminate|]. intro Hno. exfalso.
    destruct Hb as [(E0 & H0 & _) (E1 & H1 & _)].
    apply nth_error_In in E0, E1. destruct Hno as [Hn|Hn].
    + rewrite (Hn T0 E0) in H0. discriminate.
    + rewrite (Hn T1 E1) in H1. discriminate.
  - destruct Hb as [-> Hb]. split; [intros _; exact Hb | reflexivity].
Qed.

Lemma bracket_raise_IndexError (tbins : list F) (tintrn : F) (e : exn) :
  bracket tbins tintrn = Raise e -> e = IndexError.
Proof.
  intro Eb. pose proof (bracket_spec tbins tintrn) as Hb.
  rewrite Eb in Hb. apply Hb.
Qed.

End BracketErrors.

(** ** Arrays, elementwise *)

Lemma length_map2 (A B C : Type) (f : A -> B -> C) (xs : list A) :
  forall ys, length xs = length ys -> length (map2 f xs ys) = length xs.
Proof.
  induction xs as [|x xs IH]; intros [|y ys] E; simpl in *;
    try reflexivity; try discriminate.
  f_equal. apply IH. lia.
Qed.

Lemma nth_map2 (A B C : Type) (f : A -> B -> C) (da : A) (db : B) (dc : C)
    (xs : list A) : forall ys i,
  i < length xs -> i < length ys ->
  nth i (map2 f xs ys) dc = f (nth i xs da) (nth i ys db).
Proof.
  induction xs as [|x xs IH]; intros [|y ys] i Hx Hy; simpl in *; try lia.
  destruct i as [|i]; [reflexivity|]. apply IH; lia.
Qed.

Lemma nth_map_in_range (A B : Type) (f : A -> B) (da : A) (db : B)
    (xs : list A) (i : nat) :
  i < length xs -> nth i (map f xs) db = f (nth i xs da).
Proof.
  intro Hi. rewrite (nth_indep _ db (f da)) by (rewrite length_map; exact Hi).
  apply map_nth.
Qed.

(** ** Optical density: [opt_pd_calc] *)

Section OptPdCalcFacts.

Context {F : Type} `{Scalar F}.
Variable np_log : F -> F.

Lemma opt_pd_calc_checked (ref sig offset : list F) (tintrn : F)
    (tbins : list F) (tarray : ndarray2 F) :
  length ref = length sig -> length offset = length sig ->
  fst (shape tarray) = length sig -> snd (shape tarray) = length tbins ->
  opt_pd_calc np_log ref sig offset tintrn tbins tarray
  = (b <- bracket tbins tintrn ;;
     let '(ind1, ind2, T0, T1) := b in
     dT0 <- column lit_0 tarray ind1 ;;
     dT1 <- column lit_0 tarray ind2 ;;
     let deltaT := linear_correction tintrn T0 T1 dT0 dT1 in
     Ok (uncorrected_signal np_log ref sig offset deltaT, deltaT)).
Proof.
  intros E1 E2 E3 E4. unfold opt_pd_calc.
  rewrite E1, E2, Nat.eqb_refl. simpl negb. cbv iota.
  destruct (shape tarray) as [r c] eqn:Es. simpl in E3, E4. subst r c.
  rewrite !Nat.eqb_refl. reflexivity.
Qed.

Lemma opt_pd_calc_ok (ref sig offset : list F) (tintrn : F)
    (tbins : list F) (tarray : ndarray2 F) (ind1 ind2 : nat) (T0 T1 : F) :
  length ref = length sig -> length offset = length sig ->
  fst (shape tarray) = length sig -> snd (shape tarray) = length tbins ->
  bracket tbins tintrn = Ok (ind1, ind2, T0, T1) ->
  let deltaT := linear_correction tintrn T0 T1 (column_of tarray ind1)
                                  (column_of tarray ind2) in
  opt_pd_calc np_log ref sig offset tintrn tbins tarray
  = Ok (uncorrected_signal np_log ref sig offset deltaT, deltaT).
Proof.
  intros E1 E2 E3 E4 Eb deltaT.
  rewrite opt_pd_calc_checked by assumption.
  pose proof (bracket_spec tbins tintrn) as Hb. rewrite Eb in Hb.
  destruct Hb as [(Hi1 & _) (Hi2 & _)].
  assert (L1 : ind1 < ncols tarray).
  { simpl in E4. rewrite E4. apply nth_error_Some. congruence. }
  assert (L2 : ind2 < ncols tarray).
  { simpl in E4. rewrite E4. apply nth_error_Some. congruence. }
  rewrite Eb. simpl. unfold column.
  apply Nat.ltb_lt in L1, L2. rewrite L1, L2. reflexivity.
Qed.

Lemma opt_pd_calc_no_bracket (ref sig offset : list F) (tintrn : F)
    (tbins : list F) (tarray : ndarray2 F) (e : exn) :
  bracket tbins tintrn = Raise e ->
  is_ok (opt_pd_calc np_log ref sig offset tintrn tbins tarray) = false.
Proof.
  intro Eb. unfold opt_pd_calc.
  destruct (negb (length ref =? length sig)); [reflexivity|].
  destruct (negb (length offset =? length sig)); [reflexivity|].
  destruct (shape tarray) as [r c].
  destruct (negb (r =? length sig)); [reflexivity|].
  destruct (negb (c =? length tbins)); [reflexivity|].
  rewrite Eb. reflexivity.
Qed.

Lemma length_column_of (tarray : ndarray2 F) (j : nat) :
  length (column_of tarray j) = fst (shape tarray).
Proof. unfold column_of. rewrite length_map. reflexivity. Qed.

Lemma nth_column_of (tarray : ndarray2 F) (i j : nat) :
  i < fst (shape tarray) ->
  nth i (column_of tarray j) lit_0 = cell tarray i j.
Proof.
  intro Hi. unfold column_of, cell.
  exact (nth_map_in_range (fun row => nth j row lit_0) [] lit_0
                          (rows tarray) Hi).
Qed.

Lemma length_linear_correction (tintrn T0 T1 : F) (dT0 dT1 : list F) :
  length dT0 = length dT1 ->
  length (linear_correction tintrn T0 T1 dT0 dT1) = length dT0.
Proof. apply length_map2. Qed.

Lemma length_uncorrected_signal (ref sig offset deltaT : list F) :
  length ref = length sig -> length offset = length sig ->
  length deltaT = length sig ->
  length (uncorrected_signal np_log ref sig offset deltaT) = length sig.
Proof.
  intros E1 E2 E3. unfold uncorrected_signal.
  assert (L : length (map np_log (map2 fdiv sig ref)) = length sig).
  { rewrite length_map. apply length_map2. congruence. }
  rewrite length_map2; rewrite length_map2; congruence.
Qed.

(** The four checks, in the order of the code. *)
Lemma opt_pd_calc_ref_sig (ref sig offset : list F) (tintrn : F)
    (tbins : list F) (tarray : ndarray2 F) :
  length ref <> length sig ->
  opt_pd_calc np_log ref sig offset tintrn tbins tarray
  = Raise (ValueError
             ["Reference and Signal arrays must be the same length"%string]).
Proof.
  intro N1. unfold opt_pd_calc. apply Nat.eqb_neq in N1. rewrite N1.
  reflexivity.
Qed.

Lemma opt_pd_calc_offset (ref sig offset : list F) (tintrn : F)
    (tbins : list F) (tarray : ndarray2 F) :
  length ref = length sig -> length offset <> length sig ->
  opt_pd_calc np_log ref sig offset tintrn tbins tarray
  = Raise (ValueError [offsetErrorString (length offset) (length sig)]).
Proof.
  intros E1 N2. unfold opt_pd_calc. apply Nat.eqb_neq in N2.
  rewrite E1, Nat.eqb_refl, N2. reflexivity.
Qed.

Lemma opt_pd_calc_rows (ref sig offset : list F) (tintrn : F)
    (tbins : list F) (tarray : ndarray2 F) :
  length ref = length sig -> length offset = length sig ->
  fst (shape tarray) <> length sig ->
  opt_pd_calc np_log ref sig offset tintrn tbins tarray
  = Raise (ValueError [rErrorString (fst (shape tarray)) (length sig)]).
Proof.
  intros E1 E2 N3. unfold opt_pd_calc. apply Nat.eqb_neq in N3.
  rewrite E1, E2, Nat.eqb_refl. simpl negb. cbv iota.
  destruct (shape tarray) as [r c]. simpl in N3. rewrite N3. reflexivity.
Qed.

Lemma opt_pd_calc_columns (ref sig offset : list F) (tintrn : F)
    (tbins : list F) (tarray : ndarray2 F) :
  length ref = length sig -> length offset = length sig ->
  fst (shape tarray) = length sig ->
  snd (shape tarray) <> length tbins ->
  opt_pd_calc np_log ref sig offset tintrn tbins tarray
  = Raise (ValueError [cErrorString (snd (shape tarray)) (length tbins)]).
Proof.
  intros E1 E2 E3 N4. unfold opt_pd_calc. apply Nat.eqb_neq in N4.
  rewrite E1, E2, Nat.eqb_refl. simpl negb. cbv iota.
  destruct (shape tarray) as [r c]. simpl in E3, N4. subst r.
  rewrite Nat.eqb_refl, N4. reflexivity.
Qed.

Lemma opt_pd_calc_after_checks (ref sig offset : list F) (tintrn : F)
    (tbins : list F) (tarray : ndarray2 F) :
  length ref = length sig -> length offset = length sig ->
  fst (shape tarray) = length sig -> snd (shape tarray) = length tbins ->
  let res := opt_pd_calc np_log ref sig offset tintrn tbins tarray in
  is_ValueError res = false
  /\ (forall e, res = Raise e -> e = IndexError)
  /\ (res = Raise IndexError <-> bracket tbins tintrn = Raise IndexError).
Proof.
  intros E1 E2 E3 E4 res. unfold res.
  destruct (bracket tbins tintrn) as [[[[i1 i2] T0] T1]|e] eqn:Eb.
  - rewrite (opt_pd_calc_ok ref sig offset tintrn tbins tarray
                            E1 E2 E3 E4 Eb).
    split; [reflexivity|]. split; [discriminate|]. split; discriminate.
  - rewrite opt_pd_calc_checked by assumption. rewrite Eb.
    apply bracket_raise_IndexError in Eb. subst e. simpl.
    split; [reflexivity|]. split; [congruence|]. tauto.
Qed.

End OptPdCalcFacts.

(** ** Messages *)

Lemma prefix_append (s q : string) : prefix s (s ++ q) = true.
Proof.
  induction s as [|a s IH]; simpl; [destruct q; reflexivity|].
  destruct (Ascii.ascii_dec a a) as [_|N]; [exact IH | elim N; reflexivity].
Qed.

Lemma occurs_append (s p q : string) : occurs s (p ++ s ++ q) = true.
Proof.
  induction p as [|a p IH].
  - change (occurs s (s ++ q) = true).
    destruct s as [|b s]; [destruct q; reflexivity|].
    change (prefix (String b s) (String b s ++ q) || occurs (String b s) (s ++ q)
            = true).
    rewrite prefix_append. reflexivity.
  - change (prefix s (String a (p ++ s ++ q)) || occurs s (p ++ s ++ q) = true).
    rewrite IH. apply orb_true_r.
Qed.

Lemma occurs_append_r (s p q : string) :
  occurs s q = true -> occurs s (p ++ q) = true.
Proof.
  intro Hq. induction p as [|a p IH]; [exact Hq|].
  change (prefix s (String a (p ++ q)) || occurs s (p ++ q) = true).
  rewrite IH. apply orb_true_r.
Qed.

Lemma offsetErrorString_names (noffset nValues : nat) :
  names (offsetErrorString noffset nValues) noffset = true
  /\ names (offsetErrorString noffset nValues) nValues = true.
Proof.
  unfold names, offsetErrorString. split.
  - apply occurs_append.
  - apply occurs_append_r, occurs_append_r, occurs_append.
Qed.

Lemma rErrorString_names (r nValues : nat) :
  names (rErrorString r nValues) r = true
  /\ names (rErrorString r nValues) nValues = true.
Proof.
  unfold names, rErrorString. split.
  - apply occurs_append.
  - apply occurs_append_r, occurs_append_r, occurs_append.
Qed.

Lemma cErrorString_names (c tValues : nat) :
  names (cErrorString c tValues) c = true
  /\ names (cErrorString c tValues) tValues = true.
Proof.
  unfold names, cErrorString. split.
  - apply occurs_append.
  - apply occurs_append_r, occurs_append_r, occurs_append.
Qed.

(** ** Statements about [opt_pd_calc] *)

(** C1.  When the four shape conditions hold and the internal temperature
    lies strictly inside the bin grid, [opt_pd_calc] returns the pair
    [(pd, deltaT)].  The two bracketing bins are [T0 = tbins[ind1]], where
    [ind1] is the last index of a bin strictly below [tintrn], and
    [T1 = tbins[ind2]], where [ind2] is the first index of a bin strictly
    above it.  For every wavelength channel [i], [deltaT[i]] is the linear
    interpolation [dT0 + ((tintrn - T0)/(T1 - T0)) * (dT1 - dT0)] between
    [dT0 = tarray[i][ind1]] and [dT1 = tarray[i][ind2]], and
    [pd[i] = offset[i] - (1/0.25) * log(sig[i]/ref[i]) - deltaT[i]]. *)
Theorem opt_pd_calc_formula :
  forall (F : Type) (S : Scalar F) (L : OrderLaws F) (np_log : F -> F)
         (ref sig offset : list F) (tintrn : F) (tbins : list F)
         (tarray : ndarray2 F),
    shape_contract ref sig offset tbins tarray ->
    inside_grid tbins tintrn ->
    exists ind1 ind2 T0 T1 pd deltaT,
      (nth_error tbins ind1 = Some T0
       /\ flt T0 tintrn = true
       /\ forall j b, nth_error tbins j = Some b ->
                      flt b tintrn = true -> j <= ind1)
      /\ (nth_error tbins ind2 = Some T1
          /\ flt tintrn T1 = true
          /\ forall j b, nth_error tbins j = Some b ->
                         flt tintrn b = true -> ind2 <= j)
      /\ opt_pd_calc np_log ref sig offset tintrn tbins tarray
         = Ok (pd, deltaT)
      /\ length deltaT = length sig
      /\ length pd = length sig
      /\ forall i, i < length sig ->
           let dT0 := nth ind1 (nth i (rows tarray) []) lit_0 in
           let dT1 := nth ind2 (nth i (rows tarray) []) lit_0 in
           nth i deltaT lit_0
           = fadd dT0 (fmul (fdiv (fsub tintrn T0) (fsub T1 T0))
                            (fsub dT1 dT0))
           /\ nth i pd lit_0
              = fsub (fsub (nth i offset lit_0)
                           (fmul (fdiv lit_1 lit_0_25)
                                 (np_log (fdiv (nth i sig lit_0)
                                               (nth i ref lit_0)))))
                     (nth i deltaT lit_0).
Proof.
  intros F S L np_log ref sig offset tintrn tbins tarray
         (E1 & E2 & E3 & E4 & _) Hin.
  destruct (bracket_inside Hin) as (ind1 & ind2 & T0 & T1 & Eb).
  pose proof (opt_pd_calc_ok np_log ref sig offset tintrn tbins tarray
                             E1 E2 E3 E4 Eb) as Hok.
  cbv zeta in Hok.
  pose proof (bracket_spec tbins tintrn) as Hb. rewrite Eb in Hb.
  destruct Hb as [(Eb0 & Hb0 & Mb0) (Eb1 & Hb1 & Mb1)].
  rewrite flt_sub_lit_0 in Hb0, Hb1.
  set (deltaT := linear_correction tintrn T0 T1 (column_of tarray ind1)
                                   (column_of tarray ind2)) in *.
  assert (Ld : length deltaT = length sig).
  { unfold deltaT. rewrite length_linear_correction;
      rewrite !length_column_of; congruence. }
  exists ind1, ind2, T0, T1,
         (uncorrected_signal np_log ref sig offset deltaT), deltaT.
  split.
  { split; [exact Eb0|]. split; [exact Hb0|]. intros j b Ej Hlt.
    apply (Mb0 j b Ej). rewrite flt_sub_lit_0. exact Hlt. }
  split.
  { split; [exact Eb1|]. split; [exact Hb1|]. intros j b Ej Hlt.
    apply (Mb1 j b Ej). rewrite flt_sub_lit_0. exact Hlt. }
  split; [exact Hok|]. split; [exact Ld|].
  split; [apply length_uncorrected_signal; assumption|].
  intros i Hi. cbv zeta. split.
  - unfold deltaT, linear_correction.
    rewrite (nth_map2 _ lit_0 lit_0)
      by (rewrite length_column_of; congruence).
    rewrite !nth_column_of by congruence. reflexivity.
  - unfold uncorrected_signal.
    assert (Ll : length (map np_log (map2 fdiv sig ref)) = length sig).
    { rewrite length_map. apply length_map2. congruence. }
    rewrite (nth_map2 _ lit_0 lit_0);
      [| rewrite length_map2; congruence | congruence].
    rewrite (nth_map2 _ lit_0 lit_0) by congruence.
    rewrite (nth_map_in_range _ lit_0)
      by (rewrite length_map2; congruence).
    rewrite (nth_map2 _ lit_0 lit_0) by congruence.
    reflexivity.
Qed.

(** C2, as the code has it.  On a grid in ascending order, and for an
    internal temperature strictly inside it, the two searches of
    [opt_pd_calc] select the largest bin strictly below the temperature and
    the smallest bin strictly above it; they never select a bin equal to the
    temperature. *)
Theorem bracket_strict_on_both_sides :
  forall (F : Type) (S : Scalar F) (L : OrderLaws F)
         (tbins : list F) (tintrn : F),
    ascending tbins = true ->
    inside_grid tbins tintrn ->
    exists ind1 ind2 T0 T1,
      bracket tbins tintrn = Ok (ind1, ind2, T0, T1)
      /\ (In T0 tbins /\ flt T0 tintrn = true
          /\ forall b, In b tbins -> flt b tintrn = true -> fle b T0 = true)
      /\ (In T1 tbins /\ flt tintrn T1 = true
          /\ forall b, In b tbins -> flt tintrn b = true -> fle T1 b = true)
      /\ T0 <> tintrn /\ T1 <> tintrn.
Proof.
  intros F S L tbins tintrn Hasc Hin.
  destruct (bracket_inside Hin) as (ind1 & ind2 & T0 & T1 & Eb).
  exists ind1, ind2, T0, T1. split; [exact Eb|].
  pose proof (bracket_spec tbins tintrn) as Hb. rewrite Eb in Hb.
  destruct Hb as [(E0 & H0 & M0) (E1 & H1 & M1)].
  rewrite flt_sub_lit_0 in H0, H1.
  split; [|split; [|split]].
  - split; [eapply nth_error_In; exact E0|]. split; [exact H0|].
    intros b Hb Hlt. apply In_nth_error in Hb. destruct Hb as [j Ej].
    apply (ascending_nth_error tbins (i := j) (j := ind1)); try assumption.
    apply (M0 j b Ej). rewrite flt_sub_lit_0. exact Hlt.
  - split; [eapply nth_error_In; exact E1|]. split; [exact H1|].
    intros b Hb Hlt. apply In_nth_error in Hb. destruct Hb as [j Ej].
    apply (ascending_nth_error tbins (i := ind2) (j := j)); try assumption.
    apply (M1 j b Ej). rewrite flt_sub_lit_0. exact Hlt.
  - intros ->. rewrite (flt_asym _ _ H0) in H0. discriminate.
  - intros ->. rewrite (flt_asym _ _ H1) in H1. discriminate.
Qed.

(** The statement above at two channels and four bins, over the reals with
    the natural logarithm. *)
Lemma opt_pd_calc_formula_witness :
  let ref := [100; 200]%R in
  let sig := [50; 100]%R in
  let offset := [0.1; 0.2]%R in
  let tbins := [10; 15; 20; 25]%R in
  let tarray :=
    mk_ndarray2 4 [[0.01; 0.02; 0.03; 0.04]; [0.05; 0.06; 0.07; 0.08]]%R in
  shape_contract ref sig offset tbins tarray
  /\ inside_grid tbins 17%R
  /\ exists ind1 ind2 T0 T1 pd deltaT,
       nth_error tbins ind1 = Some T0 /\ nth_error tbins ind2 = Some T1
       /\ opt_pd_calc ln ref sig offset 17%R tbins tarray = Ok (pd, deltaT)
       /\ length pd = 2 /\ length deltaT = 2.
Proof.
  intros ref sig offset tbins tarray.
  assert (Hs : shape_contract ref sig offset tbins tarray).
  { repeat split. repeat constructor. }
  assert (Hi : inside_grid tbins 17%R).
  { exists 15%R, 20%R. simpl.
    repeat split; auto; apply Rltb_iff; lra. }
  split; [exact Hs|]. split; [exact Hi|].
  destruct (opt_pd_calc_formula OrderLaws_R ln Hs Hi)
    as (ind1 & ind2 & T0 & T1 & pd & deltaT
        & (E0 & _) & (E1 & _) & E & Ld & Lp & _).
  exists ind1, ind2, T0, T1, pd, deltaT. repeat split; assumption.
Defined.

(** C2, as stated, fails at an interior bin value: for the grid
    [10, 15, 20, 25] and the internal temperature [15] the upper bracketing
    bin is [20], not the bin [15] itself (and the lower one is [10]). *)
Lemma bracket_at_interior_bin_counterexample :
  bracket [10; 15; 20; 25]%float 15%float
  = Ok (0, 2, 10%float, 20%float)
  /\ ~ (exists ind1 ind2 T0,
          bracket [10; 15; 20; 25]%float 15%float
          = Ok (ind1, ind2, T0, 15%float)).
Proof.
  assert (E : bracket [10; 15; 20; 25]%float 15%float
              = Ok (0, 2, 10%float, 20%float)) by (vm_compute; reflexivity).
  split; [exact E|]. intros (ind1 & ind2 & T0 & E'). rewrite E in E'.
  apply (f_equal (fun r => match r with
                           | Ok (_, _, _, T1) => PrimFloat.eqb T1 20%float
                           | Raise _ => false
                           end)) in E'.
  vm_compute in E'. discriminate E'.
Qed.

(** The statement above at the grid [10, 15, 20, 25] and the temperature
    [15], over the rationals. *)
Lemma bracket_strict_on_both_sides_witness :
  let tbins := [Q2Qc 10; Q2Qc 15; Q2Qc 20; Q2Qc 25] in
  ascending tbins = true
  /\ inside_grid tbins (Q2Qc 15)
  /\ exists ind1 ind2 T0 T1,
       bracket tbins (Q2Qc 15) = Ok (ind1, ind2, T0, T1)
       /\ T0 <> Q2Qc 15 /\ T1 <> Q2Qc 15.
Proof.
  intro tbins.
  assert (Ha : ascending tbins = true) by (vm_compute; reflexivity).
  assert (Hi : inside_grid tbins (Q2Qc 15)).
  { exists (Q2Qc 10), (Q2Qc 20). simpl.
    repeat split; auto; vm_compute; reflexivity. }
  split; [exact Ha|]. split; [exact Hi|].
  destruct (bracket_strict_on_both_sides OrderLaws_Qc Ha Hi)
    as (ind1 & ind2 & T0 & T1 & E & _ & _ & N0 & N1).
  exists ind1, ind2, T0, T1. repeat split; assumption.
Defined.

(** C3.  [opt_pd_calc] fails whenever the internal temperature lies outside
    the temperature-bin grid (with the shape conditions met, by an
    [IndexError]) and succeeds for temperatures strictly inside it.  In
    binary64, with the grid [10, 15, 20, 25]: the temperatures [5] and [30]
    fail, and [17] succeeds with, for every channel [i], the correction
    [deltaT[i] = tarray[i][1] + ((17 - 15)/(20 - 15)) * (tarray[i][2] -
    tarray[i][1])] interpolated between the columns of the bins [15] and
    [20], and [pd[i] = offset[i] - (1/0.25) * log(sig[i]/ref[i]) -
    deltaT[i]]. *)
Theorem opt_pd_calc_grid_range :
  (forall (F : Type) (S : Scalar F) (L : OrderLaws F) (np_log : F -> F)
          (ref sig offset : list F) (tintrn : F) (tbins : list F)
          (tarray : ndarray2 F),
      (outside_grid tbins tintrn ->
       is_ok (opt_pd_calc np_log ref sig offset tintrn tbins tarray) = false)
      /\ (shape_contract ref sig offset tbins tarray ->
          outside_grid tbins tintrn ->
          opt_pd_calc np_log ref sig offset tintrn tbins tarray
          = Raise IndexError)
      /\ (shape_contract ref sig offset tbins tarray ->
          inside_grid tbins tintrn ->
          is_ok (opt_pd_calc np_log ref sig offset tintrn tbins tarray)
          = true))
  /\ (forall (np_log : float -> float) (ref sig offset : list float)
             (tarray : ndarray2 float),
        let tbins := [10; 15; 20; 25]%float in
        is_ok (opt_pd_calc np_log ref sig offset 5%float tbins tarray) = false
        /\ is_ok (opt_pd_calc np_log ref sig offset 30%float tbins tarray)
           = false
        /\ (shape_contract ref sig offset tbins tarray ->
            exists pd deltaT,
              opt_pd_calc np_log ref sig offset 17%float tbins tarray
              = Ok (pd, deltaT)
              /\ length deltaT = length sig
              /\ length pd = length sig
              /\ forall i, i < length sig ->
                   let dT0 := nth 1 (nth i (rows tarray) []) 0%float in
                   let dT1 := nth 2 (nth i (rows tarray) []) 0%float in
                   nth i deltaT 0%float
                   = (dT0 + ((17 - 15) / (20 - 15)) * (dT1 - dT0))%float
                   /\ nth i pd 0%float
                      = (nth i offset 0
                         - (1 / 0.25)
                           * np_log (nth i sig 0 / nth i ref 0)
                         - nth i deltaT 0)%float)).
Proof.
  split.
  - intros F S L np_log ref sig offset tintrn tbins tarray.
    split; [|split].
    + intro Hout. apply opt_pd_calc_no_bracket with (e := IndexError).
      apply bracket_outside. exact Hout.
    + intros (E1 & E2 & E3 & E4 & _) Hout.
      rewrite opt_pd_calc_checked by assumption.
      rewrite (bracket_outside Hout). reflexivity.
    + intros (E1 & E2 & E3 & E4 & _) Hin.
      destruct (bracket_inside Hin) as (ind1 & ind2 & T0 & T1 & Eb).
      rewrite (opt_pd_calc_ok np_log ref sig offset tintrn tbins tarray
                              E1 E2 E3 E4 Eb).
      reflexivity.
  - intros np_log ref sig offset tarray tbins. split; [|split].
    + apply opt_pd_calc_no_bracket with (e := IndexError).
      vm_compute. reflexivity.
    + apply opt_pd_calc_no_bracket with (e := IndexError).
      vm_compute. reflexivity.
    + intros (E1 & E2 & E3 & E4 & _).
      assert (Eb : bracket tbins 17%float = Ok (1, 2, 15%float, 20%float))
        by (vm_compute; reflexivity).
      pose proof (opt_pd_calc_ok np_log ref sig offset 17%float tbins tarray
                                 E1 E2 E3 E4 Eb) as Hok.
      cbv zeta in Hok.
      set (deltaT := linear_correction 17%float 15%float 20%float
                                       (column_of tarray 1)
                                       (column_of tarray 2)) in *.
      assert (Ld : length deltaT = length sig).
      { unfold deltaT. rewrite length_linear_correction;
          rewrite !length_column_of; congruence. }
      exists (uncorrected_signal np_log ref sig offset deltaT), deltaT.
      split; [exact Hok|]. split; [exact Ld|].
      split; [apply length_uncorrected_signal; assumption|].
      intros i Hi. cbv zeta. split.
      * unfold deltaT, linear_correction.
        rewrite (nth_map2 _ (lit_0 : float) (lit_0 : float) 0%float)
          by (rewrite length_column_of; congruence).
        rewrite !nth_column_of by congruence. reflexivity.
      * unfold uncorrected_signal.
        assert (Ll : length (map np_log (map2 fdiv sig ref)) = length sig).
        { rewrite length_map. apply length_map2. congruence. }
        rewrite (nth_map2 _ (lit_0 : float) (lit_0 : float) 0%float);
          [| rewrite length_map2; congruence | congruence].
        rewrite (nth_map2 _ (lit_0 : float) (lit_0 : float) 0%float)
          by congruence.
        rewrite (nth_map_in_range _ (lit_0 : float))
          by (rewrite length_map2; congruence).
        rewrite (nth_map2 _ (lit_0 : float) (lit_0 : float) (lit_0 : float))
          by congruence.
        reflexivity.
Qed.

(** The general part of the statement above at the temperatures [5], [30]
    and [17], over the reals with the natural logarithm. *)
Lemma opt_pd_calc_grid_range_witness :
  let ref := [100; 200]%R in
  let sig := [50; 100]%R in
  let offset := [0.1; 0.2]%R in
  let tbins := [10; 15; 20; 25]%R in
  let tarray :=
    mk_ndarray2 4 [[0.01; 0.02; 0.03; 0.04]; [0.05; 0.06; 0.07; 0.08]]%R in
  shape_contract ref sig offset tbins tarray
  /\ (outside_grid tbins 5%R
      /\ opt_pd_calc ln ref sig offset 5%R tbins tarray = Raise IndexError)
  /\ (outside_grid tbins 30%R
      /\ opt_pd_calc ln ref sig offset 30%R tbins tarray = Raise IndexError)
  /\ (inside_grid tbins 17%R
      /\ is_ok (opt_pd_calc ln ref sig offset 17%R tbins tarray) = true).
Proof.
  intros ref sig offset tbins tarray.
  assert (Hs : shape_contract ref sig offset tbins tarray).
  { repeat split. repeat constructor. }
  assert (Hlo : outside_grid tbins 5%R).
  { left. intros b Hb. simpl in Hb.
    repeat (destruct Hb as [<-|Hb]; [apply Rltb_iff; lra|]). destruct Hb. }
  assert (Hhi : outside_grid tbins 30%R).
  { right. intros b Hb. simpl in Hb.
    repeat (destruct Hb as [<-|Hb]; [apply Rltb_iff; lra|]). destruct Hb. }
  assert (Hin : inside_grid tbins 17%R).
  { exists 15%R, 20%R. simpl.
    repeat split; auto; apply Rltb_iff; lra. }
  pose proof (proj1 opt_pd_calc_grid_range R Scalar_R OrderLaws_R ln) as T.
  split; [exact Hs|]. split; [|split].
  - split; [exact Hlo|].
    exact (proj1 (proj2 (T ref sig offset 5%R tbins tarray)) Hs Hlo).
  - split; [exact Hhi|].
    exact (proj1 (proj2 (T ref sig offset 30%R tbins tarray)) Hs Hhi).
  - split; [exact Hin|].
    exact (proj2 (proj2 (T ref sig offset 17%R tbins tarray)) Hs Hin).
Defined.

(** C4, as stated, fails twice.  With reference length 4 and signal length
    3 the error message is a fixed text that names neither length; and with
    all four shape conditions met [opt_pd_calc] still raises an error
    ([IndexError]) when the internal temperature is outside the bin grid. *)
Lemma opt_pd_calc_errors_counterexample :
  (exists msg,
     opt_pd_calc ln [1; 2; 3; 4]%R [1; 2; 3]%R [0; 0; 0]%R 17%R
                 [10; 15; 20; 25]%R (mk_ndarray2 4 [])
     = Raise (ValueError [msg])
     /\ names msg 4 = false /\ names msg 3 = false)
  /\ (let ref := [100; 200]%R in
      let sig := [50; 100]%R in
      let offset := [0.1; 0.2]%R in
      let tbins := [10; 15; 20; 25]%R in
      let tarray :=
        mk_ndarray2 4 [[0.01; 0.02; 0.03; 0.04]; [0.05; 0.06; 0.07; 0.08]]%R
      in
      length ref = length sig /\ length offset = length sig
      /\ fst (shape tarray) = length sig /\ snd (shape tarray) = length tbins
      /\ opt_pd_calc ln ref sig offset 5%R tbins tarray = Raise IndexError).
Proof.
  split.
  - eexists. split; [reflexivity|]. split; vm_compute; reflexivity.
  - repeat split.
    rewrite opt_pd_calc_checked by reflexivity.
    rewrite (bracket_outside (F := R)); [reflexivity|].
    left. intros b Hb. simpl in Hb.
    repeat (destruct Hb as [<-|Hb]; [apply Rltb_iff; lra|]). destruct Hb.
Qed.

(** C4, as the code has it.  [opt_pd_calc] raises a [ValueError] if and only
    if one of the four shape conditions is violated.  The conditions are
    checked in order: the message for reference and signal is a fixed text,
    the message for the offsets names the offset length and the common
    signal and reference length, and the two messages for the correction
    table name both counts.  With the four conditions met the only error
    is the [IndexError] of the bracket search, raised exactly when no bin
    has [tbins - tintrn < 0] or no bin has [tintrn - tbins < 0]. *)
Theorem opt_pd_calc_errors :
  forall (F : Type) (S : Scalar F) (np_log : F -> F)
         (ref sig offset : list F) (tintrn : F) (tbins : list F)
         (tarray : ndarray2 F),
    let res := opt_pd_calc np_log ref sig offset tintrn tbins tarray in
    let nValues := length sig in
    let r := fst (shape tarray) in
    let c := snd (shape tarray) in
    let tValues := length tbins in
    (is_ValueError res = true
     <-> (length ref <> nValues \/ length offset <> nValues
          \/ r <> nValues \/ c <> tValues))
    /\ (length ref <> nValues ->
        res = Raise (ValueError
                ["Reference and Signal arrays must be the same length"%string]))
    /\ (length ref = nValues -> length offset <> nValues ->
        exists msg, res = Raise (ValueError [msg])
                    /\ names msg (length offset) = true
                    /\ names msg nValues = true)
    /\ (length ref = nValues -> length offset = nValues -> r <> nValues ->
        exists msg, res = Raise (ValueError [msg])
                    /\ names msg r = true /\ names msg nValues = true)
    /\ (length ref = nValues -> length offset = nValues -> r = nValues ->
        c <> tValues ->
        exists msg, res = Raise (ValueError [msg])
                    /\ names msg c = true /\ names msg tValues = true)
    /\ (length ref = nValues -> length offset = nValues -> r = nValues ->
        c = tValues ->
        (forall e, res = Raise e -> e = IndexError)
        /\ (res = Raise IndexError
            <-> ((forall b, In b tbins -> flt (fsub b tintrn) lit_0 = false)
                 \/ (forall b, In b tbins ->
                               flt (fsub tintrn b) lit_0 = false)))).
Proof.
  intros F S np_log ref sig offset tintrn tbins tarray. cbv zeta.
  set (res := opt_pd_calc np_log ref sig offset tintrn tbins tarray).
  destruct (Nat.eq_dec (length ref) (length sig)) as [E1|N1].
  2:{ assert (E : res = Raise (ValueError
        ["Reference and Signal arrays must be the same length"%string]))
        by (apply opt_pd_calc_ref_sig; exact N1).
      rewrite E. simpl.
      split; [tauto|]. split; [reflexivity|].
      repeat split; intros; contradiction. }
  destruct (Nat.eq_dec (length offset) (length sig)) as [E2|N2].
  2:{ assert (E : res = Raise (ValueError
        [offsetErrorString (length offset) (length sig)]))
        by (apply opt_pd_calc_offset; assumption).
      rewrite E. simpl.
      split; [tauto|]. split; [contradiction|].
      split; [intros _ _; eexists; split;
              [reflexivity | apply offsetErrorString_names]|].
      repeat split; intros; contradiction. }
  destruct (Nat.eq_dec (fst (shape tarray)) (length sig)) as [E3|N3].
  2:{ assert (E : res = Raise (ValueError
        [rErrorString (fst (shape tarray)) (length sig)]))
        by (apply opt_pd_calc_rows; assumption).
      rewrite E. simpl.
      split; [tauto|]. split; [contradiction|]. split; [contradiction|].
      split; [intros _ _ _; eexists; split;
              [reflexivity | apply rErrorString_names]|].
      repeat split; intros; contradiction. }
  destruct (Nat.eq_dec (snd (shape tarray)) (length tbins)) as [E4|N4].
  2:{ assert (E : res = Raise (ValueError
        [cErrorString (snd (shape tarray)) (length tbins)]))
        by (apply opt_pd_calc_columns; assumption).
      rewrite E. simpl.
      split; [tauto|]. split; [contradiction|]. split; [contradiction|].
      split; [contradiction|].
      split; [intros _ _ _ _; eexists; split;
              [reflexivity | apply cErrorString_names]|].
      intros; contradiction. }
  destruct (opt_pd_calc_after_checks np_log ref sig offset tintrn tbins
                                     tarray E1 E2 E3 E4) as (HV & HI & HB).
  fold res in HV, HI, HB.
  split; [rewrite HV; split; [discriminate | tauto]|].
  split; [contradiction|]. split; [contradiction|].
  split; [contradiction|]. split; [contradiction|].
  intros _ _ _ _. split; [exact HI|].
  rewrite HB. apply bracket_raise_iff.
Qed.

(** The statement above at reference length 4 against signal length 3, and
    at offset length 2 against signal and reference length 3. *)
Lemma opt_pd_calc_errors_witness :
  (length [1; 2; 3; 4]%R <> length [1; 2; 3]%R
   /\ opt_pd_calc ln [1; 2; 3; 4]%R [1; 2; 3]%R [0; 0; 0]%R 17%R
                  [10; 15; 20; 25]%R (mk_ndarray2 4 [])
      = Raise (ValueError
                 ["Reference and Signal arrays must be the same length"%string]))
  /\ (length [0; 0]%R <> length [1; 2; 3]%R
      /\ exists msg,
           opt_pd_calc ln [1; 2; 3]%R [1; 2; 3]%R [0; 0]%R 17%R
                       [10; 15; 20; 25]%R (mk_ndarray2 4 [])
           = Raise (ValueError [msg])
           /\ names msg 2 = true /\ names msg 3 = true).
Proof.
  assert (N1 : length [1; 2; 3; 4]%R <> length [1; 2; 3]%R)
    by (simpl; lia).
  assert (N2 : length [0; 0]%R <> length [1; 2; 3]%R) by (simpl; lia).
  split.
  - split; [exact N1|].
    exact (proj1 (proj2 (opt_pd_calc_errors Scalar_R ln [1; 2; 3; 4]%R [1; 2; 3]%R
                           [0; 0; 0]%R 17%R [10; 15; 20; 25]%R
                           (mk_ndarray2 4 []))) N1).
  - split; [exact N2|].
    exact (proj1 (proj2 (proj2 (opt_pd_calc_errors Scalar_R ln [1; 2; 3]%R [1; 2; 3]%R
                           [0; 0]%R 17%R [10; 15; 20; 25]%R
                           (mk_ndarray2 4 [])))) eq_refl N2).
Defined.

(** ** Temperature and salinity correction: [opt_tempsal_corr] *)

Section TempSalFacts.

Context {F : Type} `{Scalar F}.
Variable tscor : F -> option (F * F * F).

(** The dictionary lookups succeed together, row by row, or the first
    missing wavelength raises [KeyError]. *)
Lemma lookup_tscor_spec (wlngth : list F) :
  match lookup_tscor tscor wlngth with
  | Ok np_tscor => Forall2 (fun w row => tscor w = Some row) wlngth np_tscor
  | Raise e => e = KeyError /\ exists w, In w wlngth /\ tscor w = None
  end.
Proof.
  induction wlngth as [|w wlngth IH]; simpl; [constructor|].
  destruct (tscor w) as [row|] eqn:Ew.
  - destruct (lookup_tscor tscor wlngth) as [np_tscor|e]; simpl.
    + constructor; assumption.
    + destruct IH as (He & w' & Hw' & Ew'). split; [exact He|].
      exists w'. split; [right; exact Hw' | exact Ew'].
  - split; [reflexivity|]. exists w. split; [left; reflexivity | exact Ew].
Qed.

Lemma tscor_column_ok (k : F * F * F -> F) (np_tscor : list (F * F * F)) :
  np_tscor <> [] -> tscor_column k np_tscor = Ok (map k np_tscor).
Proof. destruct np_tscor; [congruence | reflexivity]. Qed.

Lemma length_tempsal_formula (pd : list F) (dT PS : F)
    (col_T col_S : list F) :
  length col_T = length pd -> length col_S = length pd ->
  length (tempsal_formula pd dT PS col_T col_S) = length pd.
Proof.
  intros E1 E2. unfold tempsal_formula.
  assert (L1 : length (map2 (fun p t => fsub p (fmul dT t)) pd col_T)
               = length pd) by (apply length_map2; congruence).
  rewrite length_map2; [exact L1 | rewrite L1, length_map; congruence].
Qed.

Lemma nth_tempsal_formula (pd : list F) (dT PS : F) (col_T col_S : list F)
    (i : nat) :
  length col_T = length pd -> length col_S = length pd -> i < length pd ->
  nth i (tempsal_formula pd dT PS col_T col_S) lit_0
  = fsub (fsub (nth i pd lit_0) (fmul dT (nth i col_T lit_0)))
         (fmul PS (nth i col_S lit_0)).
Proof.
  intros E1 E2 Hi. unfold tempsal_formula.
  rewrite (nth_map2 _ lit_0 lit_0);
    [| rewrite length_map2; congruence | rewrite length_map; congruence].
  rewrite (nth_map2 _ lit_0 lit_0) by congruence.
  rewrite (nth_map_in_range _ lit_0) by congruence. reflexivity.
Qed.

(** The result of [opt_tempsal_corr] once the lengths agree and the lookups
    have produced a non-empty table. *)
Lemma opt_tempsal_corr_ok (channel : string) (pd wlngth : list F)
    (tcal T PS : F) (np_tscor : list (F * F * F)) :
  length pd = length wlngth ->
  lookup_tscor tscor wlngth = Ok np_tscor -> np_tscor <> [] ->
  opt_tempsal_corr tscor channel pd wlngth tcal T PS
  = if String.eqb channel "a" then
      Ok (tempsal_formula pd (fsub T tcal) PS (map tscor_0 np_tscor)
                          (map tscor_2 np_tscor))
    else if String.eqb channel "c" then
      Ok (tempsal_formula pd (fsub T tcal) PS (map tscor_0 np_tscor)
                          (map tscor_1 np_tscor))
    else Raise (ValueError [channelErrorString]).
Proof.
  intros E El Hne. unfold opt_tempsal_corr.
  rewrite E, Nat.eqb_refl, El. simpl.
  rewrite !tscor_column_ok by exact Hne. reflexivity.
Qed.

Lemma Forall2_nth (A B : Type) (R : A -> B -> Prop) (da : A) (db : B)
    (xs : list A) (ys : list B) :
  Forall2 R xs ys -> forall i, i < length xs -> R (nth i xs da) (nth i ys db).
Proof.
  induction 1 as [|x y xs ys Hxy _ IH]; intros i Hi; simpl in *; [lia|].
  destruct i as [|i]; [exact Hxy | apply IH; lia].
Qed.

Lemma Forall2_In_left (A B : Type) (R : A -> B -> Prop)
    (xs : list A) (ys : list B) :
  Forall2 R xs ys -> forall x, In x xs -> exists y, R x y.
Proof.
  induction 1 as [|x y xs ys Hxy _ IH]; intros x' Hx'; [destruct Hx'|].
  destruct Hx' as [<-|Hx']; [exists y; exact Hxy | apply IH; exact Hx'].
Qed.

End TempSalFacts.

(** C5, as stated, fails on empty arrays: the table read for no wavelength
    is a one-dimensional array, and taking its column raises [IndexError]. *)
Lemma opt_tempsal_corr_empty_counterexample :
  let tscor := fun w : float =>
    if PrimFloat.eqb w 400%float
    then Some (0.0001%float, 0.00002%float, 0.00003%float) else None in
  length (@nil float) = length (@nil float)
  /\ (forall w, In w (@nil float) -> tscor w <> None)
  /\ opt_tempsal_corr tscor "a" [] [] 20%float 10%float 35%float
     = Raise IndexError.
Proof.
  intro tscor. split; [reflexivity|]. split; [intros w []|reflexivity].
Qed.

(** C5, as the code has it.  For non-empty coefficient and wavelength arrays
    of one length, a channel ['a'] or ['c'] and wavelengths that are all
    keys of the table, the result is, per wavelength,
    [pd - (T - tcal) * temp_coef - PS * sal_coef], where the table row of the
    wavelength is [(temp_coef, sal_coef_c, sal_coef_a)] and [sal_coef] is
    [sal_coef_a] for channel ['a'] and [sal_coef_c] for channel ['c']. *)
Theorem opt_tempsal_corr_formula :
  forall (F : Type) (S : Scalar F) (tscor : F -> option (F * F * F))
         (channel : string) (pd wlngth : list F) (tcal T PS : F),
    length pd = length wlngth ->
    wlngth <> [] ->
    channel = "a"%string \/ channel = "c"%string ->
    (forall w, In w wlngth -> tscor w <> None) ->
    exists pd_ts,
      opt_tempsal_corr tscor channel pd wlngth tcal T PS = Ok pd_ts
      /\ length pd_ts = length pd
      /\ forall i, i < length pd ->
           exists temp_coef sal_coef_c sal_coef_a,
             tscor (nth i wlngth lit_0)
             = Some (temp_coef, sal_coef_c, sal_coef_a)
             /\ nth i pd_ts lit_0
                = fsub (fsub (nth i pd lit_0) (fmul (fsub T tcal) temp_coef))
                       (fmul PS (if String.eqb channel "a"
                                 then sal_coef_a else sal_coef_c)).
Proof.
  intros F S tscor channel pd wlngth tcal T PS E Hne Hch Hall.
  pose proof (lookup_tscor_spec tscor wlngth) as Hl.
  destruct (lookup_tscor tscor wlngth) as [np_tscor|e] eqn:El.
  2:{ destruct Hl as (_ & w & Hw & Ew). elim (Hall w Hw Ew). }
  assert (Ln : length wlngth = length np_tscor)
    by (eapply Forall2_length; exact Hl).
  assert (Hne' : np_tscor <> []).
  { intros ->. destruct wlngth; [congruence | discriminate]. }
  pose proof (@opt_tempsal_corr_ok F S tscor channel pd wlngth tcal T PS
                                   np_tscor E El Hne') as Hok.
  assert (Hrow : forall i, i < length pd ->
            tscor (nth i wlngth lit_0)
            = Some (nth i np_tscor (lit_0, lit_0, lit_0))).
  { intros i Hi.
    apply (@Forall2_nth _ _ _ lit_0 (lit_0, lit_0, lit_0) _ _ Hl).
    congruence. }
  destruct Hch as [-> | ->]; simpl in Hok; rewrite Hok; eexists;
    (split; [reflexivity|]);
    (split; [apply length_tempsal_formula; rewrite length_map; congruence|]);
    intros i Hi;
    destruct (nth i np_tscor (lit_0, lit_0, lit_0)) as [[tc sc] sa] eqn:En;
    exists tc, sc, sa; (split; [rewrite Hrow, En by exact Hi; reflexivity|]);
    rewrite nth_tempsal_formula
      by (try (rewrite length_map; congruence); exact Hi);
    rewrite !(nth_map_in_range _ (lit_0, lit_0, lit_0)) by congruence;
    rewrite En; reflexivity.
Qed.

(** The statement above at two wavelengths of a two-row table, in
    binary64. *)
Lemma opt_tempsal_corr_formula_witness :
  let tscor := fun w : float =>
    if PrimFloat.eqb w 400%float
    then Some (0.0001%float, 0.00002%float, 0.00003%float)
    else if PrimFloat.eqb w 403.7%float
    then Some (0.0002%float, 0.00004%float, 0.00006%float) else None in
  let pd := [0.5; 0.6]%float in
  let wlngth := [400; 403.7]%float in
  length pd = length wlngth
  /\ wlngth <> []
  /\ (forall w, In w wlngth -> tscor w <> None)
  /\ exists pd_ts,
       opt_tempsal_corr tscor "c" pd wlngth 20%float 12%float 35%float
       = Ok pd_ts
       /\ length pd_ts = 2.
Proof.
  intros tscor pd wlngth.
  assert (E : length pd = length wlngth) by reflexivity.
  assert (Hne : wlngth <> []) by discriminate.
  assert (Hall : forall w, In w wlngth -> tscor w <> None).
  { intros w [<-|[<-|[]]]; vm_compute; discriminate. }
  split; [exact E|]. split; [exact Hne|]. split; [exact Hall|].
  destruct (@opt_tempsal_corr_formula float Scalar_float tscor "c"
              pd wlngth 20%float 12%float 35%float E Hne
              (or_intror eq_refl) Hall) as (pd_ts & Ep & Lp & _).
  exists pd_ts. split; [exact Ep | exact Lp].
Defined.

(** C6, as stated, fails on empty arrays: the lengths agree, the channel is
    ['a'] and no wavelength is missing from the table, and the call still
    raises an error. *)
Lemma opt_tempsal_corr_fails_counterexample :
  let tscor := fun w : float =>
    if PrimFloat.eqb w 400%float
    then Some (0.0001%float, 0.00002%float, 0.00003%float) else None in
  ~ (is_ok (opt_tempsal_corr tscor "a" [] [] 20%float 10%float 35%float)
     = false
     <-> (length (@nil float) <> length (@nil float)
          \/ ("a"%string <> "a"%string /\ "a"%string <> "c"%string)
          \/ exists w, In w (@nil float) /\ tscor w = None)).
Proof.
  intros tscor [Hfail _]. specialize (Hfail eq_refl).
  destruct Hfail as [N | [[N _] | (w & [] & _)]]; apply N; reflexivity.
Qed.

(** C6, as the code has it.  [opt_tempsal_corr] fails if and only if the
    coefficient and wavelength arrays differ in length, or the channel is
    neither ['a'] nor ['c'], or some wavelength is not a key of the table,
    or the arrays are empty.  The length mismatch raises its [ValueError];
    with equal lengths a missing wavelength raises [KeyError]; with equal
    lengths and every wavelength in the table an unrecognised channel
    raises the invalid-channel [ValueError]. *)
Theorem opt_tempsal_corr_fails_iff :
  forall (F : Type) (S : Scalar F) (tscor : F -> option (F * F * F))
         (channel : string) (pd wlngth : list F) (tcal T PS : F),
    let res := opt_tempsal_corr tscor channel pd wlngth tcal T PS in
    (is_ok res = false
     <-> (length pd <> length wlngth
          \/ (channel <> "a"%string /\ channel <> "c"%string)
          \/ (exists w, In w wlngth /\ tscor w = None)
          \/ wlngth = []))
    /\ (length pd <> length wlngth ->
        res = Raise (ValueError
                ["pd and wavelength arrays must be the same length"%string]))
    /\ (length pd = length wlngth ->
        (exists w, In w wlngth /\ tscor w = None) ->
        res = Raise KeyError)
    /\ (length pd = length wlngth ->
        (forall w, In w wlngth -> tscor w <> None) ->
        channel <> "a"%string -> channel <> "c"%string ->
        res = Raise (ValueError [channelErrorString])).
Proof.
  intros F S tscor channel pd wlngth tcal T PS. cbv zeta.
  set (res := opt_tempsal_corr tscor channel pd wlngth tcal T PS).
  destruct (Nat.eq_dec (length pd) (length wlngth)) as [E|N].
  2:{ assert (Er : res = Raise (ValueError
        ["pd and wavelength arrays must be the same length"%string])).
      { unfold res, opt_tempsal_corr. apply Nat.eqb_neq in N. rewrite N.
        reflexivity. }
      rewrite Er. simpl. split; [tauto|]. split; [reflexivity|].
      split; intros; contradiction. }
  pose proof (lookup_tscor_spec tscor wlngth) as Hl.
  destruct (lookup_tscor tscor wlngth) as [np_tscor|e] eqn:El.
  2:{ destruct Hl as (-> & w & Hw & Ew).
      assert (Er : res = Raise KeyError).
      { unfold res, opt_tempsal_corr. rewrite E, Nat.eqb_refl, El.
        reflexivity. }
      rewrite Er. simpl. split; [split; [intros _|reflexivity]|].
      - right. right. left. exists w. tauto.
      - split; [contradiction|]. split; [reflexivity|].
        intros _ Hall. elim (Hall w Hw Ew). }
  assert (Hall : forall w, In w wlngth -> tscor w <> None).
  { intros w Hw. destruct (Forall2_In_left Hl w Hw) as (row & ->).
    discriminate. }
  assert (Ln : length wlngth = length np_tscor)
    by (eapply Forall2_length; exact Hl).
  split; [|split; [contradiction|split]].
  - destruct np_tscor as [|row np_tscor].
    + assert (Ew : wlngth = []) by (destruct wlngth; [reflexivity | discriminate]).
      assert (Er : is_ok res = false).
      { unfold res, opt_tempsal_corr. rewrite E, Nat.eqb_refl, El. simpl.
        destruct (String.eqb channel "a"); [reflexivity|].
        destruct (String.eqb channel "c"); reflexivity. }
      rewrite Er. split; [intros _|reflexivity]. tauto.
    + assert (Hne : row :: np_tscor <> []) by discriminate.
      unfold res.
      rewrite (@opt_tempsal_corr_ok F S tscor channel pd wlngth tcal T PS
                                    _ E El Hne).
      destruct (String.eqb_spec channel "a") as [->|Na].
      { simpl. split; [discriminate|].
        intros [N | [[N _] | [(w & Hw & Ew) | Ew]]];
          [contradiction | elim N; reflexivity | elim (Hall w Hw Ew)|].
        subst wlngth. discriminate. }
      destruct (String.eqb_spec channel "c") as [->|Nc].
      { simpl. split; [discriminate|].
        intros [N | [[_ N] | [(w & Hw & Ew) | Ew]]];
          [contradiction | elim N; reflexivity | elim (Hall w Hw Ew)|].
        subst wlngth. discriminate. }
      simpl. split; [intros _|reflexivity]. tauto.
  - intros _ (w & Hw & Ew). elim (Hall w Hw Ew).
  - intros _ _ Na Nc. unfold res, opt_tempsal_corr.
    rewrite E, Nat.eqb_refl, El. simpl.
    apply String.eqb_neq in Na, Nc. rewrite Na, Nc. reflexivity.
Qed.

(** The statement above at the channel ['x'], and at arrays of lengths 1
    and 2, in binary64. *)
Lemma opt_tempsal_corr_fails_iff_witness :
  let tscor := fun w : float =>
    if PrimFloat.eqb w 400%float
    then Some (0.0001%float, 0.00002%float, 0.00003%float)
    else if PrimFloat.eqb w 403.7%float
    then Some (0.0002%float, 0.00004%float, 0.00006%float) else None in
  let pd := [0.5; 0.6]%float in
  let wlngth := [400; 403.7]%float in
  (length pd = length wlngth
   /\ (forall w, In w wlngth -> tscor w <> None)
   /\ "x"%string <> "a"%string /\ "x"%string <> "c"%string
   /\ opt_tempsal_corr tscor "x" pd wlngth 20%float 12%float 35%float
      = Raise (ValueError [channelErrorString]))
  /\ (length [0.5%float] <> length wlngth
      /\ is_ok (opt_tempsal_corr tscor "c" [0.5%float] wlngth
                                 20%float 12%float 35%float) = false).
Proof.
  intros tscor pd wlngth.
  assert (E : length pd = length wlngth) by reflexivity.
  assert (Hall : forall w, In w wlngth -> tscor w <> None).
  { intros w [<-|[<-|[]]]; vm_compute; discriminate. }
  assert (Na : "x"%string <> "a"%string) by discriminate.
  assert (Nc : "x"%string <> "c"%string) by discriminate.
  assert (N : length [0.5%float] <> length wlngth) by (simpl; lia).
  split.
  - split; [exact E|]. split; [exact Hall|]. split; [exact Na|].
    split; [exact Nc|].
    exact (proj2 (proj2 (proj2
             (@opt_tempsal_corr_fails_iff float Scalar_float tscor "x" pd
                wlngth 20%float 12%float 35%float))) E Hall Na Nc).
  - split; [exact N|].
    apply (proj1 (@opt_tempsal_corr_fails_iff float Scalar_float tscor "c"
                    [0.5%float] wlngth 20%float 12%float 35%float)).
    left. exact N.
Defined.

(** ** Scattering correction: [opt_scatter_corr] *)

Section ScatterFacts.

Context {F : Type} `{Scalar F}.

Lemma argmin_from_lt (a : list F) : forall best ibest i,
  ibest < i -> argmin_from best ibest i a < i + length a.
Proof.
  induction a as [|x a IH]; intros best ibest i Hi; simpl; [lia|].
  destruct (flt x best).
  - specialize (IH x i (S i)). lia.
  - specialize (IH best ibest (S i)). lia.
Qed.

Lemma argmin_ok (a : list F) :
  a <> [] -> exists idx, argmin a = Ok idx /\ idx < length a.
Proof.
  destruct a as [|x a]; [congruence|]. intros _. simpl.
  eexists. split; [reflexivity|].
  pose proof (@argmin_from_lt a x 0 1). lia.
Qed.

Lemma np_interp_ok (x xp fp : list F) :
  xp <> [] -> length fp = length xp ->
  exists cintrp, np_interp x xp fp = Ok cintrp /\ length cintrp = length x.
Proof.
  destruct xp as [|x0 xp]; [congruence|]. intros _ E.
  destruct fp as [|y0 fp]; [discriminate|]. simpl in *.
  injection E as E. rewrite <- E, Nat.eqb_refl.
  eexists. split; [reflexivity | apply length_map].
Qed.

Lemma getitem_ok (A : Type) (d : A) (a : list A) (i : nat) :
  i < length a -> getitem a i = Ok (nth i a d).
Proof.
  intro Hi. unfold getitem. rewrite (nth_error_nth' a d Hi). reflexivity.
Qed.

(** The steps of [opt_scatter_corr] on non-empty arrays of matching
    lengths: none of them raises, and the result is the elementwise
    correction with the ratio of the two reference values. *)
Lemma opt_scatter_corr_steps (apd_ts awlngth cpd_ts cwlngth : list F)
    (rwlngth : F) :
  length apd_ts = length awlngth -> length cpd_ts = length cwlngth ->
  awlngth <> [] -> cwlngth <> [] ->
  exists idx cintrp,
    argmin (map (fun w => fabs (fsub w rwlngth)) awlngth) = Ok idx
    /\ idx < length awlngth
    /\ getitem apd_ts idx = Ok (nth idx apd_ts lit_0)
    /\ np_interp awlngth cwlngth cpd_ts = Ok cintrp
    /\ length cintrp = length awlngth
    /\ getitem cintrp idx = Ok (nth idx cintrp lit_0)
    /\ opt_scatter_corr apd_ts awlngth cpd_ts cwlngth rwlngth
       = Ok (map2 (fun a c =>
                     fsub a (fmul (scat_ratio_of (nth idx apd_ts lit_0)
                                                 (nth idx cintrp lit_0))
                                  (fsub c a)))
                  apd_ts cintrp).
Proof.
  intros Ea Ec Na Nc.
  destruct (@argmin_ok (map (fun w => fabs (fsub w rwlngth)) awlngth))
    as (idx & Ei & Li).
  { destruct awlngth; [congruence | discriminate]. }
  rewrite length_map in Li.
  destruct (@np_interp_ok awlngth cwlngth cpd_ts Nc Ec) as (cintrp & En & Ln).
  exists idx, cintrp.
  assert (Ga : getitem apd_ts idx = Ok (nth idx apd_ts lit_0))
    by (apply getitem_ok; congruence).
  assert (Gc : getitem cintrp idx = Ok (nth idx cintrp lit_0))
    by (apply getitem_ok; congruence).
  repeat (split; [assumption|]).
  unfold opt_scatter_corr.
  rewrite Ea, Ec, !Nat.eqb_refl. simpl negb. cbv iota.
  rewrite Ei. simpl. rewrite Ga. simpl. rewrite En. simpl. rewrite Gc.
  reflexivity.
Qed.

Lemma nth_scatter_formula (ratio : F) (apd_ts cintrp : list F) (i : nat) :
  length cintrp = length apd_ts -> i < length apd_ts ->
  nth i (map2 (fun a c => fsub a (fmul ratio (fsub c a))) apd_ts cintrp) lit_0
  = fsub (nth i apd_ts lit_0)
         (fmul ratio (fsub (nth i cintrp lit_0) (nth i apd_ts lit_0))).
Proof.
  intros E Hi. rewrite (nth_map2 _ lit_0 lit_0) by congruence. reflexivity.
Qed.

End ScatterFacts.

Section ScatterOrderFacts.

Context {F : Type} `{Scalar F} `{!OrderLaws F}.

Lemma flt_fle (x y : F) : flt x y = true -> fle x y = true.
Proof. intro E. apply fle_total. apply flt_asym. exact E. Qed.

Lemma fle_not_flt (x y : F) : fle x y = true -> flt y x = false.
Proof.
  intro E. destruct (flt y x) eqn:El; [|reflexivity].
  rewrite (flt_not_fle _ _ El) in E. discriminate.
Qed.

(** [argmin] returns an index of a least element. *)
Lemma argmin_from_min (l : list F) : forall pre best ibest,
  ibest < length pre -> nth ibest pre lit_0 = best ->
  (forall j, j < length pre -> fle best (nth j pre lit_0) = true) ->
  forall j, j < length (pre ++ l) ->
    fle (nth (argmin_from best ibest (length pre) l) (pre ++ l) lit_0)
        (nth j (pre ++ l) lit_0) = true.
Proof.
  induction l as [|x l IH]; intros pre best ibest Hi Eb Hmin j Hj.
  - simpl. rewrite app_nil_r in *. rewrite Eb. apply Hmin. exact Hj.
  - assert (Lp : length (pre ++ [x]) = S (length pre))
      by (rewrite length_app; simpl; lia).
    change (x :: l) with ([x] ++ l) in *. rewrite app_assoc in *.
    simpl argmin_from. rewrite <- Lp. destruct (flt x best) eqn:Ex.
    + replace (length pre) with (length (pre ++ [x]) - 1) at 1 by lia.
      rewrite Lp at 1. simpl Nat.sub. rewrite Nat.sub_0_r.
      apply IH; try assumption; [lia | apply nth_middle |].
      intros j' Hj'. rewrite Lp in Hj'.
      destruct (Nat.eq_dec j' (length pre)) as [->|Nj].
      * rewrite nth_middle. apply fle_refl.
      * rewrite app_nth1 by lia. apply flt_fle.
        apply flt_fle_trans with best; [exact Ex | apply Hmin; lia].
    + apply IH; try assumption; [lia | rewrite app_nth1 by lia; exact Eb |].
      intros j' Hj'. rewrite Lp in Hj'.
      destruct (Nat.eq_dec j' (length pre)) as [->|Nj].
      * rewrite nth_middle. apply fle_total. exact Ex.
      * rewrite app_nth1 by lia. apply Hmin. lia.
Qed.

Lemma argmin_min (a : list F) (idx : nat) :
  argmin a = Ok idx ->
  forall j, j < length a -> fle (nth idx a lit_0) (nth j a lit_0) = true.
Proof.
  destruct a as [|x a]; [discriminate|]. simpl argmin. intros E j Hj.
  injection E as <-.
  apply (@argmin_from_min a [x] x 0); simpl; try lia; try reflexivity.
  - intros [|j'] Hj'; [apply fle_refl | lia].
  - simpl in Hj. exact Hj.
Qed.

(** [argmin] returns the first index of a least element: every earlier
    element is strictly greater. *)
Lemma argmin_from_first (l : list F) : forall pre best ibest,
  ibest < length pre -> nth ibest pre lit_0 = best ->
  (forall j, j < length pre -> fle best (nth j pre lit_0) = true) ->
  (forall j, j < ibest -> flt best (nth j pre lit_0) = true) ->
  forall j, j < argmin_from best ibest (length pre) l ->
    flt (nth (argmin_from best ibest (length pre) l) (pre ++ l) lit_0)
        (nth j (pre ++ l) lit_0) = true.
Proof.
  induction l as [|x l IH]; intros pre best ibest Hi Eb Hmin Hfirst j Hj.
  - simpl in *. rewrite app_nil_r. rewrite Eb. apply Hfirst. exact Hj.
  - assert (Lp : length (pre ++ [x]) = S (length pre))
      by (rewrite length_app; simpl; lia).
    assert (Ea : pre ++ x :: l = (pre ++ [x]) ++ l)
      by (rewrite <- app_assoc; reflexivity).
    rewrite Ea. simpl argmin_from in Hj |- *. rewrite <- Lp in Hj |- *.
    destruct (flt x best) eqn:Ex.
    + assert (Hx : nth (length pre) (pre ++ [x]) lit_0 = x)
        by apply nth_middle.
      apply (IH (pre ++ [x]) x (length pre)).
      * lia.
      * exact Hx.
      * intros j' Hj'. rewrite Lp in Hj'.
        destruct (Nat.eq_dec j' (length pre)) as [->|Nj].
        -- rewrite Hx. apply fle_refl.
        -- rewrite app_nth1 by lia. apply flt_fle.
           apply flt_fle_trans with best; [exact Ex | apply Hmin; lia].
      * intros j' Hj'. rewrite app_nth1 by lia.
        apply flt_fle_trans with best; [exact Ex | apply Hmin; lia].
      * exact Hj.
    + apply (IH (pre ++ [x]) best ibest).
      * lia.
      * rewrite app_nth1 by lia. exact Eb.
      * intros j' Hj'. rewrite Lp in Hj'.
        destruct (Nat.eq_dec j' (length pre)) as [->|Nj].
        -- rewrite nth_middle. apply fle_total. exact Ex.
        -- rewrite app_nth1 by lia. apply Hmin. lia.
      * intros j' Hj'. rewrite app_nth1 by lia. apply Hfirst. exact Hj'.
      * exact Hj.
Qed.

Lemma argmin_first (a : list F) (idx : nat) :
  argmin a = Ok idx ->
  forall j, j < idx -> flt (nth idx a lit_0) (nth j a lit_0) = true.
Proof.
  destruct a as [|x a]; [discriminate|]. simpl argmin. intros E j Hj.
  injection E as <-.
  apply (@argmin_from_first a [x] x 0); simpl; try lia; try reflexivity.
  intros [|j'] Hj'; [apply fle_refl | lia].
Qed.

(** Between two nodes of an ascending grid [np.interp] is the line through
    the two nodes. *)
Lemma interp_search_between (x : F) : forall k x0 y0 xp fp,
  length xp = length fp -> ascending (x0 :: xp) = true ->
  S k < length (x0 :: xp) ->
  fle (nth k (x0 :: xp) lit_0) x = true ->
  flt x (nth (S k) (x0 :: xp) lit_0) = true ->
  interp_search x x0 y0 (combine xp fp)
  = fadd (fmul (fdiv (fsub (nth (S k) (y0 :: fp) lit_0)
                           (nth k (y0 :: fp) lit_0))
                     (fsub (nth (S k) (x0 :: xp) lit_0)
                           (nth k (x0 :: xp) lit_0)))
               (fsub x (nth k (x0 :: xp) lit_0)))
         (nth k (y0 :: fp) lit_0).
Proof.
  induction k as [|k IH]; intros x0 y0 xp fp E Hasc Hk Hlo Hhi;
    destruct xp as [|x1 xp]; destruct fp as [|y1 fp];
    try discriminate; try (simpl in Hk; lia).
  - simpl in *. rewrite Hhi. reflexivity.
  - simpl combine. simpl interp_search.
    assert (Hx1 : flt x x1 = false).
    { apply fle_not_flt. apply fle_trans with (nth k (x1 :: xp) lit_0).
      - apply (@ascending_nth_error F _ _ (x1 :: xp) 0 k);
          [eapply ascending_tail; exact Hasc | lia | reflexivity |].
        apply nth_error_nth'. simpl in Hk. simpl. lia.
      - exact Hlo. }
    rewrite Hx1.
    apply (IH x1 y1 xp fp);
      [simpl in E; lia | eapply ascending_tail; exact Hasc
       | simpl in Hk |- *; lia | exact Hlo | exact Hhi].
Qed.

Lemma interp_at_between (x x0 y0 : F) (xp fp : list F) (k : nat) :
  length xp = length fp -> ascending (x0 :: xp) = true ->
  S k < length (x0 :: xp) ->
  fle (nth k (x0 :: xp) lit_0) x = true ->
  flt x (nth (S k) (x0 :: xp) lit_0) = true ->
  interp_at x0 y0 (combine xp fp) x
  = fadd (fmul (fdiv (fsub (nth (S k) (y0 :: fp) lit_0)
                           (nth k (y0 :: fp) lit_0))
                     (fsub (nth (S k) (x0 :: xp) lit_0)
                           (nth k (x0 :: xp) lit_0)))
               (fsub x (nth k (x0 :: xp) lit_0)))
         (nth k (y0 :: fp) lit_0).
Proof.
  intros E Hasc Hk Hlo Hhi. unfold interp_at.
  assert (Hx0 : flt x x0 = false).
  { apply fle_not_flt. apply fle_trans with (nth k (x0 :: xp) lit_0).
    - apply (@ascending_nth_error F _ _ (x0 :: xp) 0 k);
        [exact Hasc | lia | reflexivity |].
      apply nth_error_nth'. lia.
    - exact Hlo. }
  rewrite Hx0. apply interp_search_between; assumption.
Qed.

Lemma np_interp_between (x xp fp cintrp : list F) (i k : nat) :
  np_interp x xp fp = Ok cintrp -> ascending xp = true ->
  i < length x -> S k < length xp ->
  fle (nth k xp lit_0) (nth i x lit_0) = true ->
  flt (nth i x lit_0) (nth (S k) xp lit_0) = true ->
  nth i cintrp lit_0
  = fadd (fmul (fdiv (fsub (nth (S k) fp lit_0) (nth k fp lit_0))
                     (fsub (nth (S k) xp lit_0) (nth k xp lit_0)))
               (fsub (nth i x lit_0) (nth k xp lit_0)))
         (nth k fp lit_0).
Proof.
  intros E Hasc Hi Hk Hlo Hhi. unfold np_interp in E.
  destruct xp as [|x0 xp]; [discriminate|].
  destruct fp as [|y0 fp]; [discriminate|].
  destruct (Nat.eqb_spec (length xp) (length fp)) as [El|]; [|discriminate].
  injection E as <-.
  rewrite (nth_map_in_range _ lit_0) by exact Hi.
  apply interp_at_between; assumption.
Qed.

End ScatterOrderFacts.

(** In exact arithmetic a zero ratio leaves the absorption unchanged. *)
Lemma scatter_zero_ratio_unchanged (F : Type) (S : Scalar F)
    (L : ExactLaws F) (apd_ts : list F) : forall cintrp,
  length cintrp = length apd_ts ->
  map2 (fun a c => fsub a (fmul lit_0 (fsub c a))) apd_ts cintrp = apd_ts.
Proof.
  induction apd_ts as [|a apd_ts IH]; intros [|c cintrp] El;
    try discriminate; [reflexivity|].
  simpl. rewrite fmul_lit_0_l, fsub_lit_0_r. f_equal. apply IH.
  simpl in El. lia.
Qed.

(** C7, as the code has it.  On non-empty arrays of matching lengths, let
    [aref] be the absorption at the reference index [idx] and [cref] the
    interpolated attenuation at the same index.  When [aref <= 0], or the
    leakage [cref - aref] is [<= 0.02], the scattering ratio is zero and
    every output entry is [apd_ts[i] - 0 * (cintrp[i] - apd_ts[i])]; in
    exact arithmetic the output is the absorption input unchanged. *)
Theorem opt_scatter_corr_suppressed :
  forall (F : Type) (S : Scalar F)
         (apd_ts awlngth cpd_ts cwlngth : list F) (rwlngth : F),
    length apd_ts = length awlngth -> length cpd_ts = length cwlngth ->
    awlngth <> [] -> cwlngth <> [] ->
    exists idx cintrp,
      argmin (map (fun w => fabs (fsub w rwlngth)) awlngth) = Ok idx
      /\ idx < length awlngth
      /\ np_interp awlngth cwlngth cpd_ts = Ok cintrp
      /\ length cintrp = length awlngth
      /\ let aref := nth idx apd_ts lit_0 in
         let cref := nth idx cintrp lit_0 in
         (fle aref lit_0 = true \/ fle (fsub cref aref) lit_0_02 = true ->
          scat_ratio_of aref cref = lit_0
          /\ exists apd_ts_s,
               opt_scatter_corr apd_ts awlngth cpd_ts cwlngth rwlngth
               = Ok apd_ts_s
               /\ length apd_ts_s = length apd_ts
               /\ (forall i, i < length apd_ts ->
                     nth i apd_ts_s lit_0
                     = fsub (nth i apd_ts lit_0)
                            (fmul lit_0
                                  (fsub (nth i cintrp lit_0)
                                        (nth i apd_ts lit_0))))
               /\ (ExactLaws F -> apd_ts_s = apd_ts)).
Proof.
  intros F S apd_ts awlngth cpd_ts cwlngth rwlngth Ea Ec Na Nc.
  destruct (opt_scatter_corr_steps apd_ts cpd_ts rwlngth Ea Ec Na Nc)
    as (idx & cintrp & Ei & Li & Ga & En & Ln & Gc & Er).
  exists idx, cintrp.
  repeat (split; [assumption|]).
  cbv zeta. intro Hs.
  assert (Hr : scat_ratio_of (nth idx apd_ts lit_0) (nth idx cintrp lit_0)
               = lit_0).
  { unfold scat_ratio_of. destruct Hs as [Hs|Hs]; rewrite Hs.
    - reflexivity.
    - destruct (fle (nth idx apd_ts lit_0) lit_0); reflexivity. }
  split; [exact Hr|]. rewrite Er, Hr. eexists. split; [reflexivity|].
  split; [apply length_map2; congruence|]. split.
  - intros i Hi. apply nth_scatter_formula; congruence.
  - intro L. apply scatter_zero_ratio_unchanged; [exact L | congruence].
Qed.

(** The statement above at [aref = 0.01] and [cref = 0.015], over the
    rationals. *)
Lemma opt_scatter_corr_suppressed_witness :
  let apd_ts := [Q2Qc (1 # 100)] in
  let awlngth := [Q2Qc 715] in
  let cpd_ts := [Q2Qc (15 # 1000)] in
  let cwlngth := [Q2Qc 715] in
  length apd_ts = length awlngth /\ length cpd_ts = length cwlngth
  /\ awlngth <> [] /\ cwlngth <> []
  /\ fle (fsub (Q2Qc (15 # 1000)) (Q2Qc (1 # 100))) lit_0_02 = true
  /\ opt_scatter_corr apd_ts awlngth cpd_ts cwlngth (Q2Qc 715) = Ok apd_ts.
Proof.
  intros apd_ts awlngth cpd_ts cwlngth.
  assert (Ea : length apd_ts = length awlngth) by reflexivity.
  assert (Ec : length cpd_ts = length cwlngth) by reflexivity.
  assert (Na : awlngth <> []) by discriminate.
  assert (Nc : cwlngth <> []) by discriminate.
  assert (Hl : fle (fsub (Q2Qc (15 # 1000)) (Q2Qc (1 # 100))) lit_0_02
               = true) by (vm_compute; reflexivity).
  repeat (split; [assumption|]).
  destruct (@opt_scatter_corr_suppressed Qc Scalar_Qc apd_ts
              awlngth cpd_ts cwlngth (Q2Qc 715) Ea Ec Na Nc)
    as (idx & cintrp & Ei & Li & En & Ln & Hs).
  vm_compute in Ei. injection Ei as <-.
  vm_compute in En. injection En as <-.
  cbv zeta in Hs.
  destruct Hs as (_ & apd_ts_s & Er & _ & _ & Hx).
  { right. vm_compute. reflexivity. }
  rewrite Er. f_equal. exact (Hx ExactLaws_Qc).
Defined.

(** C7, as stated, fails in the binary64 arithmetic of the code, where
    [0 * x] is not always [0].  With the reference wavelength [715],
    [aref = 0.01] and [cref = 0.015] the leakage is below the threshold and
    the ratio is zero, yet the second output entry is NaN instead of the
    input: once because the interpolated attenuation there is NaN, and once,
    on finite data, because [cintrp - apd_ts] overflows to infinity. *)
Lemma opt_scatter_corr_suppressed_counterexample :
  (let apd_ts := [0.01; 0.02]%float in
   let awlngth := [715; 725]%float in
   let cpd_ts := [0.015; 0.2; nan]%float in
   let cwlngth := [715; 720; 725]%float in
   length apd_ts = length awlngth /\ length cpd_ts = length cwlngth
   /\ argmin (map (fun w => fabs (fsub w 715%float)) awlngth) = Ok 0
   /\ np_interp awlngth cwlngth cpd_ts = Ok [0.015; nan]%float
   /\ fle (fsub 0.015 0.01)%float lit_0_02 = true
   /\ scat_ratio_of 0.01%float 0.015%float = 0%float
   /\ opt_scatter_corr apd_ts awlngth cpd_ts cwlngth 715%float
      = Ok [0.01; nan]%float
   /\ opt_scatter_corr apd_ts awlngth cpd_ts cwlngth 715%float
      <> Ok apd_ts)
  /\ (let apd_ts := [0.01; -1e308]%float in
      let awlngth := [715; 725]%float in
      let cpd_ts := [0.015; 1e308]%float in
      let cwlngth := [715; 725]%float in
      length apd_ts = length awlngth /\ length cpd_ts = length cwlngth
      /\ argmin (map (fun w => fabs (fsub w 715%float)) awlngth) = Ok 0
      /\ np_interp awlngth cwlngth cpd_ts = Ok [0.015; 1e308]%float
      /\ fle (fsub 0.015 0.01)%float lit_0_02 = true
      /\ scat_ratio_of 0.01%float 0.015%float = 0%float
      /\ opt_scatter_corr apd_ts awlngth cpd_ts cwlngth 715%float
         = Ok [0.01; nan]%float
      /\ opt_scatter_corr apd_ts awlngth cpd_ts cwlngth 715%float
         <> Ok apd_ts).
Proof.
  split; intros apd_ts awlngth cpd_ts cwlngth.
  - assert (E : opt_scatter_corr apd_ts awlngth cpd_ts cwlngth 715%float
                = Ok [0.01; nan]%float) by (vm_compute; reflexivity).
    repeat (split; [vm_compute; reflexivity|]).
    intro E'. rewrite E in E'.
    apply (f_equal (fun r => match r with
                             | Ok l => PrimFloat.eqb (nth 1 l 0%float)
                                                     0.02%float
                             | Raise _ => true
                             end)) in E'.
    vm_compute in E'. discriminate E'.
  - assert (E : opt_scatter_corr apd_ts awlngth cpd_ts cwlngth 715%float
                = Ok [0.01; nan]%float) by (vm_compute; reflexivity).
    repeat (split; [vm_compute; reflexivity|]).
    intro E'. rewrite E in E'.
    apply (f_equal (fun r => match r with
                             | Ok l => PrimFloat.eqb (nth 1 l 0%float)
                                                     (-1e308)%float
                             | Raise _ => true
                             end)) in E'.
    vm_compute in E'. discriminate E'.
Qed.

(** The first example of the specification, in binary64: with
    [aref = 0.01] and [cref = 0.015] the leakage is below the threshold and
    the absorption is returned unchanged. *)
Example opt_scatter_corr_suppressed_binary64 :
  opt_scatter_corr [0.01]%float [715]%float [0.015]%float [715]%float
                   715%float
  = Ok [0.01]%float.
Proof. vm_compute. reflexivity. Qed.

(** C8.  On non-empty arrays of matching lengths, let [aref] be the
    absorption at the reference index [idx] and [cref] the interpolated
    attenuation at the same index.  With the usual order laws, [idx] is the
    first index of an absorption wavelength closest to the reference
    wavelength, and the attenuation coefficients are interpolated linearly
    onto the absorption wavelengths (between two nodes of an ascending
    attenuation grid, on the line through the two nodes).  When neither
    test of the code suppresses the correction (under the order laws: when
    [aref > 0] and [cref - aref > 0.02]) the ratio is
    [aref / (cref - aref)] and the output is
    [apd_ts - ratio * (cintrp - apd_ts)], elementwise. *)
Theorem opt_scatter_corr_applied :
  forall (F : Type) (Sc : Scalar F)
         (apd_ts awlngth cpd_ts cwlngth : list F) (rwlngth : F),
    length apd_ts = length awlngth -> length cpd_ts = length cwlngth ->
    awlngth <> [] -> cwlngth <> [] ->
    exists idx cintrp,
      argmin (map (fun w => fabs (fsub w rwlngth)) awlngth) = Ok idx
      /\ idx < length awlngth
      /\ np_interp awlngth cwlngth cpd_ts = Ok cintrp
      /\ length cintrp = length awlngth
      /\ (OrderLaws F ->
          (forall j, j < length awlngth ->
             fle (fabs (fsub (nth idx awlngth lit_0) rwlngth))
                 (fabs (fsub (nth j awlngth lit_0) rwlngth)) = true)
          /\ (forall j, j < idx ->
                flt (fabs (fsub (nth idx awlngth lit_0) rwlngth))
                    (fabs (fsub (nth j awlngth lit_0) rwlngth)) = true)
          /\ (ascending cwlngth = true ->
              forall i k, i < length awlngth -> S k < length cwlngth ->
                fle (nth k cwlngth lit_0) (nth i awlngth lit_0) = true ->
                flt (nth i awlngth lit_0) (nth (S k) cwlngth lit_0) = true ->
                nth i cintrp lit_0
                = fadd (fmul (fdiv (fsub (nth (S k) cpd_ts lit_0)
                                         (nth k cpd_ts lit_0))
                                   (fsub (nth (S k) cwlngth lit_0)
                                         (nth k cwlngth lit_0)))
                             (fsub (nth i awlngth lit_0)
                                   (nth k cwlngth lit_0)))
                       (nth k cpd_ts lit_0)))
      /\ let aref := nth idx apd_ts lit_0 in
         let cref := nth idx cintrp lit_0 in
         ((fle aref lit_0 = false /\ fle (fsub cref aref) lit_0_02 = false)
          \/ (OrderLaws F /\ flt lit_0 aref = true
              /\ flt lit_0_02 (fsub cref aref) = true) ->
          scat_ratio_of aref cref = fdiv aref (fsub cref aref)
          /\ exists apd_ts_s,
               opt_scatter_corr apd_ts awlngth cpd_ts cwlngth rwlngth
               = Ok apd_ts_s
               /\ length apd_ts_s = length apd_ts
               /\ forall i, i < length apd_ts ->
                    nth i apd_ts_s lit_0
                    = fsub (nth i apd_ts lit_0)
                           (fmul (fdiv aref (fsub cref aref))
                                 (fsub (nth i cintrp lit_0)
                                       (nth i apd_ts lit_0)))).
Proof.
  intros F Sc apd_ts awlngth cpd_ts cwlngth rwlngth Ea Ec Na Nc.
  destruct (opt_scatter_corr_steps apd_ts cpd_ts rwlngth Ea Ec Na Nc)
    as (idx & cintrp & Ei & Li & Ga & En & Ln & Gc & Er).
  exists idx, cintrp.
  repeat (split; [assumption|]).
  split.
  - intro L. split; [|split].
    + intros j Hj.
      pose proof (argmin_min _ Ei) as Hmin.
      rewrite length_map in Hmin. specialize (Hmin j Hj).
      rewrite !(nth_map_in_range _ lit_0) in Hmin by assumption.
      exact Hmin.
    + intros j Hj.
      pose proof (argmin_first _ Ei Hj) as Hfst.
      rewrite !(nth_map_in_range _ lit_0) in Hfst by lia.
      exact Hfst.
    + intros Hasc i k Hi Hk Hlo Hhi.
      apply (np_interp_between _ _ _ En Hasc Hi Hk Hlo Hhi).
  - cbv zeta. intro Hc.
    assert (Hn : fle (nth idx apd_ts lit_0) lit_0 = false
                 /\ fle (fsub (nth idx cintrp lit_0) (nth idx apd_ts lit_0))
                        lit_0_02 = false).
    { destruct Hc as [Hc | (L & Hpos & Hleak)]; [exact Hc|].
      split; apply flt_not_fle; assumption. }
    destruct Hn as (Hn1 & Hn2).
    assert (Hr : scat_ratio_of (nth idx apd_ts lit_0) (nth idx cintrp lit_0)
                 = fdiv (nth idx apd_ts lit_0)
                        (fsub (nth idx cintrp lit_0) (nth idx apd_ts lit_0))).
    { unfold scat_ratio_of. rewrite Hn1, Hn2. reflexivity. }
    split; [exact Hr|]. rewrite Er, Hr. eexists. split; [reflexivity|].
    split; [apply length_map2; congruence|].
    intros i Hi. apply nth_scatter_formula; congruence.
Qed.

(** The statement above at three absorption wavelengths with
    [aref = 0.05] and [cref = 0.10], over the rationals. *)
Lemma opt_scatter_corr_applied_witness :
  let apd_ts := [Q2Qc (30 # 100); Q2Qc (5 # 100); Q2Qc (20 # 100)] in
  let awlngth := [Q2Qc 700; Q2Qc 715; Q2Qc 730] in
  let cpd_ts := [Q2Qc (50 # 100); Q2Qc (10 # 100); Q2Qc (60 # 100)] in
  let cwlngth := [Q2Qc 690; Q2Qc 715; Q2Qc 740] in
  length apd_ts = length awlngth /\ length cpd_ts = length cwlngth
  /\ awlngth <> [] /\ cwlngth <> []
  /\ flt lit_0 (Q2Qc (5 # 100)) = true
  /\ flt lit_0_02 (fsub (Q2Qc (10 # 100)) (Q2Qc (5 # 100))) = true
  /\ exists apd_ts_s,
       opt_scatter_corr apd_ts awlngth cpd_ts cwlngth (Q2Qc 715)
       = Ok apd_ts_s
       /\ length apd_ts_s = 3.
Proof.
  intros apd_ts awlngth cpd_ts cwlngth.
  assert (Ea : length apd_ts = length awlngth) by reflexivity.
  assert (Ec : length cpd_ts = length cwlngth) by reflexivity.
  assert (Na : awlngth <> []) by discriminate.
  assert (Nc : cwlngth <> []) by discriminate.
  assert (Hpos : flt lit_0 (Q2Qc (5 # 100)) = true)
    by (vm_compute; reflexivity).
  assert (Hleak : flt lit_0_02 (fsub (Q2Qc (10 # 100)) (Q2Qc (5 # 100)))
                  = true) by (vm_compute; reflexivity).
  repeat (split; [assumption|]).
  destruct (@opt_scatter_corr_applied Qc Scalar_Qc apd_ts
              awlngth cpd_ts cwlngth (Q2Qc 715) Ea Ec Na Nc)
    as (idx & cintrp & Ei & Li & En & Ln & _ & Hs).
  vm_compute in Ei. injection Ei as <-.
  unfold np_interp in En. simpl in En. injection En as <-.
  cbv zeta in Hs.
  destruct Hs as (_ & apd_ts_s & Er & Lr & _).
  { right. split; [exact OrderLaws_Qc|]. split.
    - exact Hpos.
    - replace (nth 1 (map (interp_at (Q2Qc 690) (Q2Qc (50 # 100))
                             (combine [Q2Qc 715; Q2Qc 740]
                                      [Q2Qc (10 # 100); Q2Qc (60 # 100)]))
                          awlngth) lit_0)
        with (Q2Qc (10 # 100))
        by (apply Qc_is_canon; vm_compute; reflexivity).
      exact Hleak. }
  exists apd_ts_s. split; [exact Er | exact Lr].
Defined.

(** The second example of the specification, in binary64: with
    [aref = 0.05] and [cref = 0.10] the ratio is [1.0], and the corrected
    value at the reference index is [aref - 1.0 * (cref - aref)]. *)
Example opt_scatter_corr_applied_binary64 :
  scat_ratio_of 0.05%float 0.1%float = 1%float
  /\ opt_scatter_corr [0.3; 0.05; 0.2]%float [700; 715; 730]%float
                      [0.5; 0.1; 0.6]%float [690; 715; 740]%float 715%float
     = Ok [0.26000000000000001; 0.05 - 1 * (0.1 - 0.05); 0]%float.
Proof. split; vm_compute; reflexivity. Qed.

(** C10, as stated, fails in binary64: with [aref = 0.01] and
    [cref = 1.17] the correction is applied, and the corrected absorption at
    the reference index is [-0x1p-59], about [-1.7e-18], not zero. *)
Lemma opt_scatter_corr_reference_counterexample :
  let aref := 0.01%float in
  let cref := 1.17%float in
  flt lit_0 aref = true
  /\ flt lit_0_02 (fsub cref aref) = true
  /\ scat_ratio_of aref cref = fdiv aref (fsub cref aref)
  /\ opt_scatter_corr [aref] [715%float] [cref] [715%float] 715%float
     = Ok [(-0x1p-59)%float]
  /\ PrimFloat.eqb (-0x1p-59)%float 0%float = false.
Proof. repeat split; vm_compute; reflexivity. Qed.

(** C10, in exact arithmetic.  When the scattering correction is applied
    (neither [aref <= 0] nor [cref - aref <= 0.02]), the corrected
    absorption at the reference index is
    [aref - (aref / (cref - aref)) * (cref - aref)], which is zero in every
    arithmetic with the field laws (the rationals, the reals). *)
Theorem opt_scatter_corr_reference_zero :
  forall (F : Type) (S : Scalar F) (L : ExactLaws F)
         (apd_ts awlngth cpd_ts cwlngth : list F) (rwlngth : F),
    length apd_ts = length awlngth -> length cpd_ts = length cwlngth ->
    awlngth <> [] -> cwlngth <> [] ->
    exists idx aref cintrp cref,
      argmin (map (fun w => fabs (fsub w rwlngth)) awlngth) = Ok idx
      /\ getitem apd_ts idx = Ok aref
      /\ np_interp awlngth cwlngth cpd_ts = Ok cintrp
      /\ getitem cintrp idx = Ok cref
      /\ (fle aref lit_0 = false -> fle (fsub cref aref) lit_0_02 = false ->
          exists apd_ts_s,
            opt_scatter_corr apd_ts awlngth cpd_ts cwlngth rwlngth
            = Ok apd_ts_s
            /\ nth idx apd_ts_s lit_0
               = fsub aref (fmul (fdiv aref (fsub cref aref))
                                 (fsub cref aref))
            /\ nth idx apd_ts_s lit_0 = lit_0).
Proof.
  intros F S L apd_ts awlngth cpd_ts cwlngth rwlngth Ea Ec Na Nc.
  destruct (opt_scatter_corr_steps apd_ts cpd_ts rwlngth Ea Ec Na Nc)
    as (idx & cintrp & Ei & Li & Ga & En & Ln & Gc & Er).
  exists idx, (nth idx apd_ts lit_0), cintrp, (nth idx cintrp lit_0).
  repeat (split; [assumption|]).
  intros Hpos Hleak. rewrite Er. eexists. split; [reflexivity|].
  rewrite nth_scatter_formula by congruence.
  unfold scat_ratio_of. rewrite Hpos, Hleak.
  split; [reflexivity|].
  rewrite fdiv_fmul; [apply fsub_diag|].
  intro Ez. rewrite Ez, fle_lit_0_0_02 in Hleak. discriminate.
Qed.

(** The statement above at [aref = 0.01] and [cref = 1.17], over the
    rationals, where the value at the reference index is zero. *)
Lemma opt_scatter_corr_reference_zero_witness :
  let apd_ts := [Q2Qc (1 # 100)] in
  let awlngth := [Q2Qc 715] in
  let cpd_ts := [Q2Qc (117 # 100)] in
  let cwlngth := [Q2Qc 715] in
  length apd_ts = length awlngth /\ length cpd_ts = length cwlngth
  /\ awlngth <> [] /\ cwlngth <> []
  /\ fle (Q2Qc (1 # 100)) lit_0 = false
  /\ fle (fsub (Q2Qc (117 # 100)) (Q2Qc (1 # 100))) lit_0_02 = false
  /\ exists apd_ts_s,
       opt_scatter_corr apd_ts awlngth cpd_ts cwlngth (Q2Qc 715)
       = Ok apd_ts_s
       /\ nth 0 apd_ts_s lit_0 = lit_0.
Proof.
  intros apd_ts awlngth cpd_ts cwlngth.
  assert (Ea : length apd_ts = length awlngth) by reflexivity.
  assert (Ec : length cpd_ts = length cwlngth) by reflexivity.
  assert (Na : awlngth <> []) by discriminate.
  assert (Nc : cwlngth <> []) by discriminate.
  assert (Hpos : fle (Q2Qc (1 # 100)) lit_0 = false)
    by (vm_compute; reflexivity).
  assert (Hleak : fle (fsub (Q2Qc (117 # 100)) (Q2Qc (1 # 100))) lit_0_02
                  = false) by (vm_compute; reflexivity).
  repeat (split; [assumption|]).
  destruct (@opt_scatter_corr_reference_zero Qc Scalar_Qc ExactLaws_Qc apd_ts
              awlngth cpd_ts cwlngth (Q2Qc 715) Ea Ec Na Nc)
    as (idx & aref & cintrp & cref & Ei & Ga & En & Gc & Hs).
  vm_compute in Ei. injection Ei as <-.
  unfold getitem in Ga. simpl in Ga. injection Ga as <-.
  unfold np_interp in En. simpl in En. injection En as <-.
  unfold getitem in Gc. simpl in Gc. injection Gc as <-.
  assert (Ec' : interp_at (Q2Qc 715) (Q2Qc (117 # 100)) [] (Q2Qc 715)
                = Q2Qc (117 # 100)) by reflexivity.
  rewrite Ec' in Hs.
  destruct (Hs Hpos Hleak) as (apd_ts_s & Er & _ & Ez).
  exists apd_ts_s. split; [exact Er | exact Ez].
Defined.

(** ** OCR-507 irradiance: [opt_ocr507_irradiance] *)

Lemma shape_eqb_eq (s t : nat * nat) : shape_eqb s t = true <-> s = t.
Proof.
  destruct s as [r c], t as [r' c']. unfold shape_eqb. simpl.
  rewrite andb_true_iff, !Nat.eqb_eq. split.
  - intros [-> ->]. reflexivity.
  - intro E. injection E as -> ->. split; reflexivity.
Qed.

Section IrradianceFacts.

Context {F : Type} `{Scalar F}.

Lemma wf2_row (a : ndarray2 F) (i : nat) :
  wf2 a -> i < fst (shape a) -> length (nth i (rows a) []) = ncols a.
Proof.
  intros Hwf Hi. unfold wf2 in Hwf. rewrite Forall_forall in Hwf.
  apply Hwf. apply nth_In. exact Hi.
Qed.

Lemma shape_map_2d (f : F -> F) (a : ndarray2 F) :
  shape (map_2d f a) = shape a.
Proof. unfold shape, map_2d. simpl. rewrite length_map. reflexivity. Qed.

Lemma wf2_map_2d (f : F -> F) (a : ndarray2 F) :
  wf2 a -> wf2 (map_2d f a).
Proof.
  unfold wf2, map_2d. simpl. intro Hwf. apply Forall_map.
  eapply Forall_impl; [|exact Hwf]. intros row E. simpl.
  rewrite length_map. exact E.
Qed.

Lemma cell_map_2d (f : F -> F) (a : ndarray2 F) (i j : nat) :
  wf2 a -> i < fst (shape a) -> j < snd (shape a) ->
  cell (map_2d f a) i j = f (cell a i j).
Proof.
  intros Hwf Hi Hj. unfold cell, map_2d. simpl rows.
  rewrite (nth_map_in_range (map f) [] [] (rows a) Hi).
  apply nth_map_in_range. rewrite wf2_row by assumption. exact Hj.
Qed.

Lemma shape_map2_2d (f : F -> F -> F) (a b : ndarray2 F) :
  shape a = shape b -> shape (map2_2d f a b) = shape a.
Proof.
  unfold shape, map2_2d. simpl. intro E. injection E as Er Ec.
  rewrite length_map2 by exact Er. reflexivity.
Qed.

Lemma wf2_map2_2d (f : F -> F -> F) (a b : ndarray2 F) :
  wf2 a -> wf2 b -> shape a = shape b -> wf2 (map2_2d f a b).
Proof.
  unfold wf2, shape, map2_2d. simpl. intros Ha Hb E.
  injection E as _ Ec. rewrite <- Ec in Hb. clear Ec.
  revert Ha Hb. generalize (ncols a) as n, (rows b) as rb.
  induction (rows a) as [|ra rsa IH]; intros n [|rb rsb] Ha Hb; simpl;
    try constructor.
  - inversion Ha; inversion Hb; subst. apply length_map2. congruence.
  - inversion Ha; inversion Hb; subst. apply IH; assumption.
Qed.

Lemma cell_map2_2d (f : F -> F -> F) (a b : ndarray2 F) (i j : nat) :
  wf2 a -> wf2 b -> shape a = shape b ->
  i < fst (shape a) -> j < snd (shape a) ->
  cell (map2_2d f a b) i j = f (cell a i j) (cell b i j).
Proof.
  intros Ha Hb E Hi Hj. unfold cell, map2_2d. simpl rows.
  assert (Hi' : i < fst (shape b)) by (rewrite <- E; exact Hi).
  rewrite (nth_map2 (map2 f) [] [] [] (rows a) (rows b) Hi Hi').
  apply nth_map2.
  - rewrite wf2_row by assumption. exact Hj.
  - rewrite wf2_row by assumption. rewrite E in Hj. exact Hj.
Qed.

End IrradianceFacts.

(** C9.  [opt_ocr507_irradiance] fails if and only if the number of columns
    of [counts] differs from 7 or the shapes of the four arrays disagree
    (so 6 or 8 columns fail); otherwise it returns the array [Ed] of the
    same shape with
    [Ed = (counts*1.0 - offset) * scale * immersion_factor] elementwise,
    which is [(counts - offset) * scale * immersion_factor] as multiplying
    by [1.0] changes no value. *)
Theorem opt_ocr507_irradiance_spec :
  forall (F : Type) (Sc : Scalar F)
         (counts offset scale immersion_factor : ndarray2 F),
    let res := opt_ocr507_irradiance counts offset scale immersion_factor in
    (is_ok res = false
     <-> (snd (shape counts) <> 7
          \/ ~ (shape counts = shape offset /\ shape offset = shape scale
                /\ shape scale = shape immersion_factor)))
    /\ (snd (shape counts) = 6 \/ snd (shape counts) = 8 ->
        is_ok res = false)
    /\ (snd (shape counts) = 7 ->
        shape counts = shape offset -> shape offset = shape scale ->
        shape scale = shape immersion_factor ->
        wf2 counts -> wf2 offset -> wf2 scale -> wf2 immersion_factor ->
        exists Ed,
          res = Ok Ed /\ shape Ed = shape counts
          /\ forall i j, i < fst (shape counts) -> j < 7 ->
               cell Ed i j
               = fmul (fmul (fsub (fmul (cell counts i j) lit_1)
                                  (cell offset i j))
                            (cell scale i j))
                      (cell immersion_factor i j)
               /\ ((forall x : F, fmul x lit_1 = x) ->
                   cell Ed i j
                   = fmul (fmul (fsub (cell counts i j) (cell offset i j))
                                (cell scale i j))
                          (cell immersion_factor i j))).
Proof.
  intros F Sc counts offset scale immersion_factor. cbv zeta.
  unfold opt_ocr507_irradiance. rewrite shape_map_2d.
  assert (Hiff : is_ok
            (if negb (snd (shape counts) =? 7)
                || negb (shape_eqb (shape counts) (shape offset)
                         && shape_eqb (shape offset) (shape scale)
                         && shape_eqb (shape scale) (shape immersion_factor))
             then Raise (ValueError
               ["counts, offset, scale, and immersion arrays must have the same shape and have 7 columns"%string])
             else Ok (map2_2d fmul
                        (map2_2d fmul
                           (map2_2d fsub (map_2d (fun x => fmul x lit_1) counts)
                                    offset) scale) immersion_factor))
          = false
          <-> (snd (shape counts) <> 7
               \/ ~ (shape counts = shape offset /\ shape offset = shape scale
                     /\ shape scale = shape immersion_factor))).
  { destruct (Nat.eqb_spec (snd (shape counts)) 7) as [E7|N7]; simpl.
    2:{ split; [intros _; left; exact N7 | reflexivity]. }
    destruct (shape_eqb (shape counts) (shape offset)) eqn:E1; simpl.
    2:{ split; [intros _; right | reflexivity]. intros (E & _).
        apply shape_eqb_eq in E. congruence. }
    destruct (shape_eqb (shape offset) (shape scale)) eqn:E2; simpl.
    2:{ split; [intros _; right | reflexivity]. intros (_ & E & _).
        apply shape_eqb_eq in E. congruence. }
    destruct (shape_eqb (shape scale) (shape immersion_factor)) eqn:E3; simpl.
    2:{ split; [intros _; right | reflexivity]. intros (_ & _ & E).
        apply shape_eqb_eq in E. congruence. }
    apply shape_eqb_eq in E1, E2, E3.
    split; [discriminate|]. intros [N|N]; [contradiction|]. elim N. tauto. }
  split; [exact Hiff|]. split.
  - intro H68. apply Hiff. left. lia.
  - intros E7 E1 E2 E3 Wc Wo Ws Wi.
    rewrite E7. rewrite <- E1, <- E2 in *.
    rewrite (proj2 (shape_eqb_eq _ _) eq_refl).
    rewrite (proj2 (shape_eqb_eq _ _) E3). simpl.
    set (c1 := map_2d (fun x => fmul x lit_1) counts).
    assert (Sc1 : shape c1 = shape counts) by apply shape_map_2d.
    assert (Wc1 : wf2 c1) by (apply wf2_map_2d; exact Wc).
    set (d := map2_2d fsub c1 offset).
    assert (Sd : shape d = shape counts)
      by (unfold d; rewrite shape_map2_2d; congruence).
    assert (Wd : wf2 d) by (apply wf2_map2_2d; congruence).
    set (m := map2_2d fmul d scale).
    assert (Sm : shape m = shape counts)
      by (unfold m; rewrite shape_map2_2d; congruence).
    assert (Wm : wf2 m) by (apply wf2_map2_2d; congruence).
    eexists. split; [reflexivity|].
    split; [rewrite shape_map2_2d; congruence|].
    intros i j Hi Hj.
    assert (Ecell : cell (map2_2d fmul m immersion_factor) i j
                    = fmul (fmul (fsub (fmul (cell counts i j) lit_1)
                                       (cell offset i j))
                                 (cell scale i j))
                           (cell immersion_factor i j)).
    { assert (Hj' : j < snd (shape counts)) by (rewrite E7; exact Hj).
      rewrite cell_map2_2d
        by first [assumption | congruence | rewrite Sm; assumption].
      unfold m. rewrite cell_map2_2d
        by first [assumption | congruence | rewrite Sd; assumption].
      unfold d. rewrite cell_map2_2d
        by first [assumption | congruence | rewrite Sc1; assumption].
      unfold c1. rewrite cell_map_2d by assumption.
      reflexivity. }
    split; [exact Ecell|]. intro Hone. rewrite Ecell, Hone. reflexivity.
Qed.

(** The statement above at one record of 7 channels, and at one of 6
    channels, over the rationals. *)
Lemma opt_ocr507_irradiance_spec_witness :
  let q := fun n : Z => Q2Qc (inject_Z n) in
  let counts := mk_ndarray2 7 [map q [10; 20; 30; 40; 50; 60; 70]%Z] in
  let offset := mk_ndarray2 7 [map q [1; 2; 3; 4; 5; 6; 7]%Z] in
  let scale := mk_ndarray2 7 [map q [2; 2; 2; 2; 2; 2; 2]%Z] in
  let immersion_factor := mk_ndarray2 7 [map q [3; 3; 3; 3; 3; 3; 3]%Z] in
  let six := mk_ndarray2 6 [map q [1; 2; 3; 4; 5; 6]%Z] in
  (snd (shape counts) = 7
   /\ shape counts = shape offset /\ shape offset = shape scale
   /\ shape scale = shape immersion_factor
   /\ wf2 counts /\ wf2 offset /\ wf2 scale /\ wf2 immersion_factor
   /\ (forall x : Qc, fmul x lit_1 = x)
   /\ exists Ed,
        opt_ocr507_irradiance counts offset scale immersion_factor = Ok Ed
        /\ cell Ed 0 0
           = fmul (fmul (fsub (cell counts 0 0) (cell offset 0 0))
                        (cell scale 0 0))
                  (cell immersion_factor 0 0))
  /\ (snd (shape six) = 6
      /\ is_ok (opt_ocr507_irradiance six six six six) = false).
Proof.
  intros q counts offset scale immersion_factor six.
  assert (E7 : snd (shape counts) = 7) by reflexivity.
  assert (E1 : shape counts = shape offset) by reflexivity.
  assert (E2 : shape offset = shape scale) by reflexivity.
  assert (E3 : shape scale = shape immersion_factor) by reflexivity.
  assert (Wc : wf2 counts) by (repeat constructor).
  assert (Wo : wf2 offset) by (repeat constructor).
  assert (Ws : wf2 scale) by (repeat constructor).
  assert (Wi : wf2 immersion_factor) by (repeat constructor).
  assert (Hone : forall x : Qc, fmul x lit_1 = x) by (intro x; simpl; ring).
  assert (E6 : snd (shape six) = 6) by reflexivity.
  split.
  - repeat (split; [assumption|]).
    destruct (proj2 (proj2 (@opt_ocr507_irradiance_spec Qc Scalar_Qc counts
                              offset scale immersion_factor))
                E7 E1 E2 E3 Wc Wo Ws Wi) as (Ed & Er & _ & Hcell).
    exists Ed. split; [exact Er|].
    apply (Hcell 0 0); [simpl; lia | lia | exact Hone].
  - split; [exact E6|].
    apply (proj1 (proj2 (@opt_ocr507_irradiance_spec Qc Scalar_Qc six six
                           six six))).
    left. exact E6.
Defined.

(** In binary64: arrays with 6 or 8 columns are refused, and so are arrays
    of different shapes. *)
Example opt_ocr507_irradiance_binary64 :
  let a6 := mk_ndarray2 6 [[1; 2; 3; 4; 5; 6]]%float in
  let a7 := mk_ndarray2 7 [[1; 2; 3; 4; 5; 6; 7]]%float in
  let b7 := mk_ndarray2 7 [[1; 2; 3; 4; 5; 6; 7]; [1; 2; 3; 4; 5; 6; 7]]%float
  in
  let a8 := mk_ndarray2 8 [[1; 2; 3; 4; 5; 6; 7; 8]]%float in
  is_ok (opt_ocr507_irradiance a6 a6 a6 a6) = false
  /\ is_ok (opt_ocr507_irradiance a8 a8 a8 a8) = false
  /\ is_ok (opt_ocr507_irradiance a7 a7 b7 a7) = false
  /\ opt_ocr507_irradiance a7 a7 a7 a7
     = Ok (mk_ndarray2 7 [[0; 0; 0; 0; 0; 0; 0]]%float).
Proof. repeat split; vm_compute; reflexivity. Qed.

(** ** Further laws of exact arithmetic *)

Lemma Qcdiv_pos (x d : Qc) : (0 < x -> 0 < d -> 0 < x / d)%Qc.
Proof.
  unfold Qclt, Qcdiv, Qcmult, Qcinv, Q2Qc. cbn [this].
  intros Hx Hd. rewrite !Qred_correct.
  apply Qmult_lt_0_compat; [exact Hx | apply Qinv_lt_0_compat; exact Hd].
Qed.

#[export] Instance FieldLaws_Qc : FieldLaws Qc.
Proof.
  split; simpl.
  - intro x. ring.
  - intro x. ring.
  - intros k s r Hk Hr. field. split; assumption.
  - intros x d. rewrite !Qcltb_iff. apply Qcdiv_pos.
  - reflexivity.
Qed.

#[export] Instance FieldLaws_R : FieldLaws R.
Proof.
  split; simpl.
  - intro x. ring.
  - intro x. ring.
  - intros k s r Hk Hr. field. split; assumption.
  - intros x d. rewrite !Rltb_iff. apply Rdiv_lt_0_compat.
  - apply Rltb_iff. lra.
Qed.

(** ** Further statements *)

(** X1.  [opt_scatter_corr] fails if and only if the absorption pair or the
    attenuation pair differ in length, or the absorption wavelengths or the
    attenuation wavelengths are empty; every failure is a [ValueError]; and
    a result has one value per absorption coefficient. *)
Theorem opt_scatter_corr_errors :
  forall (F : Type) (Sc : Scalar F)
         (apd_ts awlngth cpd_ts cwlngth : list F) (rwlngth : F),
    let res := opt_scatter_corr apd_ts awlngth cpd_ts cwlngth rwlngth in
    (is_ok res = false
     <-> (length apd_ts <> length awlngth \/ length cpd_ts <> length cwlngth
          \/ awlngth = [] \/ cwlngth = []))
    /\ (forall e, res = Raise e -> exists args, e = ValueError args)
    /\ (forall apd_ts_s, res = Ok apd_ts_s ->
        length apd_ts_s = length apd_ts).
Proof.
  intros F Sc apd_ts awlngth cpd_ts cwlngth rwlngth. cbv zeta.
  set (res := opt_scatter_corr apd_ts awlngth cpd_ts cwlngth rwlngth).
  destruct (Nat.eq_dec (length apd_ts) (length awlngth)) as [Ea|Na].
  2:{ assert (Er : exists args, res = Raise (ValueError args)).
      { unfold res, opt_scatter_corr. apply Nat.eqb_neq in Na. rewrite Na.
        eexists. reflexivity. }
      destruct Er as [args Er]. rewrite Er. simpl.
      split; [tauto|]. split; [|discriminate].
      intros e E. injection E as <-. eauto. }
  destruct (Nat.eq_dec (length cpd_ts) (length cwlngth)) as [Ec|Nc].
  2:{ assert (Er : exists args, res = Raise (ValueError args)).
      { unfold res, opt_scatter_corr. apply Nat.eqb_neq in Nc.
        rewrite Ea, Nat.eqb_refl, Nc. eexists. reflexivity. }
      destruct Er as [args Er]. rewrite Er. simpl.
      split; [tauto|]. split; [|discriminate].
      intros e E. injection E as <-. eauto. }
  destruct awlngth as [|w awlngth].
  { assert (Er : exists args, res = Raise (ValueError args)).
    { unfold res, opt_scatter_corr. rewrite Ea, Ec, !Nat.eqb_refl.
      eexists. reflexivity. }
    destruct Er as [args Er]. rewrite Er. simpl.
    split; [tauto|]. split; [|discriminate].
    intros e E. injection E as <-. eauto. }
  destruct cwlngth as [|v cwlngth].
  { assert (Er : exists args, res = Raise (ValueError args)).
    { destruct (@argmin_ok F Sc
                  (map (fun w' => fabs (fsub w' rwlngth)) (w :: awlngth)))
        as (idx & Ei & Li); [discriminate|].
      rewrite length_map in Li.
      unfold res, opt_scatter_corr. rewrite Ea, Ec, !Nat.eqb_refl.
      simpl negb. cbv iota. rewrite Ei. simpl bind.
      rewrite (getitem_ok lit_0 apd_ts) by congruence.
      eexists. reflexivity. }
    destruct Er as [args Er]. rewrite Er. simpl.
    split; [tauto|]. split; [|discriminate].
    intros e E. injection E as <-. eauto. }
  destruct (@opt_scatter_corr_steps F Sc apd_ts (w :: awlngth) cpd_ts
              (v :: cwlngth) rwlngth Ea Ec)
    as (idx & cintrp & _ & _ & _ & _ & Ln & _ & Er);
    [discriminate | discriminate |].
  fold res in Er. rewrite Er. simpl. split; [|split].
  - split; [discriminate|].
    intros [N|[N|[N|N]]]; try contradiction; discriminate.
  - discriminate.
  - intros out E. injection E as <-. apply length_map2. congruence.
Qed.

(** The statement above at a mismatched absorption pair and at an empty
    attenuation channel, in binary64. *)
Lemma opt_scatter_corr_errors_witness :
  (length [0.3; 0.2]%float <> length [715%float]
   /\ is_ok (opt_scatter_corr [0.3; 0.2]%float [715%float] [0.5%float]
                              [715%float] 715%float) = false)
  /\ (@nil float = []
      /\ is_ok (opt_scatter_corr [0.3%float] [715%float] [] []
                                 715%float) = false).
Proof.
  assert (N : length [0.3; 0.2]%float <> length [715%float])
    by (simpl; lia).
  split.
  - split; [exact N|].
    apply (proj1 (@opt_scatter_corr_errors float Scalar_float
                    [0.3; 0.2]%float [715%float] [0.5%float] [715%float]
                    715%float)).
    left. exact N.
  - split; [reflexivity|].
    apply (proj1 (@opt_scatter_corr_errors float Scalar_float
                    [0.3%float] [715%float] [] [] 715%float)).
    right. right. right. reflexivity.
Defined.

(** X2.  With the four shape conditions met, [opt_pd_calc] succeeds exactly
    for the temperatures strictly inside the grid; a temperature at or
    below every bin, or at or above every bin (the lowest and the highest
    bin included), raises [IndexError]. *)
Theorem opt_pd_calc_succeeds_iff_inside :
  forall (F : Type) (Sc : Scalar F) (L : OrderLaws F) (np_log : F -> F)
         (ref sig offset : list F) (tintrn : F) (tbins : list F)
         (tarray : ndarray2 F),
    shape_contract ref sig offset tbins tarray ->
    (is_ok (opt_pd_calc np_log ref sig offset tintrn tbins tarray) = true
     <-> inside_grid tbins tintrn)
    /\ ((forall b, In b tbins -> fle tintrn b = true)
        \/ (forall b, In b tbins -> fle b tintrn = true) ->
        opt_pd_calc np_log ref sig offset tintrn tbins tarray
        = Raise IndexError).
Proof.
  intros F Sc L np_log ref sig offset tintrn tbins tarray
         (E1 & E2 & E3 & E4 & _).
  assert (Hiff : is_ok (opt_pd_calc np_log ref sig offset tintrn tbins
                                    tarray) = true
                 <-> inside_grid tbins tintrn).
  { split.
    - intro Hok. rewrite opt_pd_calc_checked in Hok by assumption.
      pose proof (bracket_spec tbins tintrn) as Hb.
      destruct (bracket tbins tintrn) as [[[[i1 i2] T0] T1]|e];
        [|discriminate].
      destruct Hb as [(Ei0 & H0 & _) (Ei1 & H1 & _)].
      rewrite flt_sub_lit_0 in H0, H1.
      exists T0, T1. repeat split; try assumption;
        eapply nth_error_In; eassumption.
    - intro Hin.
      destruct (bracket_inside Hin) as (ind1 & ind2 & T0 & T1 & Eb).
      rewrite (opt_pd_calc_ok np_log ref sig offset tintrn tbins tarray
                              E1 E2 E3 E4 Eb).
      reflexivity. }
  split; [exact Hiff|]. intro Hedge.
  destruct (opt_pd_calc_after_checks np_log ref sig offset tintrn tbins
                                     tarray E1 E2 E3 E4) as (_ & HI & _).
  destruct (opt_pd_calc np_log ref sig offset tintrn tbins tarray)
    as [r|e] eqn:Er.
  - exfalso. destruct (proj1 Hiff eq_refl)
      as (lo & hi & Hlo & Hhi & Hl & Hh).
    destruct Hedge as [Hedge|Hedge].
    + rewrite (fle_not_flt _ _ (Hedge lo Hlo)) in Hl. discriminate.
    + rewrite (fle_not_flt _ _ (Hedge hi Hhi)) in Hh. discriminate.
  - rewrite (HI e eq_refl). reflexivity.
Qed.

(** The statement above at the lowest bin of the grid [10, 15, 20, 25],
    over the reals with the natural logarithm. *)
Lemma opt_pd_calc_succeeds_iff_inside_witness :
  let ref := [100; 200]%R in
  let sig := [50; 100]%R in
  let offset := [0.1; 0.2]%R in
  let tbins := [10; 15; 20; 25]%R in
  let tarray :=
    mk_ndarray2 4 [[0.01; 0.02; 0.03; 0.04]; [0.05; 0.06; 0.07; 0.08]]%R in
  shape_contract ref sig offset tbins tarray
  /\ (forall b, In b tbins -> fle 10%R b = true)
  /\ opt_pd_calc ln ref sig offset 10%R tbins tarray = Raise IndexError.
Proof.
  intros ref sig offset tbins tarray.
  assert (Hs : shape_contract ref sig offset tbins tarray).
  { repeat split. repeat constructor. }
  assert (Hlo : forall b, In b tbins -> fle 10%R b = true).
  { intros b Hb. simpl in Hb.
    repeat (destruct Hb as [<-|Hb]; [apply Rleb_iff; lra|]). destruct Hb. }
  split; [exact Hs|]. split; [exact Hlo|].
  apply (proj2 (@opt_pd_calc_succeeds_iff_inside R Scalar_R OrderLaws_R ln
                  ref sig offset 10%R tbins tarray Hs)).
  left. exact Hlo.
Defined.

Section MoreTempSalFacts.

Context {F : Type} `{Scalar F}.

Lemma tempsal_formula_identity `{!ExactLaws F} (pd : list F) :
  forall col_T col_S,
    length col_T = length pd -> length col_S = length pd ->
    tempsal_formula pd lit_0 lit_0 col_T col_S = pd.
Proof.
  unfold tempsal_formula.
  induction pd as [|p pd IH]; intros [|ct col_T] [|cs col_S] E1 E2;
    try discriminate; [reflexivity|].
  simpl. rewrite !fmul_lit_0_l, !fsub_lit_0_r. f_equal.
  apply IH; simpl in *; lia.
Qed.

(** A result of [opt_tempsal_corr] has one value per wavelength. *)
Lemma opt_tempsal_corr_length (tscor : F -> option (F * F * F))
    (channel : string) (pd wlngth : list F) (tcal T PS : F)
    (pd_ts : list F) :
  opt_tempsal_corr tscor channel pd wlngth tcal T PS = Ok pd_ts ->
  length pd_ts = length wlngth.
Proof.
  intro E. unfold opt_tempsal_corr in E.
  destruct (Nat.eqb_spec (length pd) (length wlngth)) as [El|];
    [|discriminate]. simpl negb in E. cbv iota in E.
  pose proof (lookup_tscor_spec tscor wlngth) as Hl.
  destruct (lookup_tscor tscor wlngth) as [np_tscor|e]; [|discriminate].
  simpl in E. apply Forall2_length in Hl.
  destruct np_tscor as [|row np_tscor].
  - destruct (String.eqb channel "a"); [discriminate|].
    destruct (String.eqb channel "c"); discriminate.
  - destruct (String.eqb channel "a");
      [|destruct (String.eqb channel "c"); [|discriminate]];
      simpl in E; injection E as <-;
      (rewrite length_tempsal_formula;
       [exact El
       | simpl; rewrite length_map; simpl in Hl; congruence ..]).
Qed.

End MoreTempSalFacts.

(** X3.  In exact arithmetic, at the reference conditions (in-situ
    temperature equal to the factory calibration temperature, salinity
    zero) [opt_tempsal_corr] returns the coefficients unchanged, for either
    channel, whatever the table holds for the wavelengths. *)
Theorem opt_tempsal_corr_reference_conditions :
  forall (F : Type) (Sc : Scalar F) (L : ExactLaws F)
         (tscor : F -> option (F * F * F)) (channel : string)
         (pd wlngth : list F) (tcal : F),
    length pd = length wlngth ->
    wlngth <> [] ->
    channel = "a"%string \/ channel = "c"%string ->
    (forall w, In w wlngth -> tscor w <> None) ->
    opt_tempsal_corr tscor channel pd wlngth tcal tcal lit_0 = Ok pd.
Proof.
  intros F Sc L tscor channel pd wlngth tcal E Hne Hch Hall.
  pose proof (lookup_tscor_spec tscor wlngth) as Hl.
  destruct (lookup_tscor tscor wlngth) as [np_tscor|e] eqn:El.
  2:{ destruct Hl as (_ & w & Hw & Ew). elim (Hall w Hw Ew). }
  assert (Ln : length wlngth = length np_tscor)
    by (eapply Forall2_length; exact Hl).
  assert (Hne' : np_tscor <> []).
  { intros ->. destruct wlngth; [congruence | discriminate]. }
  rewrite (@opt_tempsal_corr_ok F Sc tscor channel pd wlngth tcal tcal lit_0
                                np_tscor E El Hne').
  rewrite fsub_diag.
  destruct Hch as [-> | ->]; simpl; f_equal;
    apply tempsal_formula_identity; rewrite length_map; congruence.
Qed.

(** The statement above at two wavelengths of a two-row table, over the
    rationals. *)
Lemma opt_tempsal_corr_reference_conditions_witness :
  let tscor := fun w : Qc =>
    if Qc_eq_dec w (Q2Qc 400)
    then Some (Q2Qc (1 # 10000), Q2Qc (2 # 100000), Q2Qc (3 # 100000))
    else if Qc_eq_dec w (Q2Qc (4037 # 10))
    then Some (Q2Qc (2 # 10000), Q2Qc (4 # 100000), Q2Qc (6 # 100000))
    else None in
  let pd := [Q2Qc (5 # 10); Q2Qc (6 # 10)] in
  let wlngth := [Q2Qc 400; Q2Qc (4037 # 10)] in
  length pd = length wlngth
  /\ wlngth <> []
  /\ (forall w, In w wlngth -> tscor w <> None)
  /\ opt_tempsal_corr tscor "a" pd wlngth (Q2Qc 20) (Q2Qc 20) lit_0 = Ok pd.
Proof.
  intros tscor pd wlngth.
  assert (E : length pd = length wlngth) by reflexivity.
  assert (Hne : wlngth <> []) by discriminate.
  assert (Hall : forall w, In w wlngth -> tscor w <> None).
  { intros w [<-|[<-|[]]]; unfold tscor.
    - destruct (Qc_eq_dec (Q2Qc 400) (Q2Qc 400)) as [_|N];
        [discriminate | elim N; reflexivity].
    - destruct (Qc_eq_dec (Q2Qc (4037 # 10)) (Q2Qc 400)); [discriminate|].
      destruct (Qc_eq_dec (Q2Qc (4037 # 10)) (Q2Qc (4037 # 10))) as [_|N];
        [discriminate | elim N; reflexivity]. }
  split; [exact E|]. split; [exact Hne|]. split; [exact Hall|].
  exact (@opt_tempsal_corr_reference_conditions Qc Scalar_Qc ExactLaws_Qc
           tscor "a" pd wlngth (Q2Qc 20) E Hne (or_introl eq_refl) Hall).
Defined.

(** X4.  In exact arithmetic the scattering ratio is never negative: it is
    zero when the correction is suppressed, and positive when it is
    applied. *)
Theorem scat_ratio_of_sign :
  forall (F : Type) (Sc : Scalar F) (L : OrderLaws F) (L' : FieldLaws F)
         (aref cref : F),
    (fle aref lit_0 = true \/ fle (fsub cref aref) lit_0_02 = true ->
     scat_ratio_of aref cref = lit_0)
    /\ (fle aref lit_0 = false -> fle (fsub cref aref) lit_0_02 = false ->
        flt lit_0 (scat_ratio_of aref cref) = true).
Proof.
  intros F Sc L L' aref cref. unfold scat_ratio_of. split.
  - intros [Hs|Hs]; rewrite Hs; [reflexivity|].
    destruct (fle aref lit_0); reflexivity.
  - intros Hpos Hleak. rewrite Hpos, Hleak.
    assert (Ha : flt lit_0 aref = true).
    { destruct (flt lit_0 aref) eqn:Ea; [reflexivity|].
      rewrite (fle_total _ _ Ea) in Hpos. discriminate. }
    assert (Hd : flt lit_0_02 (fsub cref aref) = true).
    { destruct (flt lit_0_02 (fsub cref aref)) eqn:Ed; [reflexivity|].
      rewrite (fle_total _ _ Ed) in Hleak. discriminate. }
    apply fdiv_pos; [exact Ha|].
    apply flt_fle_trans with lit_0_02; [apply flt_lit_0_0_02|].
    apply flt_fle. exact Hd.
Qed.

(** The statement above at [aref = 0.05] and [cref = 0.10], over the
    rationals. *)
Lemma scat_ratio_of_sign_witness :
  fle (Q2Qc (5 # 100)) lit_0 = false
  /\ fle (fsub (Q2Qc (10 # 100)) (Q2Qc (5 # 100))) lit_0_02 = false
  /\ flt lit_0 (scat_ratio_of (Q2Qc (5 # 100)) (Q2Qc (10 # 100))) = true.
Proof.
  assert (Hpos : fle (Q2Qc (5 # 100)) lit_0 = false)
    by (vm_compute; reflexivity).
  assert (Hleak : fle (fsub (Q2Qc (10 # 100)) (Q2Qc (5 # 100))) lit_0_02
                  = false) by (vm_compute; reflexivity).
  split; [exact Hpos|]. split; [exact Hleak|].
  exact (proj2 (@scat_ratio_of_sign Qc Scalar_Qc OrderLaws_Qc FieldLaws_Qc
                  (Q2Qc (5 # 100)) (Q2Qc (10 # 100))) Hpos Hleak).
Defined.

Lemma map2_fdiv_scaled (F : Type) `{Scalar F} `{!FieldLaws F} (k : F)
    (sig : list F) : forall ref,
  k <> lit_0 -> Forall (fun r => r <> lit_0) ref ->
  map2 fdiv (map (fmul k) sig) (map (fmul k) ref) = map2 fdiv sig ref.
Proof.
  induction sig as [|s sig IH]; intros [|r ref] Hk Hr; try reflexivity.
  simpl. inversion Hr; subst.
  rewrite fdiv_fmul_cancel by assumption. f_equal. apply IH; assumption.
Qed.

(** X5.  In exact arithmetic [opt_pd_calc] depends on the signal and the
    reference only through their ratio: multiplying both by one non-zero
    factor changes neither the outcome nor, on success, the values, as long
    as no reference count is zero. *)
Theorem opt_pd_calc_scale_invariant :
  forall (F : Type) (Sc : Scalar F) (L : FieldLaws F) (np_log : F -> F)
         (ref sig offset : list F) (tintrn : F) (tbins : list F)
         (tarray : ndarray2 F) (k : F),
    k <> lit_0 ->
    Forall (fun r => r <> lit_0) ref ->
    opt_pd_calc np_log (map (fmul k) ref) (map (fmul k) sig) offset tintrn
                tbins tarray
    = opt_pd_calc np_log ref sig offset tintrn tbins tarray.
Proof.
  intros F Sc L np_log ref sig offset tintrn tbins tarray k Hk Hr.
  unfold opt_pd_calc. rewrite !length_map.
  destruct (negb (length ref =? length sig)); [reflexivity|].
  destruct (negb (length offset =? length sig)); [reflexivity|].
  destruct (shape tarray) as [r c].
  destruct (negb (r =? length sig)); [reflexivity|].
  destruct (negb (c =? length tbins)); [reflexivity|].
  destruct (bracket tbins tintrn) as [[[[i1 i2] T0] T1]|e]; [|reflexivity].
  simpl. destruct (column lit_0 tarray i1) as [dT0|e]; [|reflexivity].
  simpl. destruct (column lit_0 tarray i2) as [dT1|e]; [|reflexivity].
  simpl. unfold uncorrected_signal.
  rewrite map2_fdiv_scaled by assumption. reflexivity.
Qed.

(** The statement above with both counts doubled, over the reals with the
    natural logarithm. *)
Lemma opt_pd_calc_scale_invariant_witness :
  let ref := [100; 200]%R in
  let sig := [50; 100]%R in
  let offset := [0.1; 0.2]%R in
  let tbins := [10; 15; 20; 25]%R in
  let tarray :=
    mk_ndarray2 4 [[0.01; 0.02; 0.03; 0.04]; [0.05; 0.06; 0.07; 0.08]]%R in
  2%R <> lit_0
  /\ Forall (fun r : R => r <> lit_0) ref
  /\ opt_pd_calc ln (map (fmul 2%R) ref) (map (fmul 2%R) sig) offset 17%R
                 tbins tarray
     = opt_pd_calc ln ref sig offset 17%R tbins tarray.
Proof.
  intros ref sig offset tbins tarray.
  assert (Hk : 2%R <> lit_0) by (simpl; lra).
  assert (Hr : Forall (fun r : R => r <> lit_0) ref)
    by (repeat constructor; simpl; lra).
  split; [exact Hk|]. split; [exact Hr|].
  exact (@opt_pd_calc_scale_invariant R Scalar_R FieldLaws_R ln ref sig
           offset 17%R tbins tarray 2%R Hk Hr).
Defined.

(** ** [np.interp] at and outside the nodes *)

Lemma last_cons_indep (A : Type) (l : list A) : forall a d d',
  last (a :: l) d = last (a :: l) d'.
Proof.
  induction l as [|b l IH]; intros a d d'; [reflexivity|].
  change (last (b :: l) d = last (b :: l) d'). apply IH.
Qed.

Lemma last_cons_default (A : Type) (l : list A) (a d : A) :
  last (a :: l) d = last l a.
Proof.
  revert a. induction l as [|b l IH]; intro a; [reflexivity|].
  change (last (b :: l) d = last (b :: l) a). apply last_cons_indep.
Qed.

Section InterpFacts.

Context {F : Type} `{Scalar F} `{!OrderLaws F}.

Lemma flt_irrefl (x : F) : flt x x = false.
Proof.
  destruct (flt x x) eqn:E; [|reflexivity].
  rewrite (flt_asym _ _ E) in E. discriminate.
Qed.

Lemma strictly_ascending_tail (x : F) (l : list F) :
  strictly_ascending (x :: l) = true -> strictly_ascending l = true.
Proof.
  destruct l as [|y l]; [reflexivity|]. simpl. intro Hs.
  apply andb_true_iff in Hs. apply Hs.
Qed.

Lemma strictly_ascending_head (x : F) (l : list F) :
  strictly_ascending (x :: l) = true -> forall b, In b l -> flt x b = true.
Proof.
  revert x. induction l as [|y l IH]; intros x Hs b Hb; [destruct Hb|].
  pose proof (strictly_ascending_tail _ _ Hs) as Ht.
  simpl in Hs. apply andb_true_iff in Hs. destruct Hs as [Hxy _].
  destruct Hb as [<-|Hb]; [exact Hxy|].
  apply flt_fle_trans with y; [exact Hxy|].
  apply flt_fle. apply IH; assumption.
Qed.

(** Past the last node the interpolant keeps the last value. *)
Lemma interp_search_right (x : F) : forall nodes x0 y0,
  Forall (fun n => flt x (fst n) = false) nodes ->
  interp_search x x0 y0 nodes = snd (last nodes (x0, y0)).
Proof.
  induction nodes as [|[x1 y1] nodes IH]; intros x0 y0 Hall;
    [reflexivity|].
  inversion Hall as [|n ns Hn Hns]; subst. simpl in Hn.
  simpl interp_search. rewrite Hn. rewrite (IH x1 y1 Hns).
  rewrite (last_cons_default nodes (x1, y1) (x0, y0)). reflexivity.
Qed.

Lemma last_combine_snd (xs : list F) : forall (ys : list F) (x0 y0 : F),
  length xs = length ys ->
  snd (last (combine xs ys) (x0, y0)) = last ys y0.
Proof.
  induction xs as [|x xs IH]; intros [|y ys] x0 y0 E; try discriminate;
    [reflexivity|].
  simpl in E. injection E as E.
  simpl combine.
  rewrite (last_cons_default (combine xs ys) (x, y) (x0, y0)).
  rewrite (last_cons_default ys y y0).
  destruct xs as [|x' xs]; destruct ys as [|y' ys]; try discriminate;
    [reflexivity|].
  rewrite (IH (y' :: ys) x y E).
  apply last_cons_indep.
Qed.

Lemma interp_at_left (x x0 y0 : F) (nodes : list (F * F)) :
  flt x x0 = true -> interp_at x0 y0 nodes x = y0.
Proof. intro E. unfold interp_at. rewrite E. reflexivity. Qed.

Lemma interp_at_right (x x0 y0 : F) (xs ys : list F) :
  length xs = length ys -> ascending (x0 :: xs) = true ->
  fle (last xs x0) x = true ->
  interp_at x0 y0 (combine xs ys) x = last ys y0.
Proof.
  intros E Hasc Hx. unfold interp_at.
  assert (Hlast : nth_error (x0 :: xs) (length xs) = Some (last xs x0)).
  { clear. revert x0. induction xs as [|x1 xs IH]; intro x0; [reflexivity|].
    simpl nth_error. simpl length. rewrite (IH x1).
    rewrite (last_cons_default xs x1 x0). reflexivity. }
  assert (Hall : forall b, In b (x0 :: xs) -> flt x b = false).
  { intros b Hb. apply In_nth_error in Hb. destruct Hb as [j Ej].
    apply fle_not_flt. apply fle_trans with (last xs x0); [|exact Hx].
    apply (@ascending_nth_error F _ _ (x0 :: xs) j (length xs));
      try assumption.
    assert (j < length (x0 :: xs)) by (apply nth_error_Some; congruence).
    simpl in *. lia. }
  rewrite (Hall x0 (or_introl eq_refl)).
  rewrite interp_search_right.
  - apply last_combine_snd. exact E.
  - apply Forall_forall. intros [xj yj] Hj. simpl.
    apply Hall. right. eapply in_combine_l. exact Hj.
Qed.

End InterpFacts.

(** X6.  [np.interp], as [opt_scatter_corr] calls it, does not extrapolate:
    on an ascending attenuation grid, an absorption wavelength below the
    first attenuation wavelength gets the first attenuation coefficient,
    and one at or above the last attenuation wavelength gets the last. *)
Theorem np_interp_no_extrapolation :
  forall (F : Type) (Sc : Scalar F) (L : OrderLaws F)
         (awlngth cwlngth cpd_ts : list F),
    cwlngth <> [] -> length cpd_ts = length cwlngth ->
    ascending cwlngth = true ->
    exists cintrp,
      np_interp awlngth cwlngth cpd_ts = Ok cintrp
      /\ length cintrp = length awlngth
      /\ forall i, i < length awlngth ->
           (flt (nth i awlngth lit_0) (nth 0 cwlngth lit_0) = true ->
            nth i cintrp lit_0 = nth 0 cpd_ts lit_0)
           /\ (fle (last cwlngth lit_0) (nth i awlngth lit_0) = true ->
               nth i cintrp lit_0 = last cpd_ts lit_0).
Proof.
  intros F Sc L awlngth cwlngth cpd_ts Hne E Hasc.
  destruct cwlngth as [|x0 xs]; [congruence|].
  destruct cpd_ts as [|y0 ys]; [discriminate|].
  simpl in E. injection E as E.
  unfold np_interp. rewrite <- E, Nat.eqb_refl.
  eexists. split; [reflexivity|]. split; [apply length_map|].
  intros i Hi. rewrite (nth_map_in_range _ lit_0) by exact Hi. split.
  - simpl. apply interp_at_left.
  - intro Hx.
    rewrite last_cons_default in Hx. rewrite last_cons_default.
    apply interp_at_right; [congruence | exact Hasc | exact Hx].
Qed.

(** The statement above at the attenuation grid [690, 715, 740] and the
    absorption wavelengths [680] and [750], over the rationals. *)
Lemma np_interp_no_extrapolation_witness :
  let awlngth := [Q2Qc 680; Q2Qc 750] in
  let cwlngth := [Q2Qc 690; Q2Qc 715; Q2Qc 740] in
  let cpd_ts := [Q2Qc (50 # 100); Q2Qc (10 # 100); Q2Qc (60 # 100)] in
  cwlngth <> [] /\ length cpd_ts = length cwlngth
  /\ ascending cwlngth = true
  /\ exists cintrp,
       np_interp awlngth cwlngth cpd_ts = Ok cintrp
       /\ nth 0 cintrp lit_0 = Q2Qc (50 # 100)
       /\ nth 1 cintrp lit_0 = Q2Qc (60 # 100).
Proof.
  intros awlngth cwlngth cpd_ts.
  assert (Hne : cwlngth <> []) by discriminate.
  assert (E : length cpd_ts = length cwlngth) by reflexivity.
  assert (Hasc : ascending cwlngth = true) by (vm_compute; reflexivity).
  split; [exact Hne|]. split; [exact E|]. split; [exact Hasc|].
  destruct (@np_interp_no_extrapolation Qc Scalar_Qc OrderLaws_Qc awlngth
              cwlngth cpd_ts Hne E Hasc) as (cintrp & En & _ & Hc).
  exists cintrp. split; [exact En|]. split.
  - apply (proj1 (Hc 0 (Nat.lt_0_succ 1))). vm_compute. reflexivity.
  - apply (proj2 (Hc 1 (Nat.lt_succ_diag_r 1))). vm_compute. reflexivity.
Defined.

Section InterpNodeFacts.

Context {F : Type} `{Scalar F} `{!OrderLaws F} `{!ExactLaws F}
        `{!FieldLaws F}.

Lemma interp_search_head (x0 y0 : F) (nodes : list (F * F)) :
  interp_search x0 x0 y0 nodes = y0
  \/ exists x1 y1 rest, nodes = (x1, y1) :: rest /\ flt x0 x1 = false.
Proof.
  destruct nodes as [|[x1 y1] rest]; [left; reflexivity|].
  simpl. destruct (flt x0 x1) eqn:E.
  - left. rewrite fsub_diag, fmul_lit_0_r. apply fadd_lit_0_l.
  - right. eauto.
Qed.

(** At a node of a strictly ascending grid the interpolant takes the value
    of the node. *)
Lemma interp_search_node (xs : list F) : forall (ys : list F) (x0 y0 : F) k,
  length xs = length ys -> strictly_ascending (x0 :: xs) = true ->
  k < length xs ->
  interp_search (nth k xs lit_0) x0 y0 (combine xs ys) = nth k ys lit_0.
Proof.
  induction xs as [|x1 xs IH]; intros [|y1 ys] x0 y0 k E Hs Hk;
    try discriminate; [simpl in Hk; lia|].
  simpl in E. injection E as E.
  pose proof (strictly_ascending_tail _ _ Hs) as Ht.
  destruct k as [|k].
  - simpl. rewrite flt_irrefl.
    destruct (interp_search_head x1 y1 (combine xs ys))
      as [Eh | (x2 & y2 & rest & En & Ef)]; [exact Eh|].
    exfalso. destruct xs as [|x2' xs]; [discriminate|].
    destruct ys as [|y2' ys]; [discriminate|].
    simpl in En. injection En as <- <- <-.
    simpl in Ht. apply andb_true_iff in Ht. destruct Ht as [Ht _].
    congruence.
  - simpl in Hk. simpl nth. simpl combine. simpl interp_search.
    assert (Hx : flt (nth k xs lit_0) x1 = false).
    { apply flt_asym. apply (strictly_ascending_head _ _ Ht).
      apply nth_In. lia. }
    rewrite Hx. apply IH; [exact E | exact Ht | lia].
Qed.

Lemma np_interp_on_own_grid (wl fp : list F) :
  wl <> [] -> length fp = length wl -> strictly_ascending wl = true ->
  np_interp wl wl fp = Ok fp.
Proof.
  intros Hne E Hs. destruct wl as [|x0 xs]; [congruence|].
  destruct fp as [|y0 ys]; [discriminate|].
  simpl in E. injection E as E.
  unfold np_interp. rewrite <- E, Nat.eqb_refl. f_equal.
  simpl map. f_equal.
  - unfold interp_at. rewrite flt_irrefl.
    destruct (interp_search_head x0 y0 (combine xs ys))
      as [Eh | (x1 & y1 & rest & En & Ef)]; [exact Eh|].
    exfalso. destruct xs as [|x1' xs]; [discriminate|].
    destruct ys as [|y1' ys]; [discriminate|].
    simpl in En. injection En as <- <- <-.
    simpl in Hs. apply andb_true_iff in Hs. destruct Hs as [Hs _].
    congruence.
  - apply (nth_ext _ _ lit_0 lit_0); [rewrite length_map; congruence|].
    intros k Hk. rewrite length_map in Hk.
    rewrite (nth_map_in_range _ lit_0) by exact Hk.
    unfold interp_at.
    assert (Hx : flt (nth k xs lit_0) x0 = false).
    { apply flt_asym. apply (strictly_ascending_head _ _ Hs).
      apply nth_In. exact Hk. }
    rewrite Hx. apply interp_search_node; [congruence | exact Hs | exact Hk].
Qed.

End InterpNodeFacts.

(** X7.  In exact arithmetic, when the absorption and the attenuation
    channel share one strictly ascending wavelength grid, the interpolation
    returns the attenuation coefficients themselves, and the scattering
    correction is [apd_ts - ratio * (cpd_ts - apd_ts)] with the ratio of the
    two coefficients at the reference index. *)
Theorem opt_scatter_corr_shared_grid :
  forall (F : Type) (Sc : Scalar F) (L : OrderLaws F) (E : ExactLaws F)
         (L' : FieldLaws F) (apd_ts cpd_ts wlngth : list F) (rwlngth : F),
    length apd_ts = length wlngth -> length cpd_ts = length wlngth ->
    wlngth <> [] -> strictly_ascending wlngth = true ->
    exists idx,
      argmin (map (fun w => fabs (fsub w rwlngth)) wlngth) = Ok idx
      /\ np_interp wlngth wlngth cpd_ts = Ok cpd_ts
      /\ opt_scatter_corr apd_ts wlngth cpd_ts wlngth rwlngth
         = Ok (map2 (fun a c =>
                       fsub a (fmul (scat_ratio_of (nth idx apd_ts lit_0)
                                                   (nth idx cpd_ts lit_0))
                                    (fsub c a)))
                    apd_ts cpd_ts).
Proof.
  intros F Sc L E L' apd_ts cpd_ts wlngth rwlngth Ea Ec Hne Hs.
  destruct (@opt_scatter_corr_steps F Sc apd_ts wlngth cpd_ts wlngth rwlngth
              Ea Ec Hne Hne)
    as (idx & cintrp & Ei & _ & _ & En & _ & _ & Er).
  pose proof (@np_interp_on_own_grid F Sc L E L' wlngth cpd_ts Hne Ec Hs)
    as En'.
  rewrite En' in En. injection En as <-.
  exists idx. repeat split; assumption.
Qed.

(** The statement above at three wavelengths, over the rationals. *)
Lemma opt_scatter_corr_shared_grid_witness :
  let apd_ts := [Q2Qc (30 # 100); Q2Qc (5 # 100); Q2Qc (20 # 100)] in
  let cpd_ts := [Q2Qc (50 # 100); Q2Qc (10 # 100); Q2Qc (60 # 100)] in
  let wlngth := [Q2Qc 700; Q2Qc 715; Q2Qc 730] in
  length apd_ts = length wlngth /\ length cpd_ts = length wlngth
  /\ wlngth <> [] /\ strictly_ascending wlngth = true
  /\ np_interp wlngth wlngth cpd_ts = Ok cpd_ts.
Proof.
  intros apd_ts cpd_ts wlngth.
  assert (Ea : length apd_ts = length wlngth) by reflexivity.
  assert (Ec : length cpd_ts = length wlngth) by reflexivity.
  assert (Hne : wlngth <> []) by discriminate.
  assert (Hs : strictly_ascending wlngth = true)
    by (vm_compute; reflexivity).
  repeat (split; [assumption|]).
  destruct (@opt_scatter_corr_shared_grid Qc Scalar_Qc OrderLaws_Qc
              ExactLaws_Qc FieldLaws_Qc apd_ts cpd_ts wlngth (Q2Qc 715)
              Ea Ec Hne Hs) as (idx & _ & En & _).
  exact En.
Defined.

(** ** Internal temperature and PAR, in real arithmetic *)

(** X8.  In real arithmetic the thermistor resistance computed by
    [opt_internal_temp] is positive, so that its logarithm is defined,
    exactly for raw counts strictly between [0] and [4.516 * 65535 / 5]
    (about 59191.2); the code has no guard for other counts. *)
Theorem thermistor_resistance_positive_iff :
  forall traw : R,
    (0 < thermistor_resistance traw)%R
    <-> (0 < traw /\ traw < 4.516 * 65535 / 5)%R.
Proof.
  intro traw. unfold thermistor_resistance. simpl.
  set (volts := (5 * traw / 65535)%R).
  assert (Hv : (volts * 65535 = 5 * traw)%R) by (unfold volts; field).
  split.
  - intro Hres.
    destruct (Rtotal_order (4.516 - volts) 0) as [Hd|[Hd|Hd]].
    + exfalso.
      assert (Hn : (10000 * volts / (4.516 - volts) * (4.516 - volts)
                    = 10000 * volts)%R) by (field; lra).
      assert (Hp : (10000 * volts / (4.516 - volts) * (4.516 - volts) < 0)%R).
      { rewrite Rmult_comm. rewrite <- (Rmult_0_r (4.516 - volts)).
        apply Rmult_lt_gt_compat_neg_l; [exact Hd | exact Hres]. }
      lra.
    + exfalso. rewrite Hd in Hres. unfold Rdiv in Hres.
      rewrite Rinv_0, Rmult_0_r in Hres. lra.
    + assert (Hn : (10000 * volts / (4.516 - volts) * (4.516 - volts)
                    = 10000 * volts)%R) by (field; lra).
      assert (Hp : (0 < 10000 * volts / (4.516 - volts) * (4.516 - volts))%R)
        by (apply Rmult_lt_0_compat; assumption).
      lra.
  - intros [H0 H1]. apply Rdiv_lt_0_compat; lra.
Qed.

(** The statement above at the raw count [30000]. *)
Lemma thermistor_resistance_positive_iff_witness :
  (0 < 30000 /\ 30000 < 4.516 * 65535 / 5)%R
  /\ (0 < thermistor_resistance 30000%R)%R.
Proof.
  assert (Hr : (0 < 30000 /\ 30000 < 4.516 * 65535 / 5)%R) by lra.
  split; [exact Hr|].
  exact (proj2 (thermistor_resistance_positive_iff 30000%R) Hr).
Defined.

(** X9.  In real arithmetic the conversion for the QSP-2200
    ([opt_par_biospherical_wfp], readings in millivolts, scale per quanta)
    is the conversion for the QSP-2100 ([opt_par_biospherical_mobile]) on
    the same numbers divided by [1000 * (6.02 * 10**13)]. *)
Theorem opt_par_biospherical_wfp_mobile :
  forall output dark_offset scale_wet : R,
    scale_wet <> 0%R ->
    opt_par_biospherical_wfp output dark_offset scale_wet
    = map (fun par => (par / (1000 * (6.02 * 10000000000000)))%R)
          (opt_par_biospherical_mobile output dark_offset scale_wet).
Proof.
  intros output dark_offset scale_wet Hs.
  unfold opt_par_biospherical_wfp, opt_par_biospherical_mobile. simpl.
  f_equal. field. split; [exact Hs | lra].
Qed.

(** The statement above at a reading of 1200 mV. *)
Lemma opt_par_biospherical_wfp_mobile_witness :
  2%R <> 0%R
  /\ opt_par_biospherical_wfp 1200%R 10%R 2%R
     = map (fun par => (par / (1000 * (6.02 * 10000000000000)))%R)
           (opt_par_biospherical_mobile 1200%R 10%R 2%R).
Proof.
  assert (Hs : 2%R <> 0%R) by lra.
  split; [exact Hs|].
  exact (opt_par_biospherical_wfp_mobile 1200%R 10%R Hs).
Defined.

(** ** The wrappers *)

Lemma getitem_Ok (A : Type) (a : list A) (i : nat) (x : A) :
  getitem a i = Ok x -> i < length a /\ In x a.
Proof.
  unfold getitem. destruct (nth_error a i) as [y|] eqn:E; [|discriminate].
  intro Ex. injection Ex as <-. split.
  - apply nth_error_Some. congruence.
  - eapply nth_error_In. exact E.
Qed.

Ltac bind_inversion H :=
  repeat match type of H with
         | bind ?m _ = Ok _ =>
             let E := fresh "E" in
             destruct m eqn:E; simpl in H; [|discriminate H]
         | (let '(_, _) := ?p in _) = Ok _ => destruct p
         end.

Section LoopFacts.

Context {F : Type} `{Scalar F}.

Lemma assign_row_same (nwavelengths : nat) (row : list F) :
  length row = nwavelengths -> assign_row nwavelengths row = Ok row.
Proof. intro E. unfold assign_row. rewrite E, Nat.eqb_refl. reflexivity. Qed.

(** The loop stores the rows of the packets in order, and stops at the
    first packet that raises. *)
Lemma packet_loop_spec (body : nat -> result (list F)) (nwavelengths : nat)
    (n : nat) : forall ii,
  (forall k row, k < n -> body (ii + k) = Ok row ->
                 length row = nwavelengths) ->
  match packet_loop body nwavelengths ii n with
  | Ok rws =>
      length rws = n
      /\ forall k, k < n -> body (ii + k) = Ok (nth k rws [])
  | Raise e =>
      exists k, k < n
                /\ (forall j, j < k -> is_ok (body (ii + j)) = true)
                /\ body (ii + k) = Raise e
  end.
Proof.
  induction n as [|n IH]; intros ii Hlen; simpl.
  - split; [reflexivity | intros k Hk; lia].
  - destruct (body ii) as [row|e] eqn:Eb; simpl.
    2:{ exists 0. split; [lia|]. split; [intros j Hj; lia|].
        rewrite Nat.add_0_r. exact Eb. }
    rewrite assign_row_same
      by (apply (Hlen 0); [lia | rewrite Nat.add_0_r; exact Eb]).
    simpl. specialize (IH (S ii)).
    assert (Hlen' : forall k row', k < n -> body (S ii + k) = Ok row' ->
                                   length row' = nwavelengths).
    { intros k row' Hk E. apply (Hlen (S k)); [lia|].
      rewrite <- E. f_equal. lia. }
    specialize (IH Hlen').
    destruct (packet_loop body nwavelengths (S ii) n) as [rws|e]; simpl.
    + destruct IH as [Ln Hrows]. split; [simpl; lia|].
      intros [|k] Hk; [rewrite Nat.add_0_r; exact Eb|].
      simpl nth. rewrite <- (Hrows k) by lia. f_equal. lia.
    + destruct IH as (k & Hk & Hbefore & Hfail).
      exists (S k). split; [lia|]. split.
      * intros [|j] Hj; [rewrite Nat.add_0_r, Eb; reflexivity|].
        rewrite <- (Hbefore j) by lia. f_equal. f_equal. lia.
      * rewrite <- Hfail. f_equal. lia.
Qed.

(** Every packet of a loop that ends without an exception has produced a
    row. *)
Lemma packet_loop_Ok_body (body : nat -> result (list F))
    (nwavelengths : nat) (n : nat) : forall ii rws,
  packet_loop body nwavelengths ii n = Ok rws ->
  forall k, k < n -> exists row, body (ii + k) = Ok row.
Proof.
  induction n as [|n IH]; intros ii rws E k Hk; [lia|].
  simpl in E. destruct (body ii) as [row|e] eqn:Eb; [|discriminate].
  simpl in E. destruct (assign_row nwavelengths row); [|discriminate].
  simpl in E.
  destruct (packet_loop body nwavelengths (S ii) n) as [rest|e] eqn:El;
    [|discriminate].
  destruct k as [|k].
  - exists row. rewrite Nat.add_0_r. exact Eb.
  - destruct (IH (S ii) rest El k) as [row' Er]; [lia|].
    exists row'. rewrite <- Er. f_equal. lia.
Qed.

End LoopFacts.

Section WrapperFacts.

Context {F : Type} `{Scalar F} `{Literals F}.
Variable np_log : F -> F.
Variable tscor : F -> option (F * F * F).
Variable np_power : F -> nat -> F.

Lemma wf2_getitem (a : ndarray2 F) (ii : nat) (row : list F) :
  wf2 a -> getitem (rows a) ii = Ok row -> length row = ncols a.
Proof.
  intros Hwf E. apply getitem_Ok in E. destruct E as [_ Hin].
  unfold wf2 in Hwf. rewrite Forall_forall in Hwf. apply Hwf. exact Hin.
Qed.

Lemma beam_attenuation_packet_Ok (cref csig : ndarray2 F) (traw : list F)
    (cwl coff : ndarray2 F) (tcal : list F) (tbins : ndarray2 F)
    (tc_arr : list (ndarray2 F)) (T PS : list F) (ii : nat)
    (row : list F) :
  beam_attenuation_packet np_log tscor np_power cref csig traw cwl coff
                          tcal tbins tc_arr T PS ii = Ok row ->
  (ii < length traw /\ ii < fst (shape cref) /\ ii < fst (shape csig)
   /\ ii < fst (shape coff) /\ ii < length tcal /\ ii < fst (shape tbins)
   /\ ii < length tc_arr /\ ii < length T /\ ii < length PS)
  /\ (wf2 cwl -> length row = ncols cwl).
Proof.
  intro E. unfold beam_attenuation_packet in E. bind_inversion E.
  apply opt_tempsal_corr_length in E.
  match goal with
  | G : getitem (rows cwl) ii = Ok ?r |- _ =>
      pose proof (fun W => @wf2_getitem cwl ii r W G) as Hrow
  end.
  repeat match goal with
         | G : getitem _ _ = Ok _ |- _ =>
             let L := fresh "L" in
             pose proof (proj1 (getitem_Ok _ _ G)) as L; clear G
         end.
  split; [simpl; repeat split; assumption|].
  intro Hwf. rewrite E. apply Hrow. exact Hwf.
Qed.

Lemma opt_scatter_corr_length (apd_ts awlngth cpd_ts cwlngth : list F)
    (rwlngth : F) (apd_ts_s : list F) :
  opt_scatter_corr apd_ts awlngth cpd_ts cwlngth rwlngth = Ok apd_ts_s ->
  length apd_ts_s = length awlngth.
Proof.
  intro E. unfold opt_scatter_corr in E.
  destruct (Nat.eqb_spec (length apd_ts) (length awlngth)) as [Ea|];
    [|discriminate]. simpl negb in E. cbv iota in E.
  destruct (Nat.eqb_spec (length cpd_ts) (length cwlngth)) as [Ec|];
    [|discriminate]. simpl negb in E. cbv iota in E.
  bind_inversion E. injection E as <-.
  assert (Ln : length a1 = length awlngth).
  { unfold np_interp in E2. destruct cwlngth; [discriminate|].
    destruct cpd_ts; [discriminate|].
    destruct (_ =? _); [|discriminate]. injection E2 as <-.
    apply length_map. }
  rewrite length_map2; congruence.
Qed.

Lemma optical_absorption_packet_Ok (aref asig : ndarray2 F)
    (traw : list F) (awl aoff : ndarray2 F) (tcal : list F)
    (tbins : ndarray2 F) (ta_arr : list (ndarray2 F))
    (cpd_ts cwl : ndarray2 F) (T PS : list F) (rwlngth : F) (ii : nat)
    (row : list F) :
  optical_absorption_packet np_log tscor np_power aref asig traw awl aoff
                            tcal tbins ta_arr cpd_ts cwl T PS rwlngth ii
  = Ok row ->
  (ii < length traw /\ ii < fst (shape aref) /\ ii < fst (shape asig)
   /\ ii < fst (shape aoff) /\ ii < length tcal /\ ii < fst (shape tbins)
   /\ ii < length ta_arr /\ ii < fst (shape cpd_ts) /\ ii < fst (shape cwl)
   /\ ii < length T /\ ii < length PS)
  /\ (wf2 awl -> length row = ncols awl).
Proof.
  intro E. unfold optical_absorption_packet in E. bind_inversion E.
  apply opt_scatter_corr_length in E.
  match goal with
  | G : getitem (rows awl) ii = Ok ?r |- _ =>
      pose proof (fun W => @wf2_getitem awl ii r W G) as Hrow
  end.
  repeat match goal with
         | G : getitem _ _ = Ok _ |- _ =>
             let L := fresh "L" in
             pose proof (proj1 (getitem_Ok _ _ G)) as L; clear G
         end.
  split; [simpl; repeat split; assumption|].
  intro Hwf. rewrite E. apply Hrow. exact Hwf.
Qed.

End WrapperFacts.

Section BeamAttenuation.

Context {F : Type} `{Scalar F} `{Literals F}.
Variable np_log : F -> F.
Variable tscor : F -> option (F * F * F).
Variable np_power : F -> nat -> F.
Variable np_around : F -> F.
Variables cref csig : ndarray2 F.
Variable traw : list F.
Variables cwl coff : ndarray2 F.
Variable tcal : list F.
Variable tbins : ndarray2 F.
Variable tc_arr : list (ndarray2 F).
Variables T PS : list F.

(** X10.  [opt_beam_attenuation] is all or nothing.  On a rectangular
    wavelength array it succeeds exactly when every packet does; the result
    then has the shape of the wavelength array and its row [ii] is the
    temperature and salinity correction, for channel ['c'] at the rounded
    wavelengths, of the optical density of packet [ii]; otherwise the error
    is that of the first packet that fails, and no row is returned. *)
Theorem opt_beam_attenuation_rows :
  wf2 cwl ->
  let packet :=
    beam_attenuation_packet np_log tscor np_power cref csig traw
                            (map_2d np_around cwl) coff tcal tbins tc_arr
                            T PS in
  let res :=
    opt_beam_attenuation np_log tscor np_power np_around cref csig traw cwl
                         coff tcal tbins tc_arr T PS in
  (is_ok res = true
   <-> forall ii, ii < fst (shape cwl) -> is_ok (packet ii) = true)
  /\ (forall cpd_ts, res = Ok cpd_ts ->
      shape cpd_ts = shape cwl
      /\ forall ii, ii < fst (shape cwl) ->
           packet ii = Ok (nth ii (rows cpd_ts) []))
  /\ (forall e, res = Raise e ->
      exists k, k < fst (shape cwl)
                /\ (forall j, j < k -> is_ok (packet j) = true)
                /\ packet k = Raise e).
Proof.
  intros Hwf packet res.
  assert (Hlen : forall k row, k < fst (shape (map_2d np_around cwl)) ->
                   packet (0 + k) = Ok row ->
                   length row = snd (shape (map_2d np_around cwl))).
  { intros k row _ E. apply beam_attenuation_packet_Ok in E.
    apply (proj2 E). apply wf2_map_2d. exact Hwf. }
  pose proof (packet_loop_spec packet 0 Hlen) as Hloop.
  cbn [Nat.add] in Hloop.
  unfold res, opt_beam_attenuation. fold packet.
  rewrite shape_map_2d in *.
  destruct (packet_loop packet (snd (shape cwl)) 0 (fst (shape cwl)))
    as [rws|e]; simpl.
  - destruct Hloop as [Ln Hrows]. split; [|split].
    + split; [|reflexivity]. intros _ ii Hii.
      rewrite (Hrows ii Hii). reflexivity.
    + intros out E. injection E as <-. split.
      * unfold shape. simpl. rewrite Ln. reflexivity.
      * exact Hrows.
    + discriminate.
  - destruct Hloop as (k & Hk & Hbefore & Hfail). split; [|split].
    + split; [discriminate|]. intro Hall.
      specialize (Hall k Hk). rewrite Hfail in Hall. discriminate.
    + discriminate.
    + intros e' E. injection E as <-. exists k. auto.
Qed.

(** X11.  [opt_beam_attenuation] does not broadcast its per-packet
    arguments: it fails as soon as one of them has fewer entries (rows,
    tables) than the wavelength array has packets. *)
Theorem opt_beam_attenuation_needs_every_packet :
  let npackets := fst (shape cwl) in
  (length traw < npackets \/ fst (shape cref) < npackets
   \/ fst (shape csig) < npackets \/ fst (shape coff) < npackets
   \/ length tcal < npackets \/ fst (shape tbins) < npackets
   \/ length tc_arr < npackets \/ length T < npackets
   \/ length PS < npackets) ->
  is_ok (opt_beam_attenuation np_log tscor np_power np_around cref csig traw
                              cwl coff tcal tbins tc_arr T PS) = false.
Proof.
  intros npackets Hshort.
  destruct (Nat.eq_dec npackets 0) as [E0|N0]; [lia|].
  unfold opt_beam_attenuation. rewrite shape_map_2d. fold npackets.
  destruct (packet_loop _ _ 0 npackets) as [rws|e] eqn:El; [|reflexivity].
  exfalso.
  destruct (@packet_loop_Ok_body F _ _ _ _ _ El (npackets - 1))
    as [row Er]; [lia|].
  apply beam_attenuation_packet_Ok in Er. destruct Er as [Hlt _].
  unfold npackets in *. simpl in Hlt, Hshort. lia.
Qed.

End BeamAttenuation.

Section OpticalAbsorption.

Context {F : Type} `{Scalar F} `{Literals F}.
Variable np_log : F -> F.
Variable tscor : F -> option (F * F * F).
Variable np_power : F -> nat -> F.
Variable np_around : F -> F.
Variables aref asig : ndarray2 F.
Variable traw : list F.
Variables awl aoff : ndarray2 F.
Variable tcal : list F.
Variable tbins : ndarray2 F.
Variable ta_arr : list (ndarray2 F).
Variables cpd_ts cwl : ndarray2 F.
Variables T PS : list F.
Variable rwlngth : F.

(** X12.  [opt_optical_absorption] is all or nothing.  On a rectangular
    absorption wavelength array it succeeds exactly when every packet does;
    the result then has the shape of that array and its row [ii] is the
    scattering correction, against row [ii] of the attenuation input on the
    attenuation wavelengths as passed, of the temperature and salinity
    correction for channel ['a'] of the optical density of packet [ii];
    otherwise the error is that of the first packet that fails. *)
Theorem opt_optical_absorption_rows :
  wf2 awl ->
  let packet :=
    optical_absorption_packet np_log tscor np_power aref asig traw
                              (map_2d np_around awl) aoff tcal tbins ta_arr
                              cpd_ts cwl T PS rwlngth in
  let res :=
    opt_optical_absorption np_log tscor np_power np_around aref asig traw
                           awl aoff tcal tbins ta_arr cpd_ts cwl T PS
                           rwlngth in
  (is_ok res = true
   <-> forall ii, ii < fst (shape awl) -> is_ok (packet ii) = true)
  /\ (forall apd_ts_s, res = Ok apd_ts_s ->
      shape apd_ts_s = shape awl
      /\ forall ii, ii < fst (shape awl) ->
           packet ii = Ok (nth ii (rows apd_ts_s) []))
  /\ (forall e, res = Raise e ->
      exists k, k < fst (shape awl)
                /\ (forall j, j < k -> is_ok (packet j) = true)
                /\ packet k = Raise e).
Proof.
  intros Hwf packet res.
  assert (Hlen : forall k row, k < fst (shape (map_2d np_around awl)) ->
                   packet (0 + k) = Ok row ->
                   length row = snd (shape (map_2d np_around awl))).
  { intros k row _ E. apply optical_absorption_packet_Ok in E.
    apply (proj2 E). apply wf2_map_2d. exact Hwf. }
  pose proof (packet_loop_spec packet 0 Hlen) as Hloop.
  cbn [Nat.add] in Hloop.
  unfold res, opt_optical_absorption. fold packet.
  rewrite shape_map_2d in *.
  destruct (packet_loop packet (snd (shape awl)) 0 (fst (shape awl)))
    as [rws|e]; simpl.
  - destruct Hloop as [Ln Hrows]. split; [|split].
    + split; [|reflexivity]. intros _ ii Hii.
      rewrite (Hrows ii Hii). reflexivity.
    + intros out E. injection E as <-. split.
      * unfold shape. simpl. rewrite Ln. reflexivity.
      * exact Hrows.
    + discriminate.
  - destruct Hloop as (k & Hk & Hbefore & Hfail). split; [|split].
    + split; [discriminate|]. intro Hall.
      specialize (Hall k Hk). rewrite Hfail in Hall. discriminate.
    + discriminate.
    + intros e' E. injection E as <-. exists k. auto.
Qed.

(** X13.  [opt_optical_absorption] does not broadcast its per-packet
    arguments either, the attenuation coefficients and wavelengths
    included: it fails as soon as one of them has fewer entries than the
    absorption wavelength array has packets. *)
Theorem opt_optical_absorption_needs_every_packet :
  let npackets := fst (shape awl) in
  (length traw < npackets \/ fst (shape aref) < npackets
   \/ fst (shape asig) < npackets \/ fst (shape aoff) < npackets
   \/ length tcal < npackets \/ fst (shape tbins) < npackets
   \/ length ta_arr < npackets \/ fst (shape cpd_ts) < npackets
   \/ fst (shape cwl) < npackets \/ length T < npackets
   \/ length PS < npackets) ->
  is_ok (opt_optical_absorption np_log tscor np_power np_around aref asig
                                traw awl aoff tcal tbins ta_arr cpd_ts cwl
                                T PS rwlngth) = false.
Proof.
  intros npackets Hshort.
  destruct (Nat.eq_dec npackets 0) as [E0|N0]; [lia|].
  unfold opt_optical_absorption. rewrite shape_map_2d. fold npackets.
  destruct (packet_loop _ _ 0 npackets) as [rws|e] eqn:El; [|reflexivity].
  exfalso.
  destruct (@packet_loop_Ok_body F _ _ _ _ _ El (npackets - 1))
    as [row Er]; [lia|].
  apply optical_absorption_packet_Ok in Er. destruct Er as [Hlt _].
  unfold npackets in *. simpl in Hlt, Hshort. lia.
Qed.

End OpticalAbsorption.

(** The statements X10 and X11 at two packets of two wavelengths, over the
    reals; for X11 the calibration temperature is given once only. *)
Lemma opt_beam_attenuation_rows_witness :
  let tscor := fun w : R =>
    if Req_EM_T w 400 then Some (0.0001, 0.00002, 0.00003)%R
    else if Req_EM_T w 403.7 then Some (0.0002, 0.00004, 0.00006)%R
    else None in
  let counts := mk_ndarray2 2 [[100; 200]; [110; 210]]%R in
  let cwl := mk_ndarray2 2 [[400.02; 403.68]; [400.02; 403.68]]%R in
  let coff := mk_ndarray2 2 [[0.1; 0.2]; [0.1; 0.2]]%R in
  let tbins := mk_ndarray2 3 [[10; 20; 30]; [10; 20; 30]]%R in
  let tc := mk_ndarray2 3 [[0.01; 0.02; 0.03]; [0.04; 0.05; 0.06]]%R in
  let traw := [30000; 30100]%R in
  let two := [20; 20]%R in
  wf2 cwl
  /\ (is_ok (opt_beam_attenuation ln tscor pow R_around counts counts traw
                                  cwl coff two tbins [tc; tc] two two)
      = true
      <-> forall ii, ii < 2 ->
            is_ok (beam_attenuation_packet ln tscor pow counts counts traw
                     (map_2d R_around cwl) coff two tbins [tc; tc] two two
                     ii) = true).
Proof.
  intros tscor counts cwl coff tbins tc traw two.
  assert (Hwf : wf2 cwl) by (repeat constructor).
  split; [exact Hwf|].
  exact (proj1 (@opt_beam_attenuation_rows R Scalar_R Literals_R ln tscor
                  pow R_around counts counts traw cwl coff two tbins
                  [tc; tc] two two Hwf)).
Defined.

Lemma opt_beam_attenuation_needs_every_packet_witness :
  let tscor := fun w : R =>
    if Req_EM_T w 400 then Some (0.0001, 0.00002, 0.00003)%R
    else if Req_EM_T w 403.7 then Some (0.0002, 0.00004, 0.00006)%R
    else None in
  let counts := mk_ndarray2 2 [[100; 200]; [110; 210]]%R in
  let cwl := mk_ndarray2 2 [[400.02; 403.68]; [400.02; 403.68]]%R in
  let coff := mk_ndarray2 2 [[0.1; 0.2]; [0.1; 0.2]]%R in
  let tbins := mk_ndarray2 3 [[10; 20; 30]; [10; 20; 30]]%R in
  let tc := mk_ndarray2 3 [[0.01; 0.02; 0.03]; [0.04; 0.05; 0.06]]%R in
  let traw := [30000; 30100]%R in
  let two := [20; 20]%R in
  length [20%R] < fst (shape cwl)
  /\ is_ok (opt_beam_attenuation ln tscor pow R_around counts counts traw
                                 cwl coff [20%R] tbins [tc; tc] two two)
     = false.
Proof.
  intros tscor counts cwl coff tbins tc traw two.
  assert (Hshort : length [20%R] < fst (shape cwl)) by (simpl; lia).
  split; [exact Hshort|].
  apply (@opt_beam_attenuation_needs_every_packet R Scalar_R Literals_R ln
           tscor pow R_around counts counts traw cwl coff [20%R] tbins
           [tc; tc] two two).
  right. right. right. right. left. exact Hshort.
Defined.

(** The statements X12 and X13 at two packets of two wavelengths, over the
    reals; for X13 the attenuation coefficients have one row only. *)
Lemma opt_optical_absorption_rows_witness :
  let tscor := fun w : R =>
    if Req_EM_T w 400 then Some (0.0001, 0.00002, 0.00003)%R
    else if Req_EM_T w 403.7 then Some (0.0002, 0.00004, 0.00006)%R
    else None in
  let counts := mk_ndarray2 2 [[100; 200]; [110; 210]]%R in
  let awl := mk_ndarray2 2 [[400.02; 403.68]; [400.02; 403.68]]%R in
  let aoff := mk_ndarray2 2 [[0.1; 0.2]; [0.1; 0.2]]%R in
  let tbins := mk_ndarray2 3 [[10; 20; 30]; [10; 20; 30]]%R in
  let ta := mk_ndarray2 3 [[0.01; 0.02; 0.03]; [0.04; 0.05; 0.06]]%R in
  let cpd_ts := mk_ndarray2 2 [[0.5; 0.6]; [0.5; 0.6]]%R in
  let cwl := mk_ndarray2 2 [[399.5; 404.1]; [399.5; 404.1]]%R in
  let traw := [30000; 30100]%R in
  let two := [20; 20]%R in
  wf2 awl
  /\ (is_ok (opt_optical_absorption ln tscor pow R_around counts counts traw
                                    awl aoff two tbins [ta; ta] cpd_ts cwl
                                    two two 715%R) = true
      <-> forall ii, ii < 2 ->
            is_ok (optical_absorption_packet ln tscor pow counts counts traw
                     (map_2d R_around awl) aoff two tbins [ta; ta] cpd_ts
                     cwl two two 715%R ii) = true).
Proof.
  intros tscor counts awl aoff tbins ta cpd_ts cwl traw two.
  assert (Hwf : wf2 awl) by (repeat constructor).
  split; [exact Hwf|].
  exact (proj1 (@opt_optical_absorption_rows R Scalar_R Literals_R ln tscor
                  pow R_around counts counts traw awl aoff two tbins
                  [ta; ta] cpd_ts cwl two two 715%R Hwf)).
Defined.

Lemma opt_optical_absorption_needs_every_packet_witness :
  let tscor := fun w : R =>
    if Req_EM_T w 400 then Some (0.0001, 0.00002, 0.00003)%R
    else if Req_EM_T w 403.7 then Some (0.0002, 0.00004, 0.00006)%R
    else None in
  let counts := mk_ndarray2 2 [[100; 200]; [110; 210]]%R in
  let awl := mk_ndarray2 2 [[400.02; 403.68]; [400.02; 403.68]]%R in
  let aoff := mk_ndarray2 2 [[0.1; 0.2]; [0.1; 0.2]]%R in
  let tbins := mk_ndarray2 3 [[10; 20; 30]; [10; 20; 30]]%R in
  let ta := mk_ndarray2 3 [[0.01; 0.02; 0.03]; [0.04; 0.05; 0.06]]%R in
  let cpd_ts := mk_ndarray2 2 [[0.5; 0.6]]%R in
  let cwl := mk_ndarray2 2 [[399.5; 404.1]; [399.5; 404.1]]%R in
  let traw := [30000; 30100]%R in
  let two := [20; 20]%R in
  fst (shape cpd_ts) < fst (shape awl)
  /\ is_ok (opt_optical_absorption ln tscor pow R_around counts counts traw
                                   awl aoff two tbins [ta; ta] cpd_ts cwl
                                   two two 715%R) = false.
Proof.
  intros tscor counts awl aoff tbins ta cpd_ts cwl traw two.
  assert (Hshort : fst (shape cpd_ts) < fst (shape awl)) by (simpl; lia).
  split; [exact Hshort|].
  apply (@opt_optical_absorption_needs_every_packet R Scalar_R Literals_R ln
           tscor pow R_around counts counts traw awl aoff two tbins
           [ta; ta] cpd_ts cwl two two 715%R).
  do 7 right. left. exact Hshort.
Defined.

Section EmptySpectra.

Context {F : Type} `{Scalar F} `{Literals F}.
Variable np_log : F -> F.
Variable tscor : F -> option (F * F * F).
Variable np_power : F -> nat -> F.

Lemma opt_tempsal_corr_Ok_nonempty (channel : string) (pd wlngth : list F)
    (tcal T PS : F) (pd_ts : list F) :
  opt_tempsal_corr tscor channel pd wlngth tcal T PS = Ok pd_ts ->
  wlngth <> [].
Proof.
  intros E ->. unfold opt_tempsal_corr in E.
  destruct (negb (length pd =? length (@nil F))); [discriminate|].
  simpl in E.
  destruct (String.eqb channel "a"); [discriminate|].
  destruct (String.eqb channel "c"); discriminate.
Qed.

Lemma beam_attenuation_packet_wavelengths (cref csig : ndarray2 F)
    (traw : list F) (cwl coff : ndarray2 F) (tcal : list F)
    (tbins : ndarray2 F) (tc_arr : list (ndarray2 F)) (T PS : list F)
    (ii : nat) (row : list F) :
  beam_attenuation_packet np_log tscor np_power cref csig traw cwl coff
                          tcal tbins tc_arr T PS ii = Ok row ->
  exists cwl_ii, getitem (rows cwl) ii = Ok cwl_ii /\ cwl_ii <> [].
Proof.
  intro E. unfold beam_attenuation_packet in E. bind_inversion E.
  apply opt_tempsal_corr_Ok_nonempty in E. eauto.
Qed.

Lemma optical_absorption_packet_wavelengths (aref asig : ndarray2 F)
    (traw : list F) (awl aoff : ndarray2 F) (tcal : list F)
    (tbins : ndarray2 F) (ta_arr : list (ndarray2 F))
    (cpd_ts cwl : ndarray2 F) (T PS : list F) (rwlngth : F) (ii : nat)
    (row : list F) :
  optical_absorption_packet np_log tscor np_power aref asig traw awl aoff
                            tcal tbins ta_arr cpd_ts cwl T PS rwlngth ii
  = Ok row ->
  exists awl_ii, getitem (rows awl) ii = Ok awl_ii /\ awl_ii <> [].
Proof.
  intro E. unfold optical_absorption_packet in E. bind_inversion E.
  match goal with
  | G : opt_tempsal_corr _ _ _ _ _ _ _ = Ok _ |- _ =>
      apply opt_tempsal_corr_Ok_nonempty in G
  end.
  eauto.
Qed.

End EmptySpectra.

(** X14.  Neither wrapper returns an array without columns: when the
    (rectangular) wavelength array has packets but no wavelength channel,
    [opt_beam_attenuation] and [opt_optical_absorption] fail, as the
    temperature and salinity correction refuses an empty spectrum. *)
Theorem wrappers_refuse_empty_spectra :
  forall (F : Type) (Sc : Scalar F) (Li : Literals F) (np_log : F -> F)
         (tscor : F -> option (F * F * F)) (np_power : F -> nat -> F)
         (np_around : F -> F) (ref sig : ndarray2 F) (traw : list F)
         (wl off : ndarray2 F) (tcal : list F) (tbins : ndarray2 F)
         (t_arr : list (ndarray2 F)) (cpd_ts cwl : ndarray2 F)
         (T PS : list F) (rwlngth : F),
    wf2 wl -> snd (shape wl) = 0 -> 0 < fst (shape wl) ->
    is_ok (opt_beam_attenuation np_log tscor np_power np_around ref sig traw
                                wl off tcal tbins t_arr T PS) = false
    /\ is_ok (opt_optical_absorption np_log tscor np_power np_around ref sig
                                     traw wl off tcal tbins t_arr cpd_ts cwl
                                     T PS rwlngth) = false.
Proof.
  intros F Sc Li np_log tscor np_power np_around ref sig traw wl off tcal
         tbins t_arr cpd_ts cwl T PS rwlngth Hwf Hcols Hrows.
  assert (Hwf' : wf2 (map_2d np_around wl)) by (apply wf2_map_2d; exact Hwf).
  assert (Hempty : forall row, getitem (rows (map_2d np_around wl)) 0 = Ok row
                               -> row = []).
  { intros row E. apply (@wf2_getitem F _ _ _ Hwf') in E.
    simpl in E, Hcols. rewrite Hcols in E.
    destruct row; [reflexivity | discriminate]. }
  split.
  - unfold opt_beam_attenuation. rewrite shape_map_2d.
    destruct (packet_loop _ _ 0 (fst (shape wl))) as [rws|e] eqn:El;
      [|reflexivity].
    exfalso.
    destruct (@packet_loop_Ok_body F _ _ _ _ _ El 0 Hrows) as [row Er].
    apply beam_attenuation_packet_wavelengths in Er.
    destruct Er as (cwl_0 & E0 & N0). apply N0, Hempty. exact E0.
  - unfold opt_optical_absorption. rewrite shape_map_2d.
    destruct (packet_loop _ _ 0 (fst (shape wl))) as [rws|e] eqn:El;
      [|reflexivity].
    exfalso.
    destruct (@packet_loop_Ok_body F _ _ _ _ _ El 0 Hrows) as [row Er].
    apply optical_absorption_packet_wavelengths in Er.
    destruct Er as (awl_0 & E0 & N0). apply N0, Hempty. exact E0.
Qed.

(** The statement above at one packet without wavelength channels, over
    the reals. *)
Lemma wrappers_refuse_empty_spectra_witness :
  let none := mk_ndarray2 0 [@nil R] in
  let tbins := mk_ndarray2 3 [[10; 20; 30]]%R in
  let tc := mk_ndarray2 3 (@nil (list R)) in
  wf2 none /\ snd (shape none) = 0 /\ 0 < fst (shape none)
  /\ is_ok (opt_beam_attenuation ln (fun _ => None) pow R_around none
              none [30000%R] none none [20%R] tbins [tc]
              [12%R] [35%R]) = false.
Proof.
  intros none tbins tc.
  assert (Hwf : wf2 none) by (repeat constructor).
  assert (Hc : snd (shape none) = 0) by reflexivity.
  assert (Hr : 0 < fst (shape none)) by (simpl; lia).
  split; [exact Hwf|]. split; [exact Hc|]. split; [exact Hr|].
  exact (proj1 (@wrappers_refuse_empty_spectra R Scalar_R Literals_R ln
                  (fun _ => None) pow R_around none none [30000%R] none
                  none [20%R] tbins [tc] none none [12%R] [35%R] 715%R
                  Hwf Hc Hr)).
Defined.
